(** * Verification of the animation core of talking-cat-ai (script.js)

    The development embeds the six orchestration classes of [script.js]:
    [AnimationStateManager], [QuaternionRotationController],
    [ProceduralAnimationLayer], [ActionScheduler],
    [ContextDrivenAnimationController] and [BehaviorStateMachine].

    Number model.  JavaScript numbers are IEEE doubles.  Where the code only
    adds, subtracts, multiplies and compares, a number is a rational [Q] with
    exact arithmetic, so that every definition evaluates; [Math_PI] is the
    exact value of the double [Math.PI].  Where the code calls [Math.sin] and
    [Math.cos] (the procedural layer) a number is a real [R].  Rounding,
    NaN and the infinities are outside both models. *)

From Stdlib Require Import Reals.
From Stdlib Require Import QArith Qround Qabs ZArith Lia Psatz.
From Stdlib Require Import List String Ascii Bool Arith.
Import ListNotations.
Open Scope Q_scope.

(** ** Comparisons of JavaScript numbers, as booleans *)

Definition Qltb (a b : Q) : bool := negb (Qle_bool b a).
Definition Qgtb (a b : Q) : bool := Qltb b a.

(** ** QuaternionRotationController.rotateTo (script.js 108-134) *)

Module Rotation.

(** [Math.PI], the double 0x400921FB54442D18. *)
Definition Math_PI : Q := 884279719003555 # 281474976710656.

(** [while (angle > Math.PI) angle -= Math.PI * 2;]  One unit of fuel is one
    test of the loop condition; [None] is fuel exhausted. *)
Fixpoint wrap_down (fuel : nat) (angle : Q) : option Q :=
  match fuel with
  | O => None
  | S f => if Qgtb angle Math_PI
           then wrap_down f (angle - Math_PI * 2)
           else Some angle
  end.

(** [while (angle < -Math.PI) angle += Math.PI * 2;] *)
Fixpoint wrap_up (fuel : nat) (angle : Q) : option Q :=
  match fuel with
  | O => None
  | S f => if Qltb angle (- Math_PI)
           then wrap_up f (angle + Math_PI * 2)
           else Some angle
  end.

(** The closure [normalizeAngle] of [rotateTo]. *)
Definition normalizeAngle (fuel : nat) (angle : Q) : option Q :=
  match wrap_down fuel angle with
  | Some a => wrap_up fuel a
  | None => None
  end.

Definition minAngle : Q := - Math_PI / 2.
Definition maxAngle : Q := Math_PI / 4.

(** The [if / else if] that constrains the normalized angle. *)
Definition limitAngle (a : Q) : Q :=
  if Qltb a minAngle then minAngle
  else if Qgtb a maxAngle then maxAngle
  else a.

(** The arguments of [targetQuat.setFromAxisAngle]: the rotation axis and the
    angle about it.  The quaternion is (0, sin(angle/2), 0, cos(angle/2)); the
    yaw of the target orientation is [angle]. *)
Record AxisAngle : Type := mkAxisAngle {
  axis : Q * Q * Q;
  angle : Q
}.

(** [rotateTo] up to the construction of [targetQuat]; the tween that follows
    only reads it. *)
Definition rotateTo_target (fuel : nat) (targetAngleY : Q) : option AxisAngle :=
  match normalizeAngle fuel targetAngleY with
  | Some limitedTargetAngle =>
      Some (mkAxisAngle (0, 1, 0) (limitAngle limitedTargetAngle))
  | None => None
  end.

(** Loop tests that suffice for an input: both loops together run at most
    |angle| / 2PI times, and each needs one more test to leave. *)
Definition enough_fuel (angle : Q) : nat :=
  S (Z.to_nat (Qceiling (Qabs angle / (Math_PI * 2)))).

(** The spec's words: the representative of an angle in the half-open
    interval (-PI, PI].  Used only to compare with [normalizeAngle]. *)
Definition normalize_half_open (angle : Q) : Q :=
  angle - inject_Z (Qceiling ((angle - Math_PI) / (Math_PI * 2))) * (Math_PI * 2).

(** Two angles that differ by a whole number of turns. *)
Definition same_direction (a b : Q) : Prop :=
  exists k : Z, b == a + inject_Z k * (Math_PI * 2).

End Rotation.

(** ** AnimationStateManager (script.js 3-103) *)

Module Clips.
Local Open Scope string_scope.
Local Open Scope list_scope.

(** An [AnimationAction] object of THREE.js, by identity: [===] on two
    actions is equality of their identities. *)
Definition ActionId := nat.

Inductive LoopMode : Type := LoopRepeat | LoopOnce.

(** The repetition count given to [setLoop]: [Infinity] or 1. *)
Inductive Repetitions : Type := Infinity | Once.

(** Method calls and field writes on an action object.  The library is an
    external collaborator: the manager is observed through the calls it
    makes, in order. *)
Inductive ActionCall : Type :=
| Reset
| SetLoop (mode : LoopMode) (repetitions : Repetitions)
| SetClampWhenFinished (b : bool)
| SetEffectiveWeight (w : Q)
| SetEffectiveTimeScale (s : Q)
| SetEnabled (b : bool)
| CrossFadeFrom (previous : ActionId) (duration : Q) (warp : bool)
| FadeIn (duration : Q)
| FadeOut (duration : Q)
| Play.

(** The body of a callback handed to [setTimeout]. *)
Inductive Callback : Type :=
| TransitionDone            (* () => { this.isTransitioning = false; } *)
| FadeToIdleLater.          (* () => { this.fadeToIdle(); } *)

(** What the manager does to its environment. *)
Inductive Effect : Type :=
| OnAction (a : ActionId) (c : ActionCall)
| ConsoleWarn (message : string)
| ClearTimeout (timeoutId : nat)
| SetTimeout (cb : Callback) (delayMs : Q)
| AddFinishedListener (a : ActionId)
| RemoveFinishedListener (a : ActionId).

Record Manager : Type := mkManager {
  animations : list (string * ActionId);    (* this.animations, name -> action *)
  activeAction : option ActionId;           (* null is None *)
  pendingTimeouts : list (string * nat);    (* the Map name -> timeout id *)
  fadeDuration : Q;
  isTransitioning : bool;
  timers : list (Callback * Q);             (* callbacks waiting in setTimeout *)
  listeners : list ActionId;                (* 'finished' handlers on the mixer *)
  trace : list Effect                       (* effects so far, oldest first *)
}.

(** [new AnimationStateManager(mixer, animations)] *)
Definition constructor (anims : list (string * ActionId)) : Manager :=
  mkManager anims None [] (1 # 2) false [] [] [].

(** [this.animations[name]] for a name that is a clip of the table or that
    the table does not know at all.  The table is a plain object, so the
    names of the members it inherits from [Object.prototype] ('constructor',
    'toString', ...) are not undefined either; requests for those are
    outside the model. *)
Fixpoint lookup (name : string) (anims : list (string * ActionId)) : option ActionId :=
  match anims with
  | [] => None
  | (n, a) :: rest => if String.eqb n name then Some a else lookup name rest
  end.

Definition emit (es : list Effect) (m : Manager) : Manager :=
  mkManager (animations m) (activeAction m) (pendingTimeouts m) (fadeDuration m)
            (isTransitioning m) (timers m) (listeners m) (trace m ++ es).

Definition set_isTransitioning (b : bool) (m : Manager) : Manager :=
  mkManager (animations m) (activeAction m) (pendingTimeouts m) (fadeDuration m)
            b (timers m) (listeners m) (trace m).

Definition set_activeAction (a : option ActionId) (m : Manager) : Manager :=
  mkManager (animations m) a (pendingTimeouts m) (fadeDuration m)
            (isTransitioning m) (timers m) (listeners m) (trace m).

(** [setTimeout(cb, delay)] *)
Definition setTimeout (cb : Callback) (delayMs : Q) (m : Manager) : Manager :=
  emit [SetTimeout cb delayMs]
    (mkManager (animations m) (activeAction m) (pendingTimeouts m) (fadeDuration m)
               (isTransitioning m) (timers m ++ [(cb, delayMs)]) (listeners m) (trace m)).

(** [this.mixer.addEventListener('finished', handler)], the handler waiting
    for action [a]. *)
Definition addFinishedListener (a : ActionId) (m : Manager) : Manager :=
  emit [AddFinishedListener a]
    (mkManager (animations m) (activeAction m) (pendingTimeouts m) (fadeDuration m)
               (isTransitioning m) (timers m) (listeners m ++ [a]) (trace m)).

(** [clearTimeouts()] *)
Definition clearTimeouts (m : Manager) : Manager :=
  emit (map (fun p => ClearTimeout (snd p)) (pendingTimeouts m))
    (mkManager (animations m) (activeAction m) [] (fadeDuration m)
               (isTransitioning m) (timers m) (listeners m) (trace m)).

Definition same_action (a : option ActionId) (b : ActionId) : bool :=
  match a with
  | Some x => Nat.eqb x b
  | None => false
  end.

(** [playAction(name, fadeDuration, loop)]: the returned action ([None] is
    [null]) and the manager afterwards. *)
Definition playAction (name : string) (fade : Q) (loop : bool) (m : Manager)
  : option ActionId * Manager :=
  if isTransitioning m then (None, m)
  else
    match lookup name (animations m) with
    | None =>
        (None, emit [ConsoleWarn (String.append "Animation '"
                                 (String.append name "' not found"))] m)
    | Some nextAction =>
        if same_action (activeAction m) nextAction then (Some nextAction, m)
        else
          let m1 := clearTimeouts (set_isTransitioning true m) in
          let m2 := emit [ OnAction nextAction Reset;
                           OnAction nextAction
                             (if loop then SetLoop LoopRepeat Infinity
                              else SetLoop LoopOnce Once);
                           OnAction nextAction (SetClampWhenFinished (negb loop));
                           OnAction nextAction (SetEffectiveWeight 1);
                           OnAction nextAction (SetEffectiveTimeScale 1);
                           OnAction nextAction (SetEnabled true) ] m1 in
          let m3 := match activeAction m2 with
                    | Some previous =>
                        emit [OnAction nextAction (CrossFadeFrom previous fade false)] m2
                    | None => emit [OnAction nextAction (FadeIn fade)] m2
                    end in
          let m4 := set_activeAction (Some nextAction)
                      (emit [OnAction nextAction Play] m3) in
          let m5 := setTimeout TransitionDone (fade * 1000) m4 in
          let m6 := if loop then m5 else addFinishedListener nextAction m5 in
          (Some nextAction, m6)
    end.

(** [fadeToIdle(fadeDuration)] *)
Definition fadeToIdle (fade : Q) (m : Manager) : option ActionId * Manager :=
  match lookup "idle" (animations m) with
  | Some _ =>
      match playAction "idle" fade true m with
      | (Some idleAction, m') =>
          (Some idleAction,
           emit [ OnAction idleAction (SetEffectiveWeight 1);
                  OnAction idleAction (SetEffectiveTimeScale 1) ] m')
      | (None, m') => (None, m')
      end
  | None => (None, m)
  end.

(** [stopAction(fadeDuration)] *)
Definition stopAction (fade : Q) (m : Manager) : Manager :=
  clearTimeouts
    match activeAction m with
    | Some a => set_activeAction None (emit [OnAction a (FadeOut fade)] m)
    | None => m
    end.

(** [setSpeed(speed)] *)
Definition setSpeed (speed : Q) (m : Manager) : Manager :=
  match activeAction m with
  | Some a => emit [OnAction a (SetEffectiveTimeScale speed)] m
  | None => m
  end.

(** [getCurrentAction()] *)
Definition getCurrentAction (m : Manager) : option ActionId := activeAction m.

(** A timer of the manager fires: its callback runs.  [n] is the position of
    the timer among the waiting ones. *)
Definition run_callback (cb : Callback) (m : Manager) : Manager :=
  match cb with
  | TransitionDone => set_isTransitioning false m
  | FadeToIdleLater => snd (fadeToIdle (1 # 2) m)
  end.

Fixpoint remove_nth {A : Type} (n : nat) (l : list A) : list A :=
  match n, l with
  | _, [] => []
  | O, _ :: rest => rest
  | S k, x :: rest => x :: remove_nth k rest
  end.

Definition fire_timer (n : nat) (m : Manager) : Manager :=
  match nth_error (timers m) n with
  | Some (cb, _) =>
      run_callback cb
        (mkManager (animations m) (activeAction m) (pendingTimeouts m) (fadeDuration m)
                   (isTransitioning m) (remove_nth n (timers m)) (listeners m) (trace m))
  | None => m
  end.

(** The mixer reports that action [a] has finished: every handler waiting for
    [a] removes itself and arms the 100 ms timer that returns to idle. *)
Definition mixer_finished (a : ActionId) (m : Manager) : Manager :=
  fold_left
    (fun acc h =>
       setTimeout FadeToIdleLater 100 (emit [RemoveFinishedListener h] acc))
    (filter (fun h => Nat.eqb h a) (listeners m))
    (mkManager (animations m) (activeAction m) (pendingTimeouts m)
               (fadeDuration m) (isTransitioning m) (timers m)
               (filter (fun h => negb (Nat.eqb h a)) (listeners m))
               (trace m)).

(** The clip table that [loadAnimations] builds when every file loads. *)
Definition loaded_clips : list (string * ActionId) :=
  [("idle", 0%nat); ("walk", 1%nat); ("run", 2%nat);
   ("jump", 3%nat); ("paw_attack", 4%nat); ("bite", 5%nat)].

(** The manager right after [initializeLayeredAnimationSystem] has started the
    idle clip: idle is active and its cross-fade is in progress. *)
Definition fading_to_idle : Manager :=
  snd (playAction "idle" (1 # 2) true (constructor loaded_clips)).

(** The manager once the idle cross-fade has ended. *)
Definition idle_settled : Manager := fire_timer 0 fading_to_idle.

End Clips.

(** ** ActionScheduler (script.js 456-564)

    The scheduler is asynchronous.  Its state holds the promise reactions
    that are ready to run (the microtask queue, first in first out), the
    operations that wait for an outside completion (a [setTimeout] timer, a
    tween reaching t = 1) and the [Promise.all] of each parallel composite.
    One resolution of a promise is one microtask.  A log records when each
    call of [executeAction] sets the flag and when its [finally] runs. *)

Module Scheduler.
Local Open Scope string_scope.
Local Open Scope list_scope.

Definition Vector3 : Type := Q * Q * Q.

(** An action descriptor, by its [type]. *)
#[warnings="-register-all"]
Inductive Action : Type :=
| Locomotion (animation : option string) (targetPosition : option Vector3)
             (duration : option Q)
| Composite (parallel : bool) (actions : list Action)
| Oneshot (animation : option string) (duration : option Q).

(** What waits for the promise of a call of [executeAction]. *)
Inductive Cont : Type :=
| KDone                                    (* nothing: the promise is not awaited *)
| KCaller (tag : nat)                      (* an [await] outside the scheduler *)
| KFinally (id : nat) (a : Action) (k : Cont)
    (* the rest of call [id] of [executeAction(a)] after its [await]: the
       [finally] block, then the promise of the call resolves to [k] *)
| KSeq (i : nat) (rest : list Action) (k : Cont)
    (* the sequential loop of [executeComposite] before sub-action number [i],
       [rest] still to run; [k] is the rest of the composite's own call *)
| KJoin (c i : nat).
    (* element [i] of the [Promise.all] of composite call [c] *)

(** The place of a call among the sub-actions of a composite call [c]. *)
Inductive Parent : Type :=
| Seq (c i : nat)
| Par (c i : nat).

Definition parent_of (k : Cont) : option Parent :=
  match k with
  | KSeq i _ (KFinally c _ _) => Some (Seq c (pred i))
  | KJoin c i => Some (Par c i)
  | _ => None
  end.

(** What an operation in flight waits for. *)
Inductive Wait : Type :=
| WTimer              (* executeOneshot: setTimeout(resolve, duration || 1000) *)
| WRotateToTarget     (* executeLocomotion: rotateTo(targetAngle, 0.5, ...) *)
| WMove               (* moveToPosition(targetPosition, duration || 2500, ...) *)
| WDelay              (* setTimeout(..., 200) *)
| WFaceCamera.        (* rotateTo(faceAngle + variation, 1.0, ...) *)

Inductive Event : Type :=
| Started (id : nat) (parent : option Parent) (a : Action)
| Finished (id : nat) (a : Action)
| Enqueued (a : Action)
| Dequeued (a : Action)
| Dropped (a : Action)
| Resolved (tag : nat)
| Hung (id : nat).     (* a tween refused by a busy flag: its callback is lost *)

Record World : Type := mkWorld {
  isExecuting : bool;
  actionQueue : list Action;
  manager : Clips.Manager;                  (* this.cat.animationManager *)
  isMoving : bool;                          (* this.cat.motionController *)
  isRotating : bool;
  pending : list (nat * Wait * Cont);       (* by the call that waits *)
  micro : list Cont;
  joins : list (nat * list nat * Cont);     (* unresolved elements, reaction *)
  nextId : nat;
  log : list Event
}.

(** [new ActionScheduler(cat)] *)
Definition constructor (mgr : Clips.Manager) : World :=
  mkWorld false [] mgr false false [] [] [] 0 [].

Definition set_isExecuting (b : bool) (w : World) : World :=
  mkWorld b (actionQueue w) (manager w) (isMoving w) (isRotating w)
          (pending w) (micro w) (joins w) (nextId w) (log w).

Definition set_actionQueue (q : list Action) (w : World) : World :=
  mkWorld (isExecuting w) q (manager w) (isMoving w) (isRotating w)
          (pending w) (micro w) (joins w) (nextId w) (log w).

Definition set_manager (g : Clips.Manager) (w : World) : World :=
  mkWorld (isExecuting w) (actionQueue w) g (isMoving w) (isRotating w)
          (pending w) (micro w) (joins w) (nextId w) (log w).

Definition set_isMoving (b : bool) (w : World) : World :=
  mkWorld (isExecuting w) (actionQueue w) (manager w) b (isRotating w)
          (pending w) (micro w) (joins w) (nextId w) (log w).

Definition set_isRotating (b : bool) (w : World) : World :=
  mkWorld (isExecuting w) (actionQueue w) (manager w) (isMoving w) b
          (pending w) (micro w) (joins w) (nextId w) (log w).

Definition set_pending (p : list (nat * Wait * Cont)) (w : World) : World :=
  mkWorld (isExecuting w) (actionQueue w) (manager w) (isMoving w) (isRotating w)
          p (micro w) (joins w) (nextId w) (log w).

Definition set_micro (m : list Cont) (w : World) : World :=
  mkWorld (isExecuting w) (actionQueue w) (manager w) (isMoving w) (isRotating w)
          (pending w) m (joins w) (nextId w) (log w).

Definition set_joins (j : list (nat * list nat * Cont)) (w : World) : World :=
  mkWorld (isExecuting w) (actionQueue w) (manager w) (isMoving w) (isRotating w)
          (pending w) (micro w) j (nextId w) (log w).

Definition set_nextId (n : nat) (w : World) : World :=
  mkWorld (isExecuting w) (actionQueue w) (manager w) (isMoving w) (isRotating w)
          (pending w) (micro w) (joins w) n (log w).

Definition emit (es : list Event) (w : World) : World :=
  mkWorld (isExecuting w) (actionQueue w) (manager w) (isMoving w) (isRotating w)
          (pending w) (micro w) (joins w) (nextId w) (log w ++ es).

(** A promise resolves: its reaction becomes a microtask. *)
Definition enqueue (k : Cont) (w : World) : World :=
  match k with
  | KDone => w
  | _ => set_micro (micro w ++ [k]) w
  end.

Definition add_pending (id : nat) (wt : Wait) (k : Cont) (w : World) : World :=
  set_pending (pending w ++ [(id, wt, k)]) w.

(** [action.animation] as a property key; a missing one reads 'undefined'. *)
Definition clip_name (animation : option string) : string :=
  match animation with
  | Some n => n
  | None => "undefined"
  end.

(** [this.cat.animationManager.playAction(name, fade, loop)] *)
Definition play (animation : option string) (fade : Q) (loop : bool) (w : World)
  : World :=
  set_manager (snd (Clips.playAction (clip_name animation) fade loop (manager w))) w.

(** [x || fallback] on a number: 0 and undefined take the fallback. *)
Definition or_default (x : option Q) (fallback : Q) : Q :=
  match x with
  | Some v => if Qeq_bool v 0 then fallback else v
  | None => fallback
  end.

(** The first lines of [executeAction]: the flag is set and the call is
    numbered. *)
Definition entered (a : Action) (k : Cont) (w : World) : World :=
  emit [Started (nextId w) (parent_of k) a]
    (set_nextId (S (nextId w)) (set_isExecuting true w)).

(** The parallel loop of [executeComposite]:
    [promises.push(this.executeAction(subAction))] for each sub-action, from
    number [i] on; [go] is [executeAction]. *)
Definition launch (go : Action -> Cont -> World -> World) (c : nat)
  : list Action -> nat -> World -> World :=
  fix loop (l : list Action) (i : nat) (w : World) {struct l} : World :=
    match l with
    | [] => w
    | subAction :: rest => loop rest (S i) (go subAction (KJoin c i) w)
    end.

(** [executeAction(action)] up to its first [await]; [k] waits for the
    promise it returns.  The call is number [nextId]. *)
Fixpoint start (a : Action) (k : Cont) (w : World) {struct a} : World :=
  let id := nextId w in
  let w1 := entered a k w in
  match a with
  | Oneshot animation duration =>
      add_pending id WTimer (KFinally id a k) (play animation (1 # 10) false w1)
  | Locomotion animation targetPosition duration =>
      let w2 := play animation (3 # 10) true w1 in
      match targetPosition with
      | None => enqueue (KFinally id a k) w2
      | Some _ =>
          if isRotating w2 then emit [Hung id] w2
          else add_pending id WRotateToTarget (KFinally id a k)
                 (set_isRotating true w2)
      end
  | Composite true subs =>
      let launched := launch start id subs 0%nat w1 in
      match subs with
      | [] => enqueue (KFinally id a k) launched
      | _ => set_joins (joins launched
                        ++ [(id, seq 0 (List.length subs), KFinally id a k)])
                       launched
      end
  | Composite false subs =>
      match subs with
      | [] => enqueue (KFinally id a k) w1
      | subAction :: rest => start subAction (KSeq 1 rest (KFinally id a k)) w1
      end
  end.

(** [processQueue()] *)
Definition processQueue (w : World) : World :=
  match actionQueue w with
  | [] => w
  | nextAction :: rest =>
      start nextAction KDone (emit [Dequeued nextAction] (set_actionQueue rest w))
  end.

(** Element [i] of the [Promise.all] of [c] resolves. *)
Fixpoint resolve_join (c i : nat) (js : list (nat * list nat * Cont))
  : list (nat * list nat * Cont) * list Cont :=
  match js with
  | [] => ([], [])
  | (c', unresolved, k) :: rest =>
      if Nat.eqb c' c then
        match List.remove Nat.eq_dec i unresolved with
        | [] => (rest, [k])
        | others => ((c', others, k) :: rest, [])
        end
      else
        let (js', out) := resolve_join c i rest in
        ((c', unresolved, k) :: js', out)
  end.

(** One reaction runs. *)
Definition run_cont (k : Cont) (w : World) : World :=
  match k with
  | KDone => w
  | KCaller tag => emit [Resolved tag] w
  | KFinally id a k' =>
      enqueue k' (processQueue (set_isExecuting false (emit [Finished id a] w)))
  | KSeq i [] k' => enqueue k' w
  | KSeq i (subAction :: rest) k' => start subAction (KSeq (S i) rest k') w
  | KJoin c i =>
      let (js, out) := resolve_join c i (joins w) in
      fold_left (fun acc r => enqueue r acc) out (set_joins js w)
  end.

(** The first microtask runs. *)
Definition run_micro (w : World) : World :=
  match micro w with
  | [] => w
  | k :: rest => run_cont k (set_micro rest w)
  end.

(** The microtask queue is run until it is empty; one unit of fuel is one
    microtask, [None] is fuel exhausted. *)
Fixpoint drain (fuel : nat) (w : World) : option World :=
  match micro w with
  | [] => Some w
  | _ :: _ =>
      match fuel with
      | O => None
      | S f => drain f (run_micro w)
      end
  end.

(** [scheduleAction(actionDescriptor)] *)
Definition scheduleAction (a : Action) (w : World) : World :=
  if isExecuting w
  then emit [Enqueued a] (set_actionQueue (actionQueue w ++ [a]) w)
  else start a KDone w.

(** [executeAction(action)] called from outside and awaited there. *)
Definition executeAction (a : Action) (tag : nat) (w : World) : World :=
  start a (KCaller tag) w.

(** [cancelAll()] *)
Definition cancelAll (w : World) : World :=
  set_manager (snd (Clips.fadeToIdle (1 # 2) (manager w)))
    (set_isExecuting false
       (set_actionQueue [] (emit (map Dropped (actionQueue w)) w))).

Fixpoint take_pending (id : nat) (p : list (nat * Wait * Cont))
  : option (Wait * Cont) * list (nat * Wait * Cont) :=
  match p with
  | [] => (None, [])
  | (id', wt, k) :: rest =>
      if Nat.eqb id' id then (Some (wt, k), rest)
      else let (found, rest') := take_pending id rest in
           (found, (id', wt, k) :: rest')
  end.

(** The operation that call [id] waits for completes: its timer fires or its
    tween reaches t = 1, and its callback runs. *)
Definition complete (id : nat) (w : World) : World :=
  match take_pending id (pending w) with
  | (None, _) => w
  | (Some (wt, k), rest) =>
      let w1 := set_pending rest w in
      match wt with
      | WTimer => enqueue k w1
      | WRotateToTarget =>
          let w2 := set_isRotating false w1 in
          if isMoving w2 then emit [Hung id] w2
          else add_pending id WMove k (set_isMoving true w2)
      | WMove =>
          let w2 := set_isMoving false w1 in
          add_pending id WDelay k
            (set_manager (snd (Clips.fadeToIdle (8 # 10) (manager w2))) w2)
      | WDelay =>
          if isRotating w1 then emit [Hung id] w1
          else add_pending id WFaceCamera k (set_isRotating true w1)
      | WFaceCamera => enqueue k (set_isRotating false w1)
      end
  end.

(** What can happen from outside, one macrotask each. *)
Inductive Input : Type :=
| CallSchedule (a : Action)
| CallExecute (a : Action) (tag : nat)
| CallCancelAll
| Complete (id : nat).

Definition input (i : Input) (w : World) : World :=
  match i with
  | CallSchedule a => scheduleAction a w
  | CallExecute a tag => executeAction a tag w
  | CallCancelAll => cancelAll w
  | Complete id => complete id w
  end.

(** A macrotask: the input, then every microtask. *)
Definition macrotask (fuel : nat) (i : Input) (w : World) : option World :=
  drain fuel (input i w).

Fixpoint run (fuel : nat) (inputs : list Input) (w : World) : option World :=
  match inputs with
  | [] => Some w
  | i :: rest =>
      match macrotask fuel i w with
      | Some w' => run fuel rest w'
      | None => None
      end
  end.

(** The states the scheduler can be in: any inputs, any number of microtasks
    between them. *)
Inductive reachable (w0 : World) : World -> Prop :=
| reach_init : reachable w0 w0
| reach_input (w : World) (i : Input) :
    reachable w0 w -> reachable w0 (input i w)
| reach_micro (w : World) :
    reachable w0 w -> reachable w0 (run_micro w).

(** *** What the log says *)












Definition fresh (n : nat) (L : list Event) : Prop :=
  forall id p a, In (Started id p a) L -> (id < n)%nat.



(** Every event of [L] is in [L']. *)
Definition ext (L L' : list Event) : Prop := forall e, In e L -> In e L'.




(** The descriptors that entered the queue, in order of arrival. *)
Fixpoint arrivals (L : list Event) : list Action :=
  match L with
  | [] => []
  | Enqueued a :: rest => a :: arrivals rest
  | _ :: rest => arrivals rest
  end.

(** The descriptors that left the queue, in the order they left: taken by
    [processQueue] or dropped by [cancelAll]. *)
Fixpoint departures (L : list Event) : list Action :=
  match L with
  | [] => []
  | Dequeued a :: rest => a :: departures rest
  | Dropped a :: rest => a :: departures rest
  | _ :: rest => departures rest
  end.



(** What every call of [executeAction(a)] does, whatever the state: the flag
    is set, the call is logged, the queue is not touched. *)
Definition start_frame (a : Action) (k : Cont) (w w' : World) : Prop :=
  ext (log w) (log w')
  /\ In (Started (nextId w) (parent_of k) a) (log w')
  /\ isExecuting w' = true
  /\ actionQueue w' = actionQueue w
  /\ arrivals (log w') = arrivals (log w)
  /\ departures (log w') = departures (log w)
  /\ (nextId w < nextId w')%nat.

(** Descriptors and scenarios of the examples. *)
Definition jump : Action := Oneshot (Some "jump") (Some 800).
Definition bite : Action := Oneshot (Some "bite") None.
Definition paw : Action := Oneshot (Some "paw_attack") None.
Definition walk_to : Action := Locomotion (Some "walk") (Some (1, 0, 2)) (Some 2000).

(** A fresh scheduler on a cat whose idle clip has settled. *)
Definition idle_scheduler : World := constructor Clips.idle_settled.

(** The state after a list of macrotasks; the scheduler stays where it is
    if the microtasks of one of them do not end within 100 steps. *)
Definition after (inputs : list Input) (w : World) : World :=
  match run 100 inputs w with
  | Some w' => w'
  | None => w
  end.

(** The calls in flight: started and waiting for a timer or a tween. *)
Definition in_flight (w : World) : list nat :=
  map (fun p => fst (fst p)) (pending w).

(** What is under way: the operations in flight, the reactions that are
    ready, the [Promise.all]s and the busy flags of the motion controller. *)
Definition under_way (w : World)
  : list (nat * Wait * Cont) * list Cont * list (nat * list nat * Cont)
    * bool * bool :=
  (pending w, micro w, joins w, isMoving w, isRotating w).


End Scheduler.

(** ** ContextDrivenAnimationController: scoring (script.js 568-676) *)

Module Context.
Local Open Scope string_scope.
Local Open Scope list_scope.

Record ContextMapping : Type := mkMapping {
  keywords : list string;
  emotions : list string;
  action : string;             (* the name of the handler method *)
  weight : Q
}.

(** [this.contextMappings] as the constructor fills it. *)
Definition contextMappings : list ContextMapping :=
  [ mkMapping ["walk"; "walking"; "stroll"; "pace"; "step"]
              ["rain"; "outside"; "path"; "journey"]
              "performWalkingContext" 1;
    mkMapping ["run"; "running"; "sprint"; "fast"; "speed"; "rush"]
              ["energy"; "quick"; "hurry"; "race"]
              "performRunningContext" 1;
    mkMapping ["jump"; "jumping"; "leap"; "hop"; "bounce"]
              ["excited"; "happy"; "joy"; "celebrate"]
              "performJumpingContext" (8 # 10);
    mkMapping ["sleep"; "tired"; "sleepy"; "rest"; "nap"]
              ["exhausted"; "peaceful"; "calm"; "quiet"]
              "performSleepingContext" (7 # 10);
    mkMapping ["look"; "see"; "watch"; "observe"; "gaze"]
              ["curious"; "wonder"; "interesting"; "notice"]
              "performLookingContext" (6 # 10);
    mkMapping ["play"; "fun"; "game"; "toy"; "playful"]
              ["joy"; "entertainment"; "amusing"; "funny"]
              "performPlayfulContext" (9 # 10) ].

(** [String.prototype.includes]: [sub] occurs somewhere in [text]. *)
Fixpoint includes (text sub : string) : bool :=
  String.prefix sub text
  || match text with
     | EmptyString => false
     | String _ rest => includes rest sub
     end.

(** [String.prototype.toLowerCase] on the ASCII letters; other characters are
    left as they are. *)
Definition lower_ascii (c : ascii) : ascii :=
  let n := nat_of_ascii c in
  if (65 <=? n)%nat && (n <=? 90)%nat then ascii_of_nat (n + 32) else c.

Fixpoint toLowerCase (s : string) : string :=
  match s with
  | EmptyString => EmptyString
  | String c rest => String (lower_ascii c) (toLowerCase rest)
  end.

(** The successive results of [Math.random()]: draw number [i] of one
    evaluation is [rand i], a number in [0, 1). *)
Definition Random := nat -> Q.

(** [for (const keyword of mapping.keywords) if (text.includes(keyword)) score += 2;] *)
Definition add_keywords (text : string) (ws : list string) (score : Q) : Q :=
  fold_left (fun s w => if includes text w then s + 2 else s) ws score.

(** [for (const emotion of mapping.emotions) if (text.includes(emotion)) score += 1;] *)
Definition add_emotions (text : string) (ws : list string) (score : Q) : Q :=
  fold_left (fun s w => if includes text w then s + 1 else s) ws score.

(** [0.8 + Math.random() * 0.4] for the draw [r]. *)
Definition jitter (r : Q) : Q := (8 # 10) + r * (4 # 10).

(** The score of one mapping, [r] being the draw of
    [score *= mapping.weight * (0.8 + Math.random() * 0.4)]. *)
Definition mapping_score (text : string) (m : ContextMapping) (r : Q) : Q :=
  let score := add_emotions text (emotions m) (add_keywords text (keywords m) 0) in
  score * (weight m * jitter r).

(** The loop of [findBestContextMatch] from mapping number [i] on, with the
    loop variables [bestMatch] and [highestScore]. *)
Fixpoint scan_mappings (text : string) (rand : Random) (ms : list ContextMapping)
    (i : nat) (bestMatch : option ContextMapping) (highestScore : Q)
  : option ContextMapping :=
  match ms with
  | [] => bestMatch
  | mapping :: rest =>
      let score := mapping_score text mapping (rand i) in
      if Qgtb score highestScore && Qgtb score (15 # 10)
      then scan_mappings text rand rest (S i) (Some mapping) score
      else scan_mappings text rand rest (S i) bestMatch highestScore
  end.

(** [findBestContextMatch(text)] over the table [ms]. *)
Definition findBestContextMatch (ms : list ContextMapping) (text : string)
    (rand : Random) : option ContextMapping :=
  scan_mappings text rand ms 0 None 0.

(** The selector: its busy flag and the handlers it has invoked, each with the
    text it was given.  (No method [performLookingContext] exists; invoking it
    throws inside the [try] of the caller.) *)
Record Selector : Type := mkSelector {
  isPerformingContextualAction : bool;
  invoked : list (string * string)
}.

(** [analyzeAndTriggerContextualAction(userInput, geminiResponse)] up to the
    invocation of the handler.  The draw that decides whether the winner
    fires comes after one draw per mapping. *)
Definition analyzeAndTriggerContextualAction (ms : list ContextMapping)
    (userInput geminiResponse : string) (rand : Random) (s : Selector) : Selector :=
  if isPerformingContextualAction s then s
  else
    let combinedText :=
      toLowerCase (String.append userInput (String.append " " geminiResponse)) in
    match findBestContextMatch ms combinedText rand with
    | Some contextMatch =>
        if Qltb (rand (List.length ms)) (weight contextMatch)
        then mkSelector true
                        (invoked s ++ [(action contextMatch, combinedText)])
        else s
    | None => s
    end.


(** The spec's words: 2 points per keyword found plus 1 point per emotion
    keyword found. *)
Definition points (text : string) (m : ContextMapping) : Q :=
  inject_Z (2 * Z.of_nat (List.length (filter (includes text) (keywords m)))
            + Z.of_nat (List.length (filter (includes text) (emotions m)))).

(** The score of mapping number [i] of the table in one evaluation. *)
Definition score_at (ms : list ContextMapping) (text : string) (rand : Random)
    (i : nat) : Q :=
  match nth_error ms i with
  | Some m => mapping_score text m (rand i)
  | None => 0
  end.

(** Draws for the examples: every draw is 1/2, so the jitter factor is 1. *)
Definition half : Random := fun _ => 1 # 2.

End Context.

(** ** BehaviorStateMachine.changeState and onStateEnter (script.js 857-893) *)

Module Behavior.
Local Open Scope string_scope.
Local Open Scope list_scope.

(** Methods of the cat that the state machine calls and whose bodies act on
    the scene (model rotation tween, random orientation timer). *)
Inductive CatCall : Type :=
| EnterSleepMode
| ExitSleepMode.

(** The payload attached to a state; [{}] is the empty list. *)
Definition StateData := list (string * string).

(** The state machine together with the fields of the cat that it writes. *)
Record Machine : Type := mkMachine {
  currentState : string;
  previousState : string;
  stateStartTime : Q;
  stateData : StateData;
  mood : string;                          (* this.cat.mood *)
  animationManager : Clips.Manager;       (* this.cat.animationManager *)
  catCalls : list CatCall                 (* scene-side calls, oldest first *)
}.

(** [new BehaviorStateMachine(cat)], built at clock reading [now]. *)
Definition constructor (now : Q) (catMood : string) (mgr : Clips.Manager) : Machine :=
  mkMachine "idle" "idle" now [] catMood mgr [].

Definition set_mood (s : string) (m : Machine) : Machine :=
  mkMachine (currentState m) (previousState m) (stateStartTime m) (stateData m)
            s (animationManager m) (catCalls m).

Definition set_manager (g : Clips.Manager) (m : Machine) : Machine :=
  mkMachine (currentState m) (previousState m) (stateStartTime m) (stateData m)
            (mood m) g (catCalls m).

Definition call_cat (c : CatCall) (m : Machine) : Machine :=
  mkMachine (currentState m) (previousState m) (stateStartTime m) (stateData m)
            (mood m) (animationManager m) (catCalls m ++ [c]).

(** [cat.enterSleepMode()] (script.js 1634-1644): replays the idle clip with a
    one second fade and slows it down; the rest acts on the scene. *)
Definition enterSleepMode (m : Machine) : Machine :=
  call_cat EnterSleepMode
    (set_manager
       (Clips.setSpeed (3 # 10)
          (snd (Clips.playAction "idle" 1 true (animationManager m))))
       m).

(** [onStateEnter(state)] *)
Definition onStateEnter (state : string) (m : Machine) : Machine :=
  if String.eqb state "idle" then
    let m1 := set_mood "neutral" m in
    set_manager (snd (Clips.playAction "idle" (1 # 2) true (animationManager m1))) m1
  else if String.eqb state "playful" then set_mood "happy" m
  else if String.eqb state "curious" then set_mood "curious" m
  else if String.eqb state "talking" then set_mood "engaged" m
  else if String.eqb state "sleep" then enterSleepMode (set_mood "sleepy" m)
  else if String.eqb state "processing" then set_mood "engaged" m
  else if String.eqb state "listening" then set_mood "curious" m
  else m.

(** [changeState(newState, stateData)]; [now] is what [performance.now()]
    returns if it is called. *)
Definition changeState (newState : string) (data : StateData) (now : Q)
    (m : Machine) : Machine :=
  if String.eqb newState (currentState m) then m
  else
    onStateEnter newState
      (mkMachine newState (currentState m) now data
                 (mood m) (animationManager m) (catCalls m)).

(** A machine in state sleep: built idle at time 0, sent to sleep at 61000. *)
Definition asleep : Machine :=
  changeState "sleep" [] 61000
    (constructor 0 "neutral" Clips.idle_settled).

End Behavior.

(** ** ProceduralAnimationLayer (script.js 213-452) *)

Module Procedural.
Local Open Scope string_scope.
Local Open Scope list_scope.
Local Open Scope R_scope.

(** A [THREE.Euler]: the rotation of a bone.  [new THREE.Euler()] is zero. *)
Record Euler : Type := mkEuler { ex : R; ey : R; ez : R }.

Definition Euler_zero : Euler := mkEuler 0 0 0.

(** [this.cat.bones]: a missing bone is [None]; a bone is its rotation, the
    only field the layer touches. *)
Record Bones : Type := mkBones {
  head : option Euler;
  tailBone : option Euler;
  earLeft : option Euler;
  earRight : option Euler
}.

(** [this.boneBaselines], a Map with the keys 'head', 'tail', 'leftEar' and
    'rightEar'; [None] is a key that is not in the map. *)
Record Baselines : Type := mkBaselines {
  baseHead : option Euler;
  baseTail : option Euler;
  baseLeftEar : option Euler;
  baseRightEar : option Euler
}.

Record TailParams : Type := mkTail {
  baseIntensity : R;
  currentIntensity : R;
  tailPhase : R;
  tailSpeed : R
}.

Record EarParams : Type := mkEars {
  leftPhase : R;
  rightPhase : R;
  twitchProbability : R
}.

Record BreathingParams : Type := mkBreathing {
  breathPhase : R;
  breathIntensity : R;
  breathRate : R
}.

(** A micro-gesture started in a tick; its later frames run from
    [requestAnimationFrame], outside the tick. *)
Inductive Gesture : Type :=
| TailFlick (flickIntensity : R) (baseRotation : Euler)
| EarTwitch (left : bool) (baseRotation : Euler).

(** The layer and the fields of the cat it reads and writes. *)
Record Layer : Type := mkLayer {
  time : R;
  boneBaselines : Baselines;
  originalModelScale : option R;
  tail : TailParams;
  ears : EarParams;
  breathing : BreathingParams;
  bones : Bones;
  mood : string;
  state : string;
  isTalking : bool;
  talkingIntensity : R;
  modelScale : option (R * R);                (* catModel.scale.x and .y *)
  animationManager : option Clips.Manager;
  gestures : list Gesture
}.

(** What one tick reads from outside: the results of [Math.random()] and the
    time [performance.now() - startTime] elapsed at the first frame of a
    gesture. *)
Record Draws : Type := mkDraws {
  flickDraw : R;             (* Math.random() < 0.005 *)
  flickIntensityDraw : R;    (* 0.3 + Math.random() * 0.2 *)
  flickElapsed : R;
  twitchDraw : R;            (* Math.random() < ears.twitchProbability *)
  earDraw : R;               (* Math.random() > 0.5 *)
  twitchElapsed : R
}.

(** The constructor; the three draws give the initial phases. *)
Definition constructor (r1 r2 r3 : R) (b : Bones) (catMood catState : string)
    (scale : option (R * R)) (mgr : option Clips.Manager) : Layer :=
  mkLayer 0 (mkBaselines None None None None) None
          (mkTail (2 / 10) (2 / 10) (r1 * PI * 2) 1)
          (mkEars (r2 * PI * 2) (r3 * PI * 2) (2 / 100))
          (mkBreathing 0 (1 / 100) 1)
          b catMood catState false 0 scale mgr [].

Definition set_bones (b : Bones) (l : Layer) : Layer :=
  mkLayer (time l) (boneBaselines l) (originalModelScale l) (tail l) (ears l)
          (breathing l) b (mood l) (state l) (isTalking l) (talkingIntensity l)
          (modelScale l) (animationManager l) (gestures l).

Definition set_tail (t : TailParams) (l : Layer) : Layer :=
  mkLayer (time l) (boneBaselines l) (originalModelScale l) t (ears l)
          (breathing l) (bones l) (mood l) (state l) (isTalking l)
          (talkingIntensity l) (modelScale l) (animationManager l) (gestures l).

Definition set_ears (e : EarParams) (l : Layer) : Layer :=
  mkLayer (time l) (boneBaselines l) (originalModelScale l) (tail l) e
          (breathing l) (bones l) (mood l) (state l) (isTalking l)
          (talkingIntensity l) (modelScale l) (animationManager l) (gestures l).

Definition add_gesture (g : Gesture) (l : Layer) : Layer :=
  mkLayer (time l) (boneBaselines l) (originalModelScale l) (tail l) (ears l)
          (breathing l) (bones l) (mood l) (state l) (isTalking l)
          (talkingIntensity l) (modelScale l) (animationManager l)
          (gestures l ++ [g]).

(** [rotation.copy(baseline)] when the bone exists and the key is in the map. *)
Definition restore (bone baseline : option Euler) : option Euler :=
  match bone, baseline with
  | Some _, Some b => Some b
  | _, _ => bone
  end.

(** [resetBaselines()] *)
Definition resetBaselines (l : Layer) : Layer :=
  let b := bones l in
  let c := boneBaselines l in
  set_bones (mkBones (restore (head b) (baseHead c))
                     (restore (tailBone b) (baseTail c))
                     (restore (earLeft b) (baseLeftEar c))
                     (restore (earRight b) (baseRightEar c))) l.

(** [boneBaselines.set(key, rotation.clone())] when the bone exists. *)
Definition snapshot (bone previous : option Euler) : option Euler :=
  match bone with
  | Some r => Some r
  | None => previous
  end.

(** [cacheBaselines()] *)
Definition cacheBaselines (l : Layer) : Layer :=
  let b := bones l in
  let c := boneBaselines l in
  mkLayer (time l)
          (mkBaselines (snapshot (head b) (baseHead c))
                       (snapshot (tailBone b) (baseTail c))
                       (snapshot (earLeft b) (baseLeftEar c))
                       (snapshot (earRight b) (baseRightEar c)))
          (originalModelScale l) (tail l) (ears l) (breathing l) (bones l)
          (mood l) (state l) (isTalking l) (talkingIntensity l) (modelScale l)
          (animationManager l) (gestures l).

(** [lerp(start, end, factor)] *)
Definition lerp (start finish factor : R) : R := start + (finish - start) * factor.

(** [boneBaselines.get(key) || new THREE.Euler()] *)
Definition baseline_or_zero (baseline : option Euler) : Euler :=
  match baseline with
  | Some b => b
  | None => Euler_zero
  end.

(** [Math.min(elapsed / duration, 1)] *)
Definition progress (elapsed duration : R) : R := Rmin (elapsed / duration) 1.

(** One frame of [animateFlick]: [tail.rotation.y = base.y + flickAmount].
    The sine is the sine of the reals and [PI] is the real number: the
    rounding of [Math.sin] and of [Math.PI] is not modelled, so the facts
    about a flick are bounds that hold with and without it, none of them an
    exact value of the sine. *)
Definition flick_frame (flickIntensity elapsed : R) (baseRotation : Euler)
    (b : Bones) : Bones :=
  match tailBone b with
  | Some r =>
      mkBones (head b)
              (Some (mkEuler (ex r)
                             (ey baseRotation
                              + sin (progress elapsed 150 * PI) * flickIntensity)
                             (ez r)))
              (earLeft b) (earRight b)
  | None => b
  end.

(** [performTailFlick()] up to the end of its first frame. *)
Definition performTailFlick (d : Draws) (l : Layer) : Layer :=
  match tailBone (bones l) with
  | None => l
  | Some _ =>
      let flickIntensity := 3 / 10 + flickIntensityDraw d * (2 / 10) in
      let baseRotation := baseline_or_zero (baseTail (boneBaselines l)) in
      let l1 := set_bones (flick_frame flickIntensity (flickElapsed d)
                                       baseRotation (bones l)) l in
      if Rlt_dec (progress (flickElapsed d) 150) 1
      then add_gesture (TailFlick flickIntensity baseRotation) l1
      else l1
  end.

(** One frame of [animateTwitch]: [earBone.rotation.x = base.x + twitchOffset]. *)
Definition twitch_rotation (elapsed : R) (baseRotation r : Euler) : Euler :=
  mkEuler (ex baseRotation + sin (progress elapsed 120 * PI) * (2 / 10))
          (ey r) (ez r).

(** [performEarTwitch(earBone, baselineKey)] up to the end of its first frame;
    the caller has checked that both ears exist. *)
Definition performEarTwitch (left : bool) (d : Draws) (l : Layer) : Layer :=
  let b := bones l in
  let baseRotation :=
    baseline_or_zero (if left then baseLeftEar (boneBaselines l)
                      else baseRightEar (boneBaselines l)) in
  let twitch := option_map (twitch_rotation (twitchElapsed d) baseRotation) in
  let l1 := set_bones (if left
                       then mkBones (head b) (tailBone b) (twitch (earLeft b)) (earRight b)
                       else mkBones (head b) (tailBone b) (earLeft b) (twitch (earRight b)))
                      l in
  if Rlt_dec (progress (twitchElapsed d) 120) 1
  then add_gesture (EarTwitch left baseRotation) l1
  else l1.

(** The [switch (this.cat.mood)] of [applyTailMotion]: the intensity the tail
    glides to, the rate of the glide per second, and the speed. *)
Definition tail_target (catMood : string) (t : TailParams) : R * R * R :=
  if String.eqb catMood "happy" then (4 / 10, 2, 2)
  else if String.eqb catMood "excited" then (6 / 10, 3, 3)
  else if String.eqb catMood "curious" then (3 / 10, 15 / 10, 15 / 10)
  else if String.eqb catMood "sleepy" then (1 / 10, 1, 5 / 10)
  else (baseIntensity t, 1, 1).

(** [applyTailMotion(delta)] *)
Definition applyTailMotion (delta : R) (d : Draws) (l : Layer) : Layer :=
  match tailBone (bones l) with
  | None => l
  | Some r =>
      let t := tail l in
      let '(target, rate, speed) := tail_target (mood l) t in
      let intensity := lerp (currentIntensity t) target (delta * rate) in
      let phase := tailPhase t + delta * speed in
      let baseRotation := baseline_or_zero (baseTail (boneBaselines l)) in
      let b := bones l in
      let l1 :=
        set_bones
          (mkBones (head b)
                   (Some (mkEuler (ex r)
                                  (ey baseRotation + sin phase * intensity)
                                  (ez baseRotation
                                   + cos (phase * (7 / 10)) * intensity * (5 / 10))))
                   (earLeft b) (earRight b))
          (set_tail (mkTail (baseIntensity t) intensity phase speed) l) in
      if Rlt_dec (flickDraw d) (5 / 1000) then performTailFlick d l1 else l1
  end.

(** [applyEarMotions(delta)] *)
Definition applyEarMotions (delta : R) (d : Draws) (l : Layer) : Layer :=
  match earLeft (bones l), earRight (bones l) with
  | Some _, Some _ =>
      let l1 :=
        if Rlt_dec (twitchDraw d) (twitchProbability (ears l))
        then performEarTwitch (if Rgt_dec (earDraw d) (5 / 10) then true else false) d l
        else l in
      if String.eqb (mood l1) "curious" then
        let e := ears l1 in
        let lp := leftPhase e + delta * 2 in
        let rp := rightPhase e + delta * (17 / 10) in
        let baseLeft := baseline_or_zero (baseLeftEar (boneBaselines l1)) in
        let baseRight := baseline_or_zero (baseRightEar (boneBaselines l1)) in
        let b := bones l1 in
        let sway base phase r :=
          mkEuler (ex base + sin phase * (5 / 100)) (ey r) (ez r) in
        set_bones (mkBones (head b) (tailBone b)
                           (option_map (sway baseLeft lp) (earLeft b))
                           (option_map (sway baseRight rp) (earRight b)))
                  (set_ears (mkEars lp rp (twitchProbability e)) l1)
      else l1
  | _, _ => l
  end.

(** [applyBreathing(delta)]; [!this.originalModelScale] holds for null and 0. *)
Definition applyBreathing (delta : R) (l : Layer) : Layer :=
  match modelScale l with
  | None => l
  | Some (sx, sy) =>
      let asleep := String.eqb (state l) "sleep" in
      let breathingRate := if asleep then 3 / 10 else 1 in
      let breathingIntensity := if asleep then 2 / 100 else 1 / 100 in
      let br := breathing l in
      let phase := breathPhase br + breathingRate * (5 / 100) in
      let breathScale := 1 + sin phase * breathingIntensity in
      let original :=
        match originalModelScale l with
        | Some s => if Req_dec_T s 0 then sx else s
        | None => sx
        end in
      mkLayer (time l) (boneBaselines l) (Some original) (tail l) (ears l)
              (mkBreathing phase (breathIntensity br) (breathRate br))
              (bones l) (mood l) (state l) (isTalking l) (talkingIntensity l)
              (Some (sx, original * breathScale)) (animationManager l) (gestures l)
  end.

(** [applyTalkingBehavior(delta)] *)
Definition applyTalkingBehavior (delta : R) (l : Layer) : Layer :=
  match isTalking l, head (bones l) with
  | true, Some r =>
      let bobAmount := talkingIntensity l * (8 / 100) in
      let bobSpeed := 8 in
      let baseHead := baseline_or_zero (baseHead (boneBaselines l)) in
      let b := bones l in
      set_bones (mkBones (Some (mkEuler (ex baseHead + sin (time l * bobSpeed) * bobAmount)
                                        (ey r) (ez r)))
                         (tailBone b) (earLeft b) (earRight b)) l
  | _, _ => l
  end.

(** [speedMap[this.cat.mood] || 1.0] *)
Definition speedMap (catMood : string) : Q :=
  (if String.eqb catMood "excited" then 13 # 10
   else if String.eqb catMood "sleepy" then 7 # 10
   else if String.eqb catMood "curious" then 11 # 10
   else if String.eqb catMood "neutral" then 1
   else if String.eqb catMood "happy" then 11 # 10
   else 1)%Q.

(** [applyMoodInfluences(delta)] *)
Definition applyMoodInfluences (delta : R) (l : Layer) : Layer :=
  match animationManager l with
  | Some mgr =>
      mkLayer (time l) (boneBaselines l) (originalModelScale l) (tail l) (ears l)
              (breathing l) (bones l) (mood l) (state l) (isTalking l)
              (talkingIntensity l) (modelScale l)
              (Some (Clips.setSpeed (speedMap (mood l)) mgr)) (gestures l)
  | None => l
  end.

(** [update(delta)], one tick. *)
Definition update (delta : R) (d : Draws) (l : Layer) : Layer :=
  let l0 :=
    mkLayer (time l + delta) (boneBaselines l) (originalModelScale l) (tail l)
            (ears l) (breathing l) (bones l) (mood l) (state l) (isTalking l)
            (talkingIntensity l) (modelScale l) (animationManager l) (gestures l) in
  applyMoodInfluences delta
    (applyTalkingBehavior delta
       (applyBreathing delta
          (applyEarMotions delta d
             (applyTailMotion delta d
                (resetBaselines l0))))).

(** Every bone that exists has its baseline in the map. *)
Definition baselines_cover (l : Layer) : Prop :=
  (head (bones l) <> None -> baseHead (boneBaselines l) <> None)
  /\ (tailBone (bones l) <> None -> baseTail (boneBaselines l) <> None)
  /\ (earLeft (bones l) <> None -> baseLeftEar (boneBaselines l) <> None)
  /\ (earRight (bones l) <> None -> baseRightEar (boneBaselines l) <> None).

(** Two skeletons with the same bones, whatever their rotations. *)
Definition same_skeleton (b b' : Bones) : Prop :=
  (head b = None <-> head b' = None)
  /\ (tailBone b = None <-> tailBone b' = None)
  /\ (earLeft b = None <-> earLeft b' = None)
  /\ (earRight b = None <-> earRight b' = None).

(** Which bones exist. *)
Definition present (bone : option Euler) : bool :=
  match bone with
  | Some _ => true
  | None => false
  end.

Definition shape (b : Bones) : bool * bool * bool * bool :=
  (present (head b), present (tailBone b), present (earLeft b), present (earRight b)).

(** Draws under which no micro-gesture starts. *)
Definition quiet : Draws := mkDraws (1 / 2) (1 / 2) 0 (1 / 2) (1 / 2) 0.

(** A neutral, silent cat with a tail at rest, right after construction with
    initial tail phase 0, and after [cacheBaselines]. *)
Definition resting_cat : Layer :=
  cacheBaselines
    (constructor 0 0 0
       (mkBones (Some Euler_zero) (Some Euler_zero) (Some Euler_zero) (Some Euler_zero))
       "neutral" "idle" None None).

(** The bones of the resting cat turned away from their baselines. *)
Definition turned : Bones :=
  mkBones (Some (mkEuler 1 2 3)) (Some (mkEuler 1 2 3))
          (Some (mkEuler 1 2 3)) (Some (mkEuler 1 2 3)).

End Procedural.

(** ** The manager over time *)

Module ClipsOps.
Import Clips.
Local Open Scope string_scope.
Local Open Scope list_scope.

(** What can happen to a manager: a call of one of its methods, one of its
    timers firing, the mixer reporting a finished action. *)
Inductive Op : Type :=
| OpPlay (name : string) (fade : Q) (loop : bool)
| OpFadeToIdle (fade : Q)
| OpStop (fade : Q)
| OpSetSpeed (speed : Q)
| OpTimer (n : nat)
| OpFinished (a : ActionId).

Definition apply_op (o : Op) (m : Manager) : Manager :=
  match o with
  | OpPlay name fade loop => snd (playAction name fade loop m)
  | OpFadeToIdle fade => snd (fadeToIdle fade m)
  | OpStop fade => stopAction fade m
  | OpSetSpeed speed => setSpeed speed m
  | OpTimer n => fire_timer n m
  | OpFinished a => mixer_finished a m
  end.

Definition apply_ops (ops : list Op) (m : Manager) : Manager :=
  fold_left (fun acc o => apply_op o acc) ops m.

Definition is_transition_done (t : Callback * Q) : bool :=
  match fst t with
  | TransitionDone => true
  | FadeToIdleLater => false
  end.

(** The timers that will clear [isTransitioning]. *)
Definition transition_timers (m : Manager) : nat :=
  List.length (filter is_transition_done (timers m)).

(** A call of [playAction] that starts a transition: no cross-fade is in
    progress, the clip exists and is not the active one. *)
Definition accepted (name : string) (m : Manager) (a : ActionId) : Prop :=
  isTransitioning m = false
  /\ lookup name (animations m) = Some a
  /\ activeAction m <> Some a.

(** The names of the members that a plain object inherits from
    [Object.prototype].  For these [this.animations[name]] is a function or
    an object even when the table has no such clip: [playAction] then raises
    the flag and throws at [nextAction.reset()], before any timer is set. *)
Definition inherited_member (name : string) : bool :=
  existsb (String.eqb name)
    ["constructor"; "__proto__"; "hasOwnProperty"; "isPrototypeOf";
     "propertyIsEnumerable"; "toLocaleString"; "toString"; "valueOf";
     "__defineGetter__"; "__defineSetter__"; "__lookupGetter__";
     "__lookupSetter__"].

(** An operation for which [Clips.lookup] is [this.animations[name]]: no
    request for an inherited member that is not also a clip of the table. *)
Definition in_model (anims : list (string * ActionId)) (o : Op) : Prop :=
  match o with
  | OpPlay name _ _ =>
      lookup name anims <> None \/ inherited_member name = false
  | _ => True
  end.

(** A walk clip is played, its fade ends, a one-shot jump follows. *)
Definition walk_then_jump : list Op :=
  [OpPlay "walk" (3 # 10) true; OpTimer 0; OpPlay "jump" (1 # 10) false].

(** The flag is up exactly while one timer that lowers it is waiting. *)
Definition flag_has_timer (m : Manager) : Prop :=
  transition_timers m = if isTransitioning m then 1%nat else 0%nat.

End ClipsOps.

(** ** SmoothMotionController.moveToPosition (script.js 160-209) *)

Module Motion.
Local Open Scope list_scope.

Definition Vector3 : Type := Q * Q * Q.

(** [Math.min(a, b)] *)
Definition Math_min (a b : Q) : Q := if Qle_bool a b then a else b.

(** [v.lerpVectors(v1, v2, alpha)]: three.js sets each coordinate to
    [v1 + (v2 - v1) * alpha].  The coordinates are rationals here, the
    rounding of the doubles is not modelled: the facts below say which call
    of [lerpVectors] produced a position, not how close to the target its
    coordinates are. *)
Definition lerpVectors (v1 v2 : Vector3) (alpha : Q) : Vector3 :=
  let '(x1, y1, z1) := v1 in
  let '(x2, y2, z2) := v2 in
  (x1 + (x2 - x1) * alpha, y1 + (y2 - y1) * alpha, z1 + (z2 - z1) * alpha).

(** [t * t * (3 - 2 * t)] *)
Definition smoothstep (t : Q) : Q := t * t * (3 - 2 * t).

(** The variables captured by the closure [animate]. *)
Record Tween : Type := mkTween {
  startPosition : Vector3;
  targetPosition : Vector3;
  duration : Q;
  elapsed : Q
}.

Record Mover : Type := mkMover {
  position : Vector3;          (* this.object.position *)
  isMoving : bool;
  tween : option Tween;        (* [animate] waiting in requestAnimationFrame *)
  completions : nat            (* calls of [onComplete] and [resolve] so far *)
}.

(** One call of [animate]; [delta] is what [clock.getDelta()] returns. *)
Definition animate (delta : Q) (m : Mover) : Mover :=
  match tween m with
  | None => m
  | Some tw =>
      let elapsed' := elapsed tw + delta in
      let t := Math_min (elapsed' / duration tw) 1 in
      let eased := smoothstep t in
      let p := lerpVectors (startPosition tw) (targetPosition tw) eased in
      if Qltb t 1
      then mkMover p (isMoving m)
                   (Some (mkTween (startPosition tw) (targetPosition tw)
                                  (duration tw) elapsed'))
                   (completions m)
      else mkMover p false None (S (completions m))
  end.

(** [moveToPosition(targetPosition, duration, onComplete)]; its first call of
    [animate] reads 0 from the new clock. *)
Definition moveToPosition (target : Vector3) (dur : Q) (m : Mover) : Mover :=
  if isMoving m then m
  else animate 0 (mkMover (position m) true
                          (Some (mkTween (position m) target dur 0))
                          (completions m)).

(** The frames that follow, one [delta] each. *)
Definition frames (deltas : list Q) (m : Mover) : Mover :=
  fold_left (fun acc delta => animate delta acc) deltas m.

(** The time the frames have added. *)
Definition total (deltas : list Q) (start : Q) : Q :=
  fold_left Qplus deltas start.

(** An object at rest at the origin. *)
Definition at_rest : Mover := mkMover (0, 0, 0) false None 0.

End Motion.

(** ** The scheduler and its collaborators *)

Module SchedulerMore.
Import Scheduler.
Local Open Scope list_scope.




(** The size of a descriptor, sub-actions included. *)
Fixpoint size (a : Action) : nat :=
  match a with
  | Composite _ subs => 3 + list_sum (map size subs)
  | _ => 3
  end.

Definition sizes (l : list Action) : nat := list_sum (map size l).

(** The microtasks a reaction can still cause. *)
Fixpoint weight (k : Cont) : nat :=
  match k with
  | KDone | KCaller _ | KJoin _ _ => 1
  | KFinally _ _ k' => 2 + weight k'
  | KSeq _ rest k' => 1 + sizes rest + weight k'
  end.

Definition weights (l : list Cont) : nat := list_sum (map weight l).

(** A bound on the microtasks that can run before the queue of microtasks is
    empty: what is ready, what waits in the action queue, and the reactions of
    the [Promise.all]s. *)
Definition potential (w : World) : nat :=
  weights (micro w) + sizes (actionQueue w)
  + weights (map (fun j => snd j) (joins w)).

End SchedulerMore.
(** ** BehaviorStateMachine.update and its handlers (script.js 828-855, 895-941),
    with the idle behaviours of the cat that they run (script.js 1152-1249) *)

Module BehaviorUpdate.
Import Behavior.
Local Open Scope string_scope.
Local Open Scope list_scope.

(** The entries of [enhancedBehaviors], named after the method each one calls. *)
Inductive IdleBehavior : Type :=
| QuickJump | ShortWalk | HeadTilt | EarTwitch | TailWag
| PawGrooming | Stretch | CuriousLook | Yawn | SitAndWatch
| PlayfulPounce | TailChase | NoseSniff.

(** The array built in [performRandomIdleBehavior], in its order. *)
Definition enhancedBehaviors : list IdleBehavior :=
  [QuickJump; ShortWalk; HeadTilt; EarTwitch; TailWag;
   PawGrooming; Stretch; CuriousLook; Yawn; SitAndWatch;
   PlayfulPounce; TailChase; NoseSniff].

(** How a call ends. *)
Inductive Completion : Type :=
| Returns
| Throws.

(** The state machine with the further fields of the cat, its context
    controller and its motion controller that [update] reads and writes.
    [performed] lists the idle behaviours whose body has run, oldest first:
    what a body does to bones, to the scale of the model, to the procedural
    layer and to timers is on the scene side and is summed up by that entry. *)
Record Cat : Type := mkCat {
  machine : Machine;
  lastInteractionTime : Q;
  sleepTransitionTime : Q;
  isTalking : bool;
  idleBehaviorInterval : Q;
  isPerformingContextualAction : bool;   (* contextController?.isPerformingContextualAction *)
  isMoving : bool;                       (* motionController.isMoving *)
  isRotating : bool;                     (* motionController.isRotating *)
  catModel : bool;                       (* whether [this.catModel] is set *)
  performed : list IdleBehavior
}.

Definition set_machine (m : Machine) (c : Cat) : Cat :=
  mkCat m (lastInteractionTime c) (sleepTransitionTime c) (isTalking c)
        (idleBehaviorInterval c) (isPerformingContextualAction c)
        (isMoving c) (isRotating c) (catModel c) (performed c).

Definition set_isMoving (b : bool) (c : Cat) : Cat :=
  mkCat (machine c) (lastInteractionTime c) (sleepTransitionTime c) (isTalking c)
        (idleBehaviorInterval c) (isPerformingContextualAction c)
        b (isRotating c) (catModel c) (performed c).

Definition did (b : IdleBehavior) (c : Cat) : Cat :=
  mkCat (machine c) (lastInteractionTime c) (sleepTransitionTime c) (isTalking c)
        (idleBehaviorInterval c) (isPerformingContextualAction c)
        (isMoving c) (isRotating c) (catModel c) (performed c ++ [b]).

(** [cat.exitSleepMode()] (script.js 1646-1655): the clip runs at full speed
    again; the rest acts on the scene. *)
Definition exitSleepMode (m : Machine) : Machine :=
  call_cat ExitSleepMode
    (set_manager (Clips.setSpeed 1 (animationManager m)) m).

(** What one call of [update()] reads from outside.  [performance.now()] is
    read in [update] ([t0]), in the handler ([t1]), in [changeState] where it
    writes the start time ([t2]) and at the end of [handleIdleState] ([t3]).
    [pick] is the draw of [Math.random()] with which
    [performRandomIdleBehavior] chooses; the draw for the new interval is the
    argument [r] of [update].  The further draws of a behaviour only set the
    delays of its timers and the size of its bone movements. *)
Record Clock : Type := mkClock { t0 : Q; t1 : Q; t2 : Q; t3 : Q; pick : Q }.

(** [cat.playAnimation(name, fadeDuration, loop)] (script.js 1152-1176): the
    call of [playAction]; the timers it sets fire after [update] has ended. *)
Definition playAnimation (name : string) (fadeDuration : Q) (loop : bool)
    (c : Cat) : Cat :=
  set_machine
    (set_manager
       (snd (Clips.playAction name fadeDuration loop (animationManager (machine c))))
       (machine c))
    c.

(** [cat.changeState(newState)] (script.js 1180-1191) for a state other than
    idle, as the idle behaviours call it: the state machine changes state
    with the payload [{}]; [stopEnhancedIdleBehaviors] finds no
    [idleBehaviorTimer], a field that is never assigned, and does nothing. *)
Definition Cat_changeState (newState : string) (now : Q) (c : Cat) : Cat :=
  set_machine (changeState newState [] now (machine c)) c.

(** The body of one idle behaviour, up to the end of the call that starts it.
    The frame of its own animation that a behaviour runs inside this call
    reads [Date.now()] right after the start time was taken; as that frame
    is less than the duration of the animation (one second or more) after
    the start, it moves bones and asks for the next frame, nothing else.
    [performQuickJump] is not defined anywhere: calling it throws. *)
Definition perform (b : IdleBehavior) (k : Clock) (c : Cat) : Completion * Cat :=
  match b with
  | QuickJump => (Throws, c)
  | ShortWalk => (Returns, playAnimation "walk" (3 # 10) true (did b c))
  | HeadTilt => (Returns, did b c)
  | EarTwitch => (Returns, did b c)
  | TailWag => (Returns, did b c)
  | PawGrooming =>
      (Returns, Cat_changeState "curious" (t2 k)
                  (playAnimation "paw_attack" (3 # 10) false (did b c)))
  | Stretch =>
      (Returns, Cat_changeState "curious" (t2 k)
                  (playAnimation "idle" (2 # 10) true (did b c)))
  | CuriousLook => (Returns, Cat_changeState "curious" (t2 k) (did b c))
  | Yawn =>
      let c1 := playAnimation "bite" (2 # 10) false (did b c) in
      (Returns, set_machine (set_mood "sleepy" (machine c1)) c1)
  | SitAndWatch =>
      (Returns, Cat_changeState "curious" (t2 k)
                  (playAnimation "idle" (1 # 2) true (did b c)))
  | PlayfulPounce =>
      let c1 := Cat_changeState "playful" (t2 k)
                  (playAnimation "jump" (2 # 10) false (did b c)) in
      (* [motionController.moveToPosition(targetPos, 800)] *)
      (Returns, if catModel c1 then set_isMoving true c1 else c1)
  | TailChase => (Returns, Cat_changeState "playful" (t2 k) (did b c))
  | NoseSniff => (Returns, Cat_changeState "curious" (t2 k) (did b c))
  end.

(** The guard of [performRandomIdleBehavior]. *)
Definition busy (c : Cat) : bool :=
  isPerformingContextualAction c || isMoving c || isRotating c.

(** [enhancedBehaviors[Math.floor(Math.random() * enhancedBehaviors.length)]];
    [None] is [undefined]. *)
Definition drawn (k : Clock) : option IdleBehavior :=
  let i := Qfloor (pick k * 13) in
  if (i <? 0)%Z then None else nth_error enhancedBehaviors (Z.to_nat i).

(** [cat.performRandomIdleBehavior()] (script.js 1220-1249); calling
    [undefined] throws. *)
Definition performRandomIdleBehavior (k : Clock) (c : Cat) : Completion * Cat :=
  if busy c then (Returns, c)
  else
    match drawn k with
    | Some randomBehavior => perform randomBehavior k c
    | None => (Throws, c)
    end.

(** The two assignments that end [handleIdleState]. *)
Definition restart (interval now : Q) (c : Cat) : Cat :=
  let m := machine c in
  mkCat (mkMachine (currentState m) (previousState m) now (stateData m)
                   (mood m) (animationManager m) (catCalls m))
        (lastInteractionTime c) (sleepTransitionTime c) (isTalking c)
        interval (isPerformingContextualAction c)
        (isMoving c) (isRotating c) (catModel c) (performed c).

(** [handleIdleState(elapsed)]; [r] is the draw of [Math.random()] for the
    new interval.  When the behaviour throws, the two assignments after it
    are not reached. *)
Definition handleIdleState (elapsed : Q) (k : Clock) (r : Q) (c : Cat)
  : Completion * Cat :=
  let timeSinceInteraction := t1 k - lastInteractionTime c in
  if Qgtb timeSinceInteraction (sleepTransitionTime c) && negb (isTalking c) then
    (Returns, set_machine (changeState "sleep" [] (t2 k) (machine c)) c)
  else if Qgtb elapsed (idleBehaviorInterval c) then
    match performRandomIdleBehavior k c with
    | (Throws, c1) => (Throws, c1)
    | (Returns, c1) => (Returns, restart (10000 + r * 10000) (t3 k) c1)
    end
  else (Returns, c).

Definition handlePlayfulState (elapsed : Q) (k : Clock) (c : Cat) : Cat :=
  if Qgtb elapsed 3000 then
    set_machine (changeState "idle" [] (t2 k) (machine c)) c
  else c.

Definition handleCuriousState (elapsed : Q) (k : Clock) (c : Cat) : Cat :=
  if Qgtb elapsed 4000 then
    set_machine (changeState "idle" [] (t2 k) (machine c)) c
  else c.

Definition handleTalkingState (elapsed : Q) (k : Clock) (c : Cat) : Cat :=
  if negb (isTalking c) then
    set_machine (changeState "idle" [] (t2 k) (machine c)) c
  else c.

Definition handleSleepState (elapsed : Q) (k : Clock) (c : Cat) : Cat :=
  let timeSinceInteraction := t1 k - lastInteractionTime c in
  if Qltb timeSinceInteraction 5000 then
    set_machine (changeState "playful" [] (t2 k) (exitSleepMode (machine c))) c
  else c.

Definition handleProcessingState (elapsed : Q) (c : Cat) : Cat := c.
Definition handleListeningState (elapsed : Q) (c : Cat) : Cat := c.

(** [update()], with the way the call ends. *)
Definition update_outcome (k : Clock) (r : Q) (c : Cat) : Completion * Cat :=
  let elapsed := t0 k - stateStartTime (machine c) in
  let s := currentState (machine c) in
  if String.eqb s "idle" then handleIdleState elapsed k r c
  else if String.eqb s "playful" then (Returns, handlePlayfulState elapsed k c)
  else if String.eqb s "curious" then (Returns, handleCuriousState elapsed k c)
  else if String.eqb s "talking" then (Returns, handleTalkingState elapsed k c)
  else if String.eqb s "sleep" then (Returns, handleSleepState elapsed k c)
  else if String.eqb s "processing" then (Returns, handleProcessingState elapsed c)
  else if String.eqb s "listening" then (Returns, handleListeningState elapsed c)
  else (Returns, c).

(** The cat after one call of [update()], whether the call returned or threw. *)
Definition update (k : Clock) (r : Q) (c : Cat) : Cat :=
  snd (update_outcome k r c).

(** The transitions that one call of [update] can make. *)
Definition edge (a b : string) : bool :=
  (String.eqb a "idle" && String.eqb b "sleep")
  || (String.eqb a "idle" && String.eqb b "curious")
  || (String.eqb a "idle" && String.eqb b "playful")
  || (String.eqb a "playful" && String.eqb b "idle")
  || (String.eqb a "curious" && String.eqb b "idle")
  || (String.eqb a "talking" && String.eqb b "idle")
  || (String.eqb a "sleep" && String.eqb b "playful").

(** The state in which an idle behaviour leaves a machine that was idle. *)
Definition entered (b : IdleBehavior) : string :=
  match b with
  | PawGrooming | Stretch | CuriousLook | SitAndWatch | NoseSniff => "curious"
  | PlayfulPounce | TailChase => "playful"
  | _ => "idle"
  end.

(** The fields of the cat that no idle behaviour writes. *)
Definition same_settings (c c1 : Cat) : Prop :=
  lastInteractionTime c1 = lastInteractionTime c
  /\ sleepTransitionTime c1 = sleepTransitionTime c
  /\ isTalking c1 = isTalking c
  /\ idleBehaviorInterval c1 = idleBehaviorInterval c.

(** The seven states that [update] and [onStateEnter] name. *)
Definition known_state (s : string) : bool :=
  existsb (String.eqb s)
    ["idle"; "playful"; "curious"; "talking"; "sleep"; "processing"; "listening"].

(** A cat as the constructor and [initializeLayeredAnimationSystem] leave it
    (script.js 955-990, 1121-1147) once the model has loaded, with its state
    machine built at clock reading [now] and [last] stored as the time of the
    last interaction; [r] is the constructor's draw for the idle interval. *)
Definition new_cat (now last r : Q) : Cat :=
  mkCat (constructor now "neutral" Clips.idle_settled) last 60000 false
        (10000 + r * 10000) false false false true [].

(** A clock that reads the same time each time; its draw is 0. *)
Definition at_time (t : Q) : Clock := mkClock t t t t 0.

(** A clock that reads the same time each time, with the draw [p]. *)
Definition at_time_drawing (t p : Q) : Clock := mkClock t t t t p.

(** A cat made playful at time 1000. *)
Definition playful_cat : Cat :=
  set_machine (changeState "playful" [] 1000 (machine (new_cat 0 0 (1 # 2))))
              (new_cat 0 0 (1 # 2)).

(** A cat made curious at time 1000. *)
Definition curious_cat : Cat :=
  set_machine (changeState "curious" [] 1000 (machine (new_cat 0 0 (1 # 2))))
              (new_cat 0 0 (1 # 2)).

(** A cat whose machine was sent to talking at time 1000 and that is not
    talking any more. *)
Definition silent_talker : Cat :=
  set_machine (changeState "talking" [] 1000 (machine (new_cat 0 0 (1 # 2))))
              (new_cat 0 0 (1 # 2)).

(** The new cat after its first [update] past one minute of silence. *)
Definition sleeping_cat : Cat :=
  update (at_time 60001) 0 (new_cat 0 0 (1 # 2)).

(** An interaction recorded at clock reading [t], on the machine's clock. *)
Definition touched (t : Q) (c : Cat) : Cat :=
  mkCat (machine c) t (sleepTransitionTime c) (isTalking c)
        (idleBehaviorInterval c) (isPerformingContextualAction c)
        (isMoving c) (isRotating c) (catModel c) (performed c).

End BehaviorUpdate.

(** ** Runs of ticks of the procedural layer *)

Module ProceduralRuns.
Import Procedural.
Local Open Scope string_scope.
Local Open Scope list_scope.
Local Open Scope R_scope.

(** One call of [update] with its frame time and its draws. *)
Definition tick (l : Layer) (p : R * Draws) : Layer :=
  update (fst p) (snd p) l.

(** Successive calls of [update]. *)
Definition ticks (run : list (R * Draws)) (l : Layer) : Layer :=
  fold_left tick run l.

(** What [applyBreathing] reads and writes. *)
Definition breath_view (l : Layer)
    : option (R * R) * option R * BreathingParams * string :=
  (modelScale l, originalModelScale l, breathing l, state l).

(** What [applyTalkingBehavior] reads besides the head bone. *)
Definition talk_view (l : Layer) : bool * R * R * option Euler :=
  (isTalking l, talkingIntensity l, time l, baseHead (boneBaselines l)).

(** A model of scale [sx] on x whose original scale is not yet captured, or
    is captured as [sx]. *)
Definition breathes_from (sx : R) (l : Layer) : Prop :=
  (exists sy, modelScale l = Some (sx, sy))
  /\ (originalModelScale l = None \/ originalModelScale l = Some sx).

(** A skeleton without any of the four bones. *)
Definition no_bones : Bones := mkBones None None None None.

(** The resting cat with a model of scale 2 that another part of the program
    has stretched to 5 on y. *)
Definition stretched_cat : Layer :=
  mkLayer (time resting_cat) (boneBaselines resting_cat) None (tail resting_cat)
          (ears resting_cat) (breathing resting_cat) (bones resting_cat)
          (mood resting_cat) (state resting_cat) (isTalking resting_cat)
          (talkingIntensity resting_cat) (Some (2, 5)) None (gestures resting_cat).

(** The resting cat in a happy mood. *)
Definition happy_cat : Layer :=
  mkLayer (time resting_cat) (boneBaselines resting_cat)
          (originalModelScale resting_cat) (tail resting_cat)
          (ears resting_cat) (breathing resting_cat) (bones resting_cat)
          "happy" (state resting_cat) (isTalking resting_cat)
          (talkingIntensity resting_cat) (modelScale resting_cat)
          (animationManager resting_cat) (gestures resting_cat).

(** One call of [animateFlick] at [elapsed] ms after the start: the frame, and
    whether it asks [requestAnimationFrame] for another call. *)
Definition animateFlick (flickIntensity : R) (baseRotation : Euler)
    (elapsed : R) (b : Bones) : Bones * bool :=
  (flick_frame flickIntensity elapsed baseRotation b,
   if Rlt_dec (progress elapsed 150) 1 then true else false).

(** The calls of [animateFlick] that the browser makes after the first, one
    for each reading [elapsed] in [frames], as long as the call before has
    asked for one. *)
Fixpoint flick_run (flickIntensity : R) (baseRotation : Euler)
    (frames : list R) (b : Bones) : Bones * bool :=
  match frames with
  | [] => (b, true)
  | elapsed :: rest =>
      let (b1, again) := animateFlick flickIntensity baseRotation elapsed b in
      if again then flick_run flickIntensity baseRotation rest b1
      else (b1, false)
  end.

(** The tail bone is at [(x, y, z)] with y at most one half above [base]. *)
Definition tail_bumped (x z base : R) (b : Bones) : Prop :=
  exists y, tailBone b = Some (mkEuler x y z) /\ base <= y <= base + 1 / 2.

(** Draws under which a tail flick starts, its first frame right at the
    start. *)
Definition prompt_flick : Draws := mkDraws 0 (1 / 2) 0 (1 / 2) (1 / 2) 0.

(** The resting cat while it talks at full intensity. *)
Definition talking_cat : Layer :=
  mkLayer (time resting_cat) (boneBaselines resting_cat)
          (originalModelScale resting_cat) (tail resting_cat)
          (ears resting_cat) (breathing resting_cat) turned
          (mood resting_cat) (state resting_cat) true 1
          (modelScale resting_cat) (animationManager resting_cat)
          (gestures resting_cat).

(** A cat without skeleton, model and animation manager. *)
Definition bare_cat : Layer :=
  constructor 0 0 0 no_bones "neutral" "idle" None None.

End ProceduralRuns.

(** ** What the scheduler owes: the reactions that carry a composite on *)

Module Progress.
Import Scheduler.
Local Open Scope list_scope.

Definition Join : Type := (nat * list nat * Cont)%type.

Definition key (j : Join) : nat := fst (fst j).



(** An event that can be logged between the [finally] blocks, when the next
    call has number [n]: the start of a call numbered [n] or more, or an
    event that is no start and no end of a call. *)
Definition new_event (n : nat) (e : Event) : Prop :=
  match e with
  | Started id _ _ => (n <= id)%nat
  | Finished _ _ => False
  | _ => True
  end.





(** The first sub-action of a sequential composite and every sub-action of a
    parallel one start in the call of the composite. *)
Definition launched (L : list Event) : Prop :=
  (forall c p a subs,
     In (Started c p (Composite false (a :: subs))) L ->
     exists id, In (Started id (Some (Seq c 0)) a) L)
  /\ (forall c p subs i a,
        In (Started c p (Composite true subs)) L ->
        nth_error subs i = Some a ->
        exists id, In (Started id (Some (Par c i)) a) L).






(** From [w] to [w'] the log, the microtasks and the [Promise.all]s have
    only grown, by [t], [m] and [j]. *)
Definition adds (w w' : World) (t : list Event) (m : list Cont) (j : list Join)
  : Prop :=
  log w' = log w ++ t
  /\ micro w' = micro w ++ m
  /\ joins w' = joins w ++ j
  /\ (nextId w <= nextId w')%nat
  /\ Forall (new_event (nextId w)) t
  /\ Forall (fun x => (nextId w <= key x < nextId w')%nat) j.


End Progress.

(** ** The text that the Context Selector scores *)

Module ContextText.
Local Open Scope string_scope.



End ContextText.
(** * Theorems *)

(** ** Boolean comparisons reflect the order of [Q] *)

Lemma Qltb_true (a b : Q) : Qltb a b = true <-> a < b.
Proof.
  unfold Qltb. rewrite negb_true_iff.
  split; intro H.
  - apply Qnot_le_lt. intro Hle. apply Qle_bool_iff in Hle. congruence.
  - destruct (Qle_bool b a) eqn:E; [|reflexivity].
    apply Qle_bool_iff in E. exfalso. apply (Qlt_not_le _ _ H E).
Qed.

Lemma Qltb_false (a b : Q) : Qltb a b = false <-> b <= a.
Proof.
  unfold Qltb. rewrite negb_false_iff. apply Qle_bool_iff.
Qed.

Lemma Qgtb_true (a b : Q) : Qgtb a b = true <-> b < a.
Proof. unfold Qgtb. apply Qltb_true. Qed.

Lemma Qgtb_false (a b : Q) : Qgtb a b = false <-> a <= b.
Proof. unfold Qgtb. apply Qltb_false. Qed.

(** [ring] reads [inject_Z k] as a constant; abstract it first. *)
Ltac ring_Z :=
  repeat match goal with
         | |- context [inject_Z ?k] =>
             let q := fresh "q" in generalize (inject_Z k); intro q
         end;
  ring.


(** ** The rotation target of [rotateTo] *)

Module RotationFacts.
Import Rotation.

Lemma Math_PI_pos : 0 < Math_PI.
Proof. reflexivity. Qed.

Lemma same_direction_refl (a : Q) : same_direction a a.
Proof. exists 0%Z. change (inject_Z 0) with 0. ring. Qed.

Lemma same_direction_step_down (a r : Q) :
  same_direction (a - Math_PI * 2) r -> same_direction a r.
Proof.
  intros [k Hk]. exists (k - 1)%Z. rewrite Hk.
  unfold Z.sub. rewrite inject_Z_plus, inject_Z_opp.
  change (inject_Z 1) with 1. ring_Z.
Qed.

Lemma same_direction_step_up (a r : Q) :
  same_direction (a + Math_PI * 2) r -> same_direction a r.
Proof.
  intros [k Hk]. exists (k + 1)%Z. rewrite Hk.
  rewrite inject_Z_plus. change (inject_Z 1) with 1.
  ring_Z.
Qed.

Lemma same_direction_trans (a b c : Q) :
  same_direction a b -> same_direction b c -> same_direction a c.
Proof.
  intros [k Hk] [l Hl]. exists (k + l)%Z.
  rewrite Hl, Hk, inject_Z_plus. ring_Z.
Qed.

Lemma inject_Z_S (n : nat) : inject_Z (Z.of_nat (S n)) == inject_Z (Z.of_nat n) + 1.
Proof. rewrite Nat2Z.inj_succ. unfold Z.succ. rewrite inject_Z_plus. reflexivity. Qed.

(** The first loop leaves with an angle at most PI, untouched when it already
    was, and above -PI when the loop ran. *)
Lemma wrap_down_spec (n : nat) : forall a : Q,
  a <= Math_PI + inject_Z (Z.of_nat n) * (Math_PI * 2) ->
  exists r, wrap_down (S n) a = Some r
    /\ r <= Math_PI
    /\ (a <= Math_PI -> r = a)
    /\ (Math_PI < a -> - Math_PI < r)
    /\ same_direction a r.
Proof.
  pose proof Math_PI_pos as Hpi.
  induction n as [|n IH]; intros a Ha.
  - assert (Hle : a <= Math_PI).
    { change (inject_Z (Z.of_nat 0)) with 0 in Ha. lra. }
    exists a. cbn [wrap_down].
    apply Qgtb_false in Hle. rewrite Hle.
    apply Qgtb_false in Hle.
    repeat split; auto using same_direction_refl. intro; lra.
  - change (wrap_down (S (S n)) a)
      with (if Qgtb a Math_PI then wrap_down (S n) (a - Math_PI * 2) else Some a).
    destruct (Qgtb a Math_PI) eqn:E.
    + apply Qgtb_true in E.
      destruct (IH (a - Math_PI * 2)) as (r & Hr & Hle & Hsame & Hgt & Hdir).
      { rewrite inject_Z_S in Ha. lra. }
      exists r. split; [exact Hr|]. split; [exact Hle|].
      split; [intro; lra|]. split.
      * intros _. destruct (Qlt_le_dec Math_PI (a - Math_PI * 2)) as [H|H].
        -- auto.
        -- rewrite (Hsame H). lra.
      * apply same_direction_step_down; exact Hdir.
    + apply Qgtb_false in E. exists a.
      repeat split; auto using same_direction_refl. intro; lra.
Qed.

(** The second loop leaves with an angle at least -PI, untouched when it
    already was, and below PI when the loop ran. *)
Lemma wrap_up_spec (n : nat) : forall a : Q,
  - Math_PI - inject_Z (Z.of_nat n) * (Math_PI * 2) <= a ->
  exists r, wrap_up (S n) a = Some r
    /\ - Math_PI <= r
    /\ (- Math_PI <= a -> r = a)
    /\ (a < - Math_PI -> r < Math_PI)
    /\ same_direction a r.
Proof.
  pose proof Math_PI_pos as Hpi.
  induction n as [|n IH]; intros a Ha.
  - assert (Hle : - Math_PI <= a).
    { change (inject_Z (Z.of_nat 0)) with 0 in Ha. lra. }
    exists a. cbn [wrap_up].
    apply Qltb_false in Hle. rewrite Hle.
    apply Qltb_false in Hle.
    repeat split; auto using same_direction_refl. intro; lra.
  - change (wrap_up (S (S n)) a)
      with (if Qltb a (- Math_PI) then wrap_up (S n) (a + Math_PI * 2) else Some a).
    destruct (Qltb a (- Math_PI)) eqn:E.
    + apply Qltb_true in E.
      destruct (IH (a + Math_PI * 2)) as (r & Hr & Hle & Hsame & Hgt & Hdir).
      { rewrite inject_Z_S in Ha. lra. }
      exists r. split; [exact Hr|]. split; [exact Hle|].
      split; [intro; lra|]. split.
      * intros _. destruct (Qlt_le_dec (a + Math_PI * 2) (- Math_PI)) as [H|H].
        -- auto.
        -- rewrite (Hsame H). lra.
      * apply same_direction_step_up; exact Hdir.
    + apply Qltb_false in E. exists a.
      repeat split; auto using same_direction_refl. intro; lra.
Qed.

(** More fuel never changes a result. *)
Lemma wrap_down_more_fuel (n : nat) : forall (a r : Q) (m : nat),
  wrap_down n a = Some r -> (n <= m)%nat -> wrap_down m a = Some r.
Proof.
  induction n as [|n IH]; intros a r m H Hm; [discriminate|].
  destruct m as [|m]; [lia|].
  cbn [wrap_down] in *.
  destruct (Qgtb a Math_PI); [apply IH; [exact H | lia] | exact H].
Qed.

Lemma wrap_up_more_fuel (n : nat) : forall (a r : Q) (m : nat),
  wrap_up n a = Some r -> (n <= m)%nat -> wrap_up m a = Some r.
Proof.
  induction n as [|n IH]; intros a r m H Hm; [discriminate|].
  destruct m as [|m]; [lia|].
  cbn [wrap_up] in *.
  destruct (Qltb a (- Math_PI)); [apply IH; [exact H | lia] | exact H].
Qed.

Lemma enough_fuel_bound (a : Q) :
  exists n, enough_fuel a = S n
    /\ Qabs a <= inject_Z (Z.of_nat n) * (Math_PI * 2).
Proof.
  pose proof Math_PI_pos as Hpi.
  unfold enough_fuel.
  set (x := Qabs a / (Math_PI * 2)).
  exists (Z.to_nat (Qceiling x)). split; [reflexivity|].
  assert (H2 : 0 < Math_PI * 2) by lra.
  assert (Hx : 0 <= x).
  { unfold x. apply Qle_shift_div_l; [exact H2|]. rewrite Qmult_0_l. apply Qabs_nonneg. }
  assert (Hc : x <= inject_Z (Qceiling x)) by apply Qle_ceiling.
  assert (Hz : (0 <= Qceiling x)%Z).
  { rewrite Zle_Qle. change (inject_Z 0) with 0. lra. }
  rewrite Z2Nat.id by exact Hz.
  assert (Ha : Qabs a == x * (Math_PI * 2)).
  { unfold x. field. lra. }
  rewrite Ha. apply Qmult_le_compat_r; [exact Hc | lra].
Qed.

(** [normalizeAngle] returns: with [enough_fuel] both loops leave, the result
    lies in the closed interval [-PI, PI] and differs from the input by whole
    turns. *)
Lemma normalizeAngle_returns (a : Q) (fuel : nat) :
  (enough_fuel a <= fuel)%nat ->
  exists r, normalizeAngle fuel a = Some r
    /\ - Math_PI <= r <= Math_PI
    /\ same_direction a r
    /\ (- Math_PI <= a <= Math_PI -> r = a).
Proof.
  pose proof Math_PI_pos as Hpi.
  intro Hfuel.
  destruct (enough_fuel_bound a) as (n & Hn & Habs).
  assert (Hup : a <= Qabs a) by apply Qle_Qabs.
  assert (Hlo : - Qabs a <= a).
  { rewrite <- (Qopp_involutive a) at 2. apply Qopp_le_compat.
    rewrite <- Qabs_opp. apply Qle_Qabs. }
  destruct (wrap_down_spec n a) as (r1 & Hr1 & Hle1 & Hsame1 & Hgt1 & Hdir1); [lra|].
  destruct (Qlt_le_dec Math_PI a) as [Hbig|Hsmall].
  - (* the first loop ran: its result is already above -PI *)
    specialize (Hgt1 Hbig).
    destruct (wrap_up_spec 0 r1) as (r2 & Hr2 & Hle2 & Hsame2 & _ & _).
    { change (inject_Z (Z.of_nat 0)) with 0. lra. }
    assert (r2 = r1) by (apply Hsame2; lra). subst r2.
    exists r1. unfold normalizeAngle.
    rewrite (wrap_down_more_fuel _ _ _ fuel Hr1) by lia.
    rewrite (wrap_up_more_fuel _ _ _ fuel Hr2) by lia.
    repeat split; auto; try lra.
  - rewrite (Hsame1 Hsmall) in *.
    destruct (wrap_up_spec n a) as (r2 & Hr2 & Hle2 & Hsame2 & Hlt2 & Hdir2); [lra|].
    exists r2. unfold normalizeAngle.
    rewrite (wrap_down_more_fuel _ _ _ fuel Hr1) by lia.
    rewrite (wrap_up_more_fuel _ _ _ fuel Hr2) by lia.
    split; [reflexivity|]. split; [|split; [exact Hdir2|]].
    + split; [exact Hle2|].
      destruct (Qlt_le_dec a (- Math_PI)) as [H|H].
      * apply Qlt_le_weak. auto.
      * rewrite (Hsame2 H). exact Hsmall.
    + intros [H _]. auto.
Qed.

(** The spec's representative lies in the half-open interval (-PI, PI]. *)
Lemma normalize_half_open_spec (a : Q) :
  - Math_PI < normalize_half_open a <= Math_PI
  /\ same_direction a (normalize_half_open a).
Proof.
  pose proof Math_PI_pos as Hpi.
  unfold normalize_half_open.
  set (x := (a - Math_PI) / (Math_PI * 2)).
  assert (Hx : a - Math_PI == x * (Math_PI * 2)) by (unfold x; field; lra).
  pose proof (Qle_ceiling x) as Hc.
  pose proof (Qceiling_lt x) as Hc'.
  unfold Z.sub in Hc'. rewrite inject_Z_plus, inject_Z_opp in Hc'.
  change (inject_Z 1) with 1 in Hc'.
  set (c := inject_Z (Qceiling x)) in *.
  assert (H1 : x * (Math_PI * 2) <= c * (Math_PI * 2))
    by (apply Qmult_le_compat_r; lra).
  assert (H2 : (c + - (1)) * (Math_PI * 2) < x * (Math_PI * 2))
    by (apply Qmult_lt_compat_r; lra).
  split; [split|].
  - lra.
  - lra.
  - exists (- Qceiling x)%Z. rewrite inject_Z_opp. fold c. ring.
Qed.

(** An angle has one representative in (-PI, PI]. *)
Lemma half_open_unique (a r r' : Q) :
  same_direction a r -> same_direction a r' ->
  - Math_PI < r <= Math_PI -> - Math_PI < r' <= Math_PI ->
  r == r'.
Proof.
  pose proof Math_PI_pos as Hpi.
  intros [k Hk] [l Hl] Hr Hr'.
  assert (Hd : r - r' == inject_Z (k - l) * (Math_PI * 2)).
  { unfold Z.sub. rewrite inject_Z_plus, inject_Z_opp, Hk, Hl. ring_Z. }
  assert (Hlt : inject_Z (k - l) * (Math_PI * 2) < 1 * (Math_PI * 2)) by lra.
  assert (Hgt : (- (1)) * (Math_PI * 2) < inject_Z (k - l) * (Math_PI * 2)) by lra.
  apply Qmult_lt_r in Hlt; [|lra].
  apply Qmult_lt_r in Hgt; [|lra].
  change 1 with (inject_Z 1) in Hlt. rewrite <- Zlt_Qlt in Hlt.
  change (- (1)) with (inject_Z (-1)) in Hgt. rewrite <- Zlt_Qlt in Hgt.
  assert (Hz : (k - l = 0)%Z) by lia.
  rewrite Hz in Hd. change (inject_Z 0) with 0 in Hd. lra.
Qed.

(** The constraint keeps an angle inside [minAngle, maxAngle] and moves an
    outside one to the bound on its side. *)
Lemma limitAngle_spec (a : Q) :
  minAngle <= limitAngle a <= maxAngle
  /\ (a < minAngle -> limitAngle a = minAngle)
  /\ (maxAngle < a -> limitAngle a = maxAngle)
  /\ (minAngle <= a <= maxAngle -> limitAngle a = a).
Proof.
  pose proof Math_PI_pos as Hpi.
  assert (Hmm : minAngle < maxAngle).
  { unfold minAngle, maxAngle.
    setoid_replace (- Math_PI / 2) with (- (Math_PI / 2)) by (field).
    assert (0 < Math_PI / 2) by (apply Qlt_shift_div_l; lra).
    assert (0 < Math_PI / 4) by (apply Qlt_shift_div_l; lra).
    lra. }
  unfold limitAngle.
  destruct (Qltb a minAngle) eqn:E1.
  - apply Qltb_true in E1.
    repeat split; try lra; auto; intro; lra.
  - apply Qltb_false in E1.
    destruct (Qgtb a maxAngle) eqn:E2.
    + apply Qgtb_true in E2.
      repeat split; try lra; auto; intro; lra.
    + apply Qgtb_false in E2.
      repeat split; try lra; auto; intro; lra.
Qed.

(** C1 (as amended).  For every requested yaw angle, [rotateTo] returns a
    target once both loops have enough fuel; the target is a rotation about
    the Y axis whose angle is the normalized request constrained to
    [-PI/2, PI/4]: it lies in that arc, and a normalized angle outside the arc
    is moved to the bound on its side.  The normalized request lies in the
    closed interval [-PI, PI]: it is the representative in (-PI, PI], except
    that a request the second loop brings to exactly -PI stays -PI. *)
Theorem rotateTo_target_in_arc (theta : Q) (extra : nat) :
  exists r,
    normalizeAngle (enough_fuel theta + extra) theta = Some r
    /\ rotateTo_target (enough_fuel theta + extra) theta
         = Some (mkAxisAngle (0, 1, 0) (limitAngle r))
    /\ - Math_PI <= r <= Math_PI
    /\ same_direction theta r
    /\ (r == - Math_PI \/ r == normalize_half_open theta)
    /\ minAngle <= limitAngle r <= maxAngle
    /\ (r < minAngle -> limitAngle r = minAngle)
    /\ (maxAngle < r -> limitAngle r = maxAngle)
    /\ (minAngle <= r <= maxAngle -> limitAngle r = r).
Proof.
  destruct (normalizeAngle_returns theta (enough_fuel theta + extra))
    as (r & Hr & Hrange & Hdir & _); [lia|].
  exists r. split; [exact Hr|].
  split; [unfold rotateTo_target; rewrite Hr; reflexivity|].
  split; [exact Hrange|]. split; [exact Hdir|].
  split.
  - destruct (Qlt_le_dec (- Math_PI) r) as [H|H].
    + right. destruct (normalize_half_open_spec theta) as [Hs Hd].
      apply (half_open_unique theta); auto. split; [exact H | apply Hrange].
    + left. apply Qle_antisym; [exact H | apply Hrange].
  - destruct (limitAngle_spec r) as (H1 & H2 & H3 & H4). auto.
Qed.

(** C1 (as stated) fails at theta = -PI: the loops leave -PI as it is, which
    is outside (-PI, PI]; the target yaw is -PI/2, whereas the representative
    of -PI in (-PI, PI] is PI, which the constraint would take to PI/4. *)
Lemma rotateTo_minus_PI_not_half_open :
  exists t,
    rotateTo_target (enough_fuel (- Math_PI)) (- Math_PI) = Some t
    /\ normalizeAngle (enough_fuel (- Math_PI)) (- Math_PI) = Some (- Math_PI)
    /\ ~ (- Math_PI < - Math_PI)
    /\ angle t = minAngle
    /\ normalize_half_open (- Math_PI) == Math_PI
    /\ limitAngle (normalize_half_open (- Math_PI)) = maxAngle
    /\ ~ (angle t == limitAngle (normalize_half_open (- Math_PI))).
Proof.
  exists (mkAxisAngle (0, 1, 0) minAngle).
  split; [vm_compute; reflexivity|].
  split; [vm_compute; reflexivity|].
  split; [apply Qlt_irrefl|].
  split; [reflexivity|].
  split; [vm_compute; reflexivity|].
  split; [vm_compute; reflexivity|].
  vm_compute. discriminate.
Qed.

End RotationFacts.

(** ** The Clip Blend Manager ([AnimationStateManager]) *)

Module ClipsFacts.
Import Clips.
Local Open Scope string_scope.
Local Open Scope list_scope.

Lemma fading_to_idle_state :
  isTransitioning fading_to_idle = true
  /\ activeAction fading_to_idle = Some 0%nat
  /\ lookup "idle" (animations fading_to_idle) = Some 0%nat.
Proof. repeat split. Qed.

(** C6 (as amended).  While a cross-fade is in progress every call of
    [playAction] returns null and leaves the manager exactly as it was: the
    active action is unchanged, nothing is queued (no timer, no listener), and
    no effect is performed, in particular no warning is logged. *)
Theorem playAction_rejected_while_transitioning
    (name : string) (fade : Q) (loop : bool) (m : Manager) :
  isTransitioning m = true ->
  playAction name fade loop m = (None, m).
Proof.
  intro H. unfold playAction. rewrite H. reflexivity.
Qed.

Lemma playAction_rejected_while_transitioning_witness :
  isTransitioning fading_to_idle = true
  /\ playAction "walk" (3 # 10) true fading_to_idle = (None, fading_to_idle).
Proof.
  split; [reflexivity|].
  apply (playAction_rejected_while_transitioning "walk" (3 # 10) true fading_to_idle).
  reflexivity.
Defined.

(** C6 (as stated) fails: a call during the idle cross-fade returns null but
    logs no warning; the trace of effects is the one before the call and holds
    no [ConsoleWarn]. *)
Lemma playAction_during_fade_logs_nothing :
  isTransitioning fading_to_idle = true
  /\ fst (playAction "walk" (3 # 10) true fading_to_idle) = None
  /\ trace (snd (playAction "walk" (3 # 10) true fading_to_idle))
     = trace fading_to_idle
  /\ ~ (exists message,
          In (ConsoleWarn message)
             (trace (snd (playAction "walk" (3 # 10) true fading_to_idle)))).
Proof.
  repeat split.
  intros [message H]. cbn in H.
  repeat (destruct H as [H|H]; [discriminate|]). exact H.
Qed.

(** The warning belongs to the other silent failure, an unknown clip name. *)
Lemma playAction_unknown_warns (name : string) (fade : Q) (loop : bool) (m : Manager) :
  isTransitioning m = false ->
  lookup name (animations m) = None ->
  playAction name fade loop m
  = (None, emit [ConsoleWarn (String.append "Animation '"
                                (String.append name "' not found"))] m).
Proof.
  intros Ht Hl. unfold playAction. rewrite Ht, Hl. reflexivity.
Qed.

(** C9 (as amended).  When no cross-fade is in progress and the requested clip
    is the active one, [playAction] returns the active action and leaves the
    manager exactly as it was. *)
Theorem playAction_active_clip_noop
    (name : string) (fade : Q) (loop : bool) (m : Manager) (a : ActionId) :
  isTransitioning m = false ->
  lookup name (animations m) = Some a ->
  activeAction m = Some a ->
  playAction name fade loop m = (Some a, m).
Proof.
  intros Ht Hl Ha. unfold playAction. rewrite Ht, Hl, Ha.
  simpl. rewrite Nat.eqb_refl. reflexivity.
Qed.

Lemma playAction_active_clip_noop_witness :
  isTransitioning idle_settled = false
  /\ lookup "idle" (animations idle_settled) = Some 0%nat
  /\ activeAction idle_settled = Some 0%nat
  /\ playAction "idle" (1 # 2) true idle_settled = (Some 0%nat, idle_settled).
Proof.
  split; [reflexivity|]. split; [reflexivity|]. split; [reflexivity|].
  apply (playAction_active_clip_noop "idle" (1 # 2) true idle_settled 0%nat);
    reflexivity.
Defined.

(** C9 (as stated) fails: during its own cross-fade the idle clip is the
    active one, and a second request for it returns null, not the active
    action.  The manager is still left as it was. *)
Lemma playAction_active_clip_during_fade_null :
  lookup "idle" (animations fading_to_idle) = activeAction fading_to_idle
  /\ activeAction fading_to_idle = Some 0%nat
  /\ fst (playAction "idle" (1 # 2) true fading_to_idle) = None
  /\ fst (playAction "idle" (1 # 2) true fading_to_idle)
     <> getCurrentAction fading_to_idle
  /\ snd (playAction "idle" (1 # 2) true fading_to_idle) = fading_to_idle.
Proof.
  repeat split. discriminate.
Qed.

End ClipsFacts.

(** ** The Action Scheduler *)

Module SchedulerFacts.
Import Scheduler.
Local Open Scope string_scope.
Local Open Scope list_scope.

(** *** The log only grows *)

Lemma ext_refl (L : list Event) : ext L L.
Proof. intros e H. exact H. Qed.

Lemma ext_trans (L1 L2 L3 : list Event) : ext L1 L2 -> ext L2 L3 -> ext L1 L3.
Proof. intros H1 H2 e H. apply H2, H1, H. Qed.

Lemma ext_app (L es : list Event) : ext L (L ++ es).
Proof. intros e H. apply in_or_app. left. exact H. Qed.

Lemma in_last (L : list Event) (e : Event) : In e (L ++ [e]).
Proof. apply in_or_app. right. left. reflexivity. Qed.








(** *** One more event *)









(** *** Induction on descriptors *)

Lemma Action_nested_ind (P : Action -> Prop) :
  (forall an tp du, P (Locomotion an tp du)) ->
  (forall par subs, Forall P subs -> P (Composite par subs)) ->
  (forall an du, P (Oneshot an du)) ->
  forall a, P a.
Proof.
  intros Hl Hc Ho. fix IH 1.
  intros [an tp du | par subs | an du]; [apply Hl | | apply Ho].
  apply Hc. revert subs. fix IHs 1.
  intros [|s subs]; constructor; [apply IH | apply IHs].
Qed.

(** *** [executeAction] keeps the invariant *)










(** *** A reaction keeps the invariant *)










(** *** Inputs keep the invariant *)








(** A run of macrotasks passes through reachable states only. *)
Lemma drain_reachable (w0 : World) (fuel : nat) : forall w w',
  reachable w0 w -> drain fuel w = Some w' -> reachable w0 w'.
Proof.
  induction fuel as [|fuel IH]; intros w w' Hr H; cbn in H.
  - destruct (micro w); [injection H as <-; exact Hr | discriminate H].
  - destruct (micro w) eqn:E; [injection H as <-; exact Hr|].
    eapply IH; [|exact H]. apply reach_micro. exact Hr.
Qed.


(** *** What every call of [executeAction] does *)

Lemma arrivals_app (L es : list Event) :
  arrivals (L ++ es) = arrivals L ++ arrivals es.
Proof.
  induction L as [|e L IH]; [reflexivity|].
  destruct e; cbn; rewrite IH; reflexivity.
Qed.

Lemma departures_app (L es : list Event) :
  departures (L ++ es) = departures L ++ departures es.
Proof.
  induction L as [|e L IH]; [reflexivity|].
  destruct e; cbn; rewrite IH; reflexivity.
Qed.

Lemma entered_frame (a : Action) (k : Cont) (w : World) :
  start_frame a k w (entered a k w).
Proof.
  unfold start_frame, entered. cbn.
  rewrite arrivals_app, departures_app. cbn. rewrite !app_nil_r.
  repeat apply conj; auto using ext_app, in_last.
Qed.

(** Steps that follow in the same call keep the frame. *)
Lemma start_frame_step (a : Action) (k : Cont) (w w1 w2 : World) :
  start_frame a k w w1 ->
  ext (log w1) (log w2) ->
  isExecuting w2 = true ->
  actionQueue w2 = actionQueue w1 ->
  arrivals (log w2) = arrivals (log w1) ->
  departures (log w2) = departures (log w1) ->
  (nextId w1 <= nextId w2)%nat ->
  start_frame a k w w2.
Proof.
  intros (H1 & H2 & H3 & H4 & H5 & H6 & H7) He Hx Hq Ha Hd Hn.
  unfold start_frame. repeat apply conj.
  - eapply ext_trans; eassumption.
  - apply He, H2.
  - exact Hx.
  - congruence.
  - congruence.
  - congruence.
  - lia.
Qed.

Lemma enqueue_fields (k : Cont) (w : World) :
  log (enqueue k w) = log w /\ isExecuting (enqueue k w) = isExecuting w
  /\ actionQueue (enqueue k w) = actionQueue w
  /\ nextId (enqueue k w) = nextId w.
Proof. destruct k; repeat split. Qed.

Lemma launch_frame (c : nat) (subs : list Action) :
  Forall (fun s => forall k w, start_frame s k w (start s k w)) subs ->
  forall (i : nat) (w : World),
  ext (log w) (log (launch start c subs i w))
  /\ (subs <> [] -> isExecuting (launch start c subs i w) = true)
  /\ actionQueue (launch start c subs i w) = actionQueue w
  /\ arrivals (log (launch start c subs i w)) = arrivals (log w)
  /\ departures (log (launch start c subs i w)) = departures (log w)
  /\ (nextId w <= nextId (launch start c subs i w))%nat
  /\ (forall j s, nth_error subs j = Some s ->
        exists id, In (Started id (Some (Par c (i + j))) s)
                      (log (launch start c subs i w))).
Proof.
  induction 1 as [|s subs Hs Hrest IH]; intros i w; cbn [launch].
  - repeat apply conj; try reflexivity; try apply ext_refl.
    + intro H. exfalso. apply H. reflexivity.
    + intros [|j] s H; discriminate H.
  - destruct (Hs (KJoin c i) w) as (H1 & H2 & H3 & H4 & H5 & H6 & H7).
    destruct (IH (S i) (start s (KJoin c i) w))
      as (K1 & K2 & K4 & K5 & K6 & K7 & K8).
    repeat apply conj.
    + eapply ext_trans; eassumption.
    + intros _. destruct subs as [|s' subs]; [exact H3|].
      apply K2. discriminate.
    + congruence.
    + congruence.
    + congruence.
    + lia.
    + intros [|j] s' Hj.
      * injection Hj as <-. exists (nextId w). rewrite Nat.add_0_r.
        apply K1. exact H2.
      * destruct (K8 j s' Hj) as [id Hid]. exists id.
        replace (i + S j)%nat with (S i + j)%nat by lia. exact Hid.
Qed.

Lemma start_frame_holds : forall (a : Action) (k : Cont) (w : World),
  start_frame a k w (start a k w).
Proof.
  induction a as [an tp du | par subs IH | an du] using Action_nested_ind;
    intros k w.
  - pose proof (entered_frame (Locomotion an tp du) k w) as HF.
    cbn [start]. unfold play.
    destruct tp as [target|].
    + cbn. destruct (isRotating w).
      * eapply start_frame_step; [exact HF|..]; cbn;
          rewrite ?arrivals_app, ?departures_app, ?app_nil_r;
          auto using ext_app.
      * eapply start_frame_step; [exact HF|..]; cbn; auto using ext_refl.
    + eapply start_frame_step; [exact HF|..]; cbn; auto using ext_refl.
  - pose proof (entered_frame (Composite par subs) k w) as HF.
    destruct par.
    + cbn [start].
      destruct (launch_frame (nextId w) subs IH 0%nat
                  (entered (Composite true subs) k w))
        as (K1 & K2 & K4 & K5 & K6 & K7 & _).
      destruct subs as [|s subs].
      * eapply start_frame_step; [exact HF|..]; cbn; auto using ext_refl.
      * eapply start_frame_step; [exact HF|..]; cbn [log isExecuting actionQueue nextId set_joins];
          auto. apply K2. discriminate.
    + cbn [start]. destruct subs as [|s rest].
      * eapply start_frame_step; [exact HF|..]; cbn; auto using ext_refl.
      * apply Forall_inv in IH.
        destruct (IH (KSeq 1 rest (KFinally (nextId w) (Composite false (s :: rest)) k))
                    (entered (Composite false (s :: rest)) k w))
          as (H1 & H2 & H3 & H4 & H5 & H6 & H7).
        eapply start_frame_step; [exact HF|..]; auto. lia.
  - pose proof (entered_frame (Oneshot an du) k w) as HF.
    cbn [start]. unfold play.
    eapply start_frame_step; [exact HF|..]; cbn; auto using ext_refl.
Qed.


(** *** The order of the sub-actions of a composite *)



(** The two scenarios of the claim, run: [A; B; C] in sequence, and [A; B] in
    parallel with B finishing first. *)
Lemma composite_scenarios :
  log (after [CallExecute (Composite false [jump; bite; paw]) 7;
              Complete 1; Complete 2; Complete 3] idle_scheduler)
  = [ Started 0 None (Composite false [jump; bite; paw]);
      Started 1 (Some (Seq 0 0)) jump; Finished 1 jump;
      Started 2 (Some (Seq 0 1)) bite; Finished 2 bite;
      Started 3 (Some (Seq 0 2)) paw; Finished 3 paw;
      Finished 0 (Composite false [jump; bite; paw]); Resolved 7 ]
  /\ log (after [CallExecute (Composite true [jump; bite]) 8;
                 Complete 2; Complete 1] idle_scheduler)
     = [ Started 0 None (Composite true [jump; bite]);
         Started 1 (Some (Par 0 0)) jump; Started 2 (Some (Par 0 1)) bite;
         Finished 2 bite; Finished 1 jump;
         Finished 0 (Composite true [jump; bite]); Resolved 8 ]
  /\ log (after [CallExecute (Composite true [jump; bite]) 8;
                 Complete 2] idle_scheduler)
     = [ Started 0 None (Composite true [jump; bite]);
         Started 1 (Some (Par 0 0)) jump; Started 2 (Some (Par 0 1)) bite;
         Finished 2 bite ].
Proof. repeat split. Qed.

(** *** The queue *)














(** Three descriptors scheduled in a row: the first runs at once, the other
    two wait and are served in the order they arrived, each at the end of
    the one before. *)
Lemma schedule_three :
  actionQueue (after [CallSchedule jump; CallSchedule bite; CallSchedule paw]
                     idle_scheduler) = [bite; paw]
  /\ log (after [CallSchedule jump; CallSchedule bite; CallSchedule paw;
                 Complete 0; Complete 1; Complete 2] idle_scheduler)
     = [ Started 0 None jump; Enqueued bite; Enqueued paw;
         Finished 0 jump; Dequeued bite; Started 1 None bite;
         Finished 1 bite; Dequeued paw; Started 2 None paw;
         Finished 2 paw ]
  /\ isExecuting (after [CallSchedule jump; CallSchedule bite; CallSchedule paw;
                         Complete 0; Complete 1; Complete 2] idle_scheduler)
     = false.
Proof. repeat split. Qed.

(** *** Mutual exclusion *)

(** C2 fails on the code.  An idle scheduler is given the sequential
    composite [jump; bite], then, while jump runs, the descriptor paw, which
    is queued.  When the timer of jump fires, the [finally] of the call that
    ran jump clears the flag and takes paw from the queue; the composite then
    goes on to bite.  Calls 2 (paw) and 3 (bite) are in flight together.  When
    paw ends, the flag is cleared while bite, and the composite, still run: a
    descriptor scheduled then is executed at once, not queued. *)
Lemma composite_lets_queue_in :
  let busy := after [CallSchedule (Composite false [jump; bite]);
                     CallSchedule paw] idle_scheduler in
  let both := after [Complete 1] busy in
  let gap := after [Complete 2] both in
  (isExecuting busy = true /\ actionQueue busy = [paw] /\ in_flight busy = [1%nat])
  /\ (in_flight both = [2%nat; 3%nat]
      /\ log both
         = [ Started 0 None (Composite false [jump; bite]);
             Started 1 (Some (Seq 0 0)) jump; Enqueued paw;
             Finished 1 jump; Dequeued paw; Started 2 None paw;
             Started 3 (Some (Seq 0 1)) bite ])
  /\ (isExecuting gap = false /\ in_flight gap = [3%nat]
      /\ ~ In (Finished 0 (Composite false [jump; bite])) (log gap)
      /\ in_flight (after [CallSchedule jump] gap) = [3%nat; 4%nat]
      /\ actionQueue (after [CallSchedule jump] gap) = []).
Proof.
  cbv zeta.
  split; [vm_compute; repeat split|].
  split; [vm_compute; repeat split|].
  split; [vm_compute; reflexivity|].
  split; [vm_compute; reflexivity|].
  split.
  - vm_compute. intro H.
    repeat (destruct H as [H|H]; [discriminate H|]). exact H.
  - split; vm_compute; reflexivity.
Qed.

(** Between two sub-actions the flag is down even with an empty queue: the
    microtask that ends a sub-action clears it, the next one sets it again. *)
Lemma flag_down_between_sub_actions :
  let running := after [CallSchedule (Composite false [jump; bite])] idle_scheduler in
  let ended := run_micro (complete 1 running) in
  isExecuting running = true
  /\ isExecuting ended = false
  /\ micro ended = [KSeq 1 [bite] (KFinally 0 (Composite false [jump; bite]) KDone)]
  /\ isExecuting (run_micro ended) = true.
Proof. cbv zeta. repeat split; vm_compute; reflexivity. Qed.

(** *** [cancelAll] *)

Lemma complete_under_way (id : nat) (w w' : World) :
  under_way w' = under_way w ->
  under_way (complete id w') = under_way (complete id w).
Proof.
  unfold under_way. destruct w, w'. cbn. intro E.
  injection E as -> -> -> -> ->.
  unfold complete. cbn.
  destruct (take_pending id pending0) as [[[wt k]|] rest]; [|reflexivity].
  destruct wt; cbn.
  - destruct k; reflexivity.
  - destruct isMoving0; reflexivity.
  - reflexivity.
  - destruct isRotating0; reflexivity.
  - destruct k; reflexivity.
Qed.

(** C7 (as amended).  [cancelAll] empties the queue, whatever its length,
    clears the flag and asks the manager to return to the idle clip.  It
    touches nothing that is under way: the operations in flight, the ready
    reactions, the [Promise.all]s and the busy flags of the motion controller
    are as before, and when an operation in flight completes its next stage
    begins exactly as it would have without the call. *)
Theorem cancelAll_effect (w : World) :
  actionQueue (cancelAll w) = []
  /\ List.length (actionQueue (cancelAll w)) = 0%nat
  /\ isExecuting (cancelAll w) = false
  /\ manager (cancelAll w) = snd (Clips.fadeToIdle (1 # 2) (manager w))
  /\ log (cancelAll w) = log w ++ map Dropped (actionQueue w)
  /\ under_way (cancelAll w) = under_way w
  /\ forall id, under_way (complete id (cancelAll w)) = under_way (complete id w).
Proof.
  repeat apply conj; try reflexivity.
  intro id. apply complete_under_way. reflexivity.
Qed.

(** The scenario of the spec: three descriptors wait; after [cancelAll] none
    does, the flag is down and [playAction('idle', 0.5, true)] has been asked
    for (the jump clip was cross-fading, so the manager refused it). *)
Lemma cancelAll_three_queued :
  let busy := after [CallSchedule jump; CallSchedule bite; CallSchedule paw;
                     CallSchedule walk_to] idle_scheduler in
  List.length (actionQueue busy) = 3%nat
  /\ isExecuting busy = true
  /\ List.length (actionQueue (cancelAll busy)) = 0%nat
  /\ isExecuting (cancelAll busy) = false
  /\ in_flight (cancelAll busy) = [0%nat].
Proof. cbv zeta. repeat split; vm_compute; reflexivity. Qed.

(** C7 (as stated) fails: [cancelAll] does not keep new stages from starting.
    A walk is cancelled during its first rotation; when the rotation ends the
    move begins.  A sequential composite is cancelled during its first
    sub-action; when that ends the second starts. *)
Lemma cancelAll_does_not_stop_stages :
  let turning := after [CallSchedule walk_to] idle_scheduler in
  let cancelled := after [CallCancelAll] turning in
  let moving := after [Complete 0] cancelled in
  let jumping := after [CallSchedule (Composite false [jump; bite])] idle_scheduler in
  let biting := after [CallCancelAll; Complete 1] jumping in
  (map (fun p => snd (fst p)) (pending turning) = [WRotateToTarget]
   /\ isExecuting cancelled = false
   /\ map (fun p => snd (fst p)) (pending cancelled) = [WRotateToTarget]
   /\ map (fun p => snd (fst p)) (pending moving) = [WMove]
   /\ isMoving moving = true)
  /\ (in_flight jumping = [1%nat]
      /\ log biting
         = [ Started 0 None (Composite false [jump; bite]);
             Started 1 (Some (Seq 0 0)) jump;
             Finished 1 jump;
             Started 2 (Some (Seq 0 1)) bite ]
      /\ in_flight biting = [2%nat]).
Proof. cbv zeta. repeat split; vm_compute; reflexivity. Qed.

End SchedulerFacts.

(** ** The Context Selector: scoring and selection *)

Module ContextFacts.
Import Context.
Local Open Scope string_scope.
Local Open Scope list_scope.

Lemma add_keywords_count (text : string) (ws : list string) : forall s : Q,
  add_keywords text ws s
  == s + inject_Z (2 * Z.of_nat (List.length (filter (includes text) ws))).
Proof.
  unfold add_keywords.
  induction ws as [|w ws IH]; intro s; cbn [fold_left filter].
  - change (inject_Z (2 * Z.of_nat (List.length (@nil string)))) with 0. ring.
  - rewrite IH. destruct (includes text w); [|reflexivity].
    cbn [List.length]. rewrite Nat2Z.inj_succ. unfold Z.succ.
    rewrite Z.mul_add_distr_l, !inject_Z_plus.
    change (inject_Z (2 * 1)) with 2. ring_Z.
Qed.

Lemma add_emotions_count (text : string) (ws : list string) : forall s : Q,
  add_emotions text ws s
  == s + inject_Z (Z.of_nat (List.length (filter (includes text) ws))).
Proof.
  unfold add_emotions.
  induction ws as [|w ws IH]; intro s; cbn [fold_left filter].
  - change (inject_Z (Z.of_nat (List.length (@nil string)))) with 0. ring.
  - rewrite IH. destruct (includes text w); [|reflexivity].
    cbn [List.length]. rewrite Nat2Z.inj_succ. unfold Z.succ.
    rewrite inject_Z_plus. change (inject_Z 1) with 1. ring_Z.
Qed.

(** The two loops add 2 per keyword found and 1 per emotion keyword found;
    the product with weight and jitter follows. *)
Lemma mapping_score_formula (text : string) (m : ContextMapping) (r : Q) :
  mapping_score text m r == points text m * weight m * jitter r.
Proof.
  unfold mapping_score, points. cbv zeta.
  rewrite add_emotions_count, add_keywords_count, inject_Z_plus.
  ring_Z.
Qed.

Lemma jitter_range (r : Q) : 0 <= r < 1 -> 8 # 10 <= jitter r < 12 # 10.
Proof. unfold jitter. intros [H0 H1]. split; lra. Qed.

(** What the selection loop returns, started at mapping number [i] with the
    loop variables [best] and [high]: either nothing later beats both [high]
    and the threshold and [best] is returned, or the winner is the first of
    the highest scores. *)
Lemma scan_mappings_spec (text : string) (rand : Random) (ms : list ContextMapping) :
  forall (i : nat) (best : option ContextMapping) (high : Q),
  let score k m := mapping_score text m (rand (i + k)%nat) in
  (scan_mappings text rand ms i best high = best
   /\ forall k m, nth_error ms k = Some m ->
        ~ (high < score k m /\ 15 # 10 < score k m))
  \/ (exists k m,
        nth_error ms k = Some m
        /\ scan_mappings text rand ms i best high = Some m
        /\ high < score k m /\ 15 # 10 < score k m
        /\ (forall j m', nth_error ms j = Some m' -> score j m' <= score k m)
        /\ (forall j m', (j < k)%nat -> nth_error ms j = Some m' ->
              score j m' < score k m)).
Proof.
  induction ms as [|m0 rest IH]; intros i best high score.
  - left. split; [reflexivity|]. intros [|k] m H; discriminate.
  - cbn [scan_mappings].
    assert (Hidx : forall k, (S i + k = i + S k)%nat) by (intro; lia).
    destruct (Qgtb (mapping_score text m0 (rand i)) high
              && Qgtb (mapping_score text m0 (rand i)) (15 # 10)) eqn:E.
    + apply andb_true_iff in E. destruct E as [E1 E2].
      apply Qgtb_true in E1. apply Qgtb_true in E2.
      right.
      destruct (IH (S i) (Some m0) (mapping_score text m0 (rand i)))
        as [[Hres Hno] | (k & m & Hk & Hres & Hhi & Hthr & Hmax & Hfirst)].
      * exists 0%nat, m0. unfold score. rewrite Nat.add_0_r.
        split; [reflexivity|]. split; [exact Hres|].
        split; [exact E1|]. split; [exact E2|]. split.
        -- intros [|j] m' Hj.
           ++ injection Hj as <-. rewrite Nat.add_0_r. apply Qle_refl.
           ++ cbn [nth_error] in Hj. specialize (Hno j m' Hj).
              rewrite Hidx in Hno.
              apply Qnot_lt_le. intro Hlt. apply Hno. split; [exact Hlt|].
              eapply Qlt_trans; eassumption.
        -- intros j m' Hj. lia.
      * exists (S k), m. unfold score. rewrite <- !Hidx.
        split; [exact Hk|]. split; [exact Hres|].
        split; [eapply Qlt_trans; eassumption|]. split; [exact Hthr|]. split.
        -- intros [|j] m' Hj.
           ++ injection Hj as <-. rewrite Nat.add_0_r. apply Qlt_le_weak. exact Hhi.
           ++ rewrite <- Hidx. apply (Hmax j m' Hj).
        -- intros [|j] m' Hlt Hj.
           ++ injection Hj as <-. rewrite Nat.add_0_r. exact Hhi.
           ++ rewrite <- Hidx. apply (Hfirst j m'); [lia | exact Hj].
    + assert (Hhead : ~ (high < mapping_score text m0 (rand i)
                         /\ 15 # 10 < mapping_score text m0 (rand i))).
      { intros [H1 H2]. apply Qgtb_true in H1. apply Qgtb_true in H2.
        rewrite H1, H2 in E. discriminate. }
      destruct (IH (S i) best high)
        as [[Hres Hno] | (k & m & Hk & Hres & Hhi & Hthr & Hmax & Hfirst)].
      * left. split; [exact Hres|].
        intros [|k] m Hk.
        -- injection Hk as <-. unfold score. rewrite Nat.add_0_r. exact Hhead.
        -- unfold score. rewrite <- Hidx. apply (Hno k m Hk).
      * right. exists (S k), m. unfold score. rewrite <- !Hidx.
        split; [exact Hk|]. split; [exact Hres|].
        split; [exact Hhi|]. split; [exact Hthr|].
        assert (Hlt0 : mapping_score text m0 (rand i)
                       < mapping_score text m (rand (S i + k)%nat)).
        { destruct (Qlt_le_dec high (mapping_score text m0 (rand i))) as [H1|H1].
          - destruct (Qlt_le_dec (15 # 10) (mapping_score text m0 (rand i))) as [H2|H2].
            + exfalso. apply Hhead. split; assumption.
            + eapply Qle_lt_trans; eassumption.
          - eapply Qle_lt_trans; eassumption. }
        split.
        -- intros [|j] m' Hj.
           ++ injection Hj as <-. rewrite Nat.add_0_r. apply Qlt_le_weak. exact Hlt0.
           ++ rewrite <- Hidx. apply (Hmax j m' Hj).
        -- intros [|j] m' Hlt Hj.
           ++ injection Hj as <-. rewrite Nat.add_0_r. exact Hlt0.
           ++ rewrite <- Hidx. apply (Hfirst j m'); [lia | exact Hj].
Qed.

(** The selection over the whole table. *)
Lemma findBestContextMatch_spec (ms : list ContextMapping) (text : string)
    (rand : Random) :
  match findBestContextMatch ms text rand with
  | Some m =>
      exists k, nth_error ms k = Some m
        /\ 15 # 10 < score_at ms text rand k
        /\ (forall j, score_at ms text rand j <= score_at ms text rand k)
        /\ (forall j, (j < k)%nat ->
              score_at ms text rand j < score_at ms text rand k)
  | None => forall j, score_at ms text rand j <= 15 # 10
  end.
Proof.
  unfold findBestContextMatch.
  destruct (scan_mappings_spec text rand ms 0 None 0)
    as [[Hres Hno] | (k & m & Hk & Hres & Hhi & Hthr & Hmax & Hfirst)].
  - rewrite Hres. intro j. unfold score_at.
    destruct (nth_error ms j) as [m|] eqn:Hj; [|discriminate].
    specialize (Hno j m Hj). cbn [Nat.add] in Hno.
    destruct (Qlt_le_dec (15 # 10) (mapping_score text m (rand j))) as [H|H];
      [|exact H].
    exfalso. apply Hno. split; [|exact H].
    eapply Qlt_trans; [|exact H]. reflexivity.
  - rewrite Hres. cbn [Nat.add] in *. exists k.
    assert (Hsk : score_at ms text rand k = mapping_score text m (rand k))
      by (unfold score_at; rewrite Hk; reflexivity).
    rewrite Hsk.
    split; [exact Hk|]. split; [exact Hthr|]. split.
    + intro j. unfold score_at.
      destruct (nth_error ms j) as [m'|] eqn:Hj.
      * apply (Hmax j m' Hj).
      * apply Qlt_le_weak. exact Hhi.
    + intros j Hlt. unfold score_at.
      destruct (nth_error ms j) as [m'|] eqn:Hj.
      * apply (Hfirst j m' Hlt Hj).
      * exact Hhi.
Qed.


(** The loop on two examples, every draw being 1/2 (jitter 1).  A keyword and
    an emotion keyword of the walking mapping give 2 + 1 points and score 3:
    walking is selected.  "run" and "walk" give the running and the walking
    mapping 2 points each, a tie at score 2: walking, the first of the two in
    the table, is kept. *)
Lemma findBestContextMatch_examples :
  option_map action
    (findBestContextMatch contextMappings
       (toLowerCase "Let's WALK outside") half) = Some "performWalkingContext"
  /\ score_at contextMappings "should i run or walk" half 0
     == score_at contextMappings "should i run or walk" half 1
  /\ option_map action
       (findBestContextMatch contextMappings "should i run or walk" half)
     = Some "performWalkingContext".
Proof. repeat split. Qed.

End ContextFacts.

(** ** The Behavior State Machine *)

Module BehaviorFacts.
Import Behavior.
Local Open Scope string_scope.
Local Open Scope list_scope.

(** C10.  [changeState] to the state the machine is already in returns the
    machine as it was, whatever the state, payload and clock: current and
    previous state, start time, payload and mood are unchanged, the animation
    manager has received no call and no sleep-mode side effect has run. *)
Theorem changeState_same_state_noop (data : StateData) (now : Q) (m : Machine) :
  changeState (currentState m) data now m = m.
Proof.
  unfold changeState. rewrite String.eqb_refl. reflexivity.
Qed.

(** The same, with the requested state named apart from the machine. *)
Lemma changeState_same_state_fields
    (s : string) (data : StateData) (now : Q) (m : Machine) :
  s = currentState m ->
  let m' := changeState s data now m in
  currentState m' = currentState m
  /\ previousState m' = previousState m
  /\ stateStartTime m' = stateStartTime m
  /\ stateData m' = stateData m
  /\ mood m' = mood m
  /\ animationManager m' = animationManager m
  /\ catCalls m' = catCalls m.
Proof.
  intros ->. cbv zeta. unfold changeState. rewrite String.eqb_refl. repeat split.
Qed.

(** The guard matters: entering a different state does run its entry action.
    From idle, [changeState('sleep')] records the previous state, restarts the
    clock, sets the mood and enters sleep mode; asked again, it does nothing. *)
Lemma changeState_sleep_then_again :
  currentState asleep = "sleep"
  /\ previousState asleep = "idle"
  /\ stateStartTime asleep = 61000
  /\ mood asleep = "sleepy"
  /\ catCalls asleep = [EnterSleepMode]
  /\ changeState "sleep" [("again", "yes")] 99000 asleep = asleep.
Proof. repeat split. Qed.

End BehaviorFacts.

(** ** The Procedural Layer *)

Module ProceduralFacts.
Import Procedural.
Local Open Scope string_scope.
Local Open Scope list_scope.
Local Open Scope R_scope.

Lemma restore_snapshot (bone previous : option Euler) :
  restore bone (snapshot bone previous) = bone.
Proof. destruct bone; reflexivity. Qed.

(** Right after caching, the restore step of a tick changes nothing. *)
Lemma resetBaselines_cacheBaselines (l : Layer) :
  resetBaselines (cacheBaselines l) = cacheBaselines l.
Proof.
  unfold resetBaselines, cacheBaselines, set_bones. cbn.
  rewrite !restore_snapshot. destruct (bones l); reflexivity.
Qed.

Lemma cacheBaselines_cover (l : Layer) : baselines_cover (cacheBaselines l).
Proof.
  unfold baselines_cover, cacheBaselines. cbn.
  destruct (bones l) as [[h|] [t|] [el|] [er|]]; cbn;
    repeat split; intro H; congruence.
Qed.

(** With a baseline for every bone, the restore step forgets the rotations the
    bones had. *)
Lemma restore_forgets (bone bone' baseline : option Euler) :
  (bone <> None -> baseline <> None) ->
  (bone = None <-> bone' = None) ->
  restore bone' baseline = restore bone baseline.
Proof.
  intros Hc Hs.
  destruct bone as [r|], bone' as [r'|], baseline as [b|]; cbn; try reflexivity.
  - exfalso. apply Hc; [discriminate | reflexivity].
  - destruct Hs as [_ Hs]. discriminate (Hs eq_refl).
  - destruct Hs as [_ Hs]. discriminate (Hs eq_refl).
  - destruct Hs as [Hs _]. discriminate (Hs eq_refl).
  - destruct Hs as [Hs _]. discriminate (Hs eq_refl).
Qed.

Lemma update_forgets_rotations (delta : R) (d : Draws) (l : Layer) (b' : Bones) :
  baselines_cover l ->
  same_skeleton (bones l) b' ->
  update delta d (set_bones b' l) = update delta d l.
Proof.
  intros (Hh & Ht & Hl & Hr) (Sh & St & Sl & Sr).
  unfold update. do 5 f_equal.
  unfold resetBaselines, set_bones. cbn.
  rewrite (restore_forgets _ _ _ Hh Sh), (restore_forgets _ _ _ Ht St),
          (restore_forgets _ _ _ Hl Sl), (restore_forgets _ _ _ Hr Sr).
  reflexivity.
Qed.

(** The effects that follow the tail motion leave the tail bone alone. *)
Lemma performEarTwitch_tail (left : bool) (d : Draws) (l : Layer) :
  tailBone (bones (performEarTwitch left d l)) = tailBone (bones l).
Proof.
  unfold performEarTwitch. cbv zeta.
  destruct (Rlt_dec _ _); destruct left; reflexivity.
Qed.

Lemma performEarTwitch_mood (left : bool) (d : Draws) (l : Layer) :
  mood (performEarTwitch left d l) = mood l.
Proof.
  unfold performEarTwitch. cbv zeta.
  destruct (Rlt_dec _ _); destruct left; reflexivity.
Qed.

Lemma applyEarMotions_tail (delta : R) (d : Draws) (l : Layer) :
  tailBone (bones (applyEarMotions delta d l)) = tailBone (bones l).
Proof.
  unfold applyEarMotions.
  destruct (earLeft (bones l)); [|reflexivity].
  destruct (earRight (bones l)); [|reflexivity].
  destruct (Rlt_dec (twitchDraw d) (twitchProbability (ears l))).
  - destruct (String.eqb _ _); cbn; apply performEarTwitch_tail.
  - destruct (String.eqb _ _); reflexivity.
Qed.

Lemma applyBreathing_bones (delta : R) (l : Layer) :
  bones (applyBreathing delta l) = bones l.
Proof.
  unfold applyBreathing. destruct (modelScale l) as [[sx sy]|]; reflexivity.
Qed.

Lemma applyTalkingBehavior_tail (delta : R) (l : Layer) :
  tailBone (bones (applyTalkingBehavior delta l)) = tailBone (bones l).
Proof.
  unfold applyTalkingBehavior.
  destruct (isTalking l); [|reflexivity].
  destruct (head (bones l)); reflexivity.
Qed.

Lemma applyMoodInfluences_bones (delta : R) (l : Layer) :
  bones (applyMoodInfluences delta l) = bones l.
Proof.
  unfold applyMoodInfluences. destruct (animationManager l); reflexivity.
Qed.

(** The tail after a tick in which no flick starts: the cached baseline plus
    this tick's offset, whatever the rotation before the tick. *)
Lemma update_tail (delta : R) (d : Draws) (l : Layer) (r base : Euler) :
  tailBone (bones l) = Some r ->
  baseTail (boneBaselines l) = Some base ->
  ~ flickDraw d < 5 / 1000 ->
  let '(target, rate, speed) := tail_target (mood l) (tail l) in
  let intensity := lerp (currentIntensity (tail l)) target (delta * rate) in
  let phase := tailPhase (tail l) + delta * speed in
  tailBone (bones (update delta d l))
  = Some (mkEuler (ex base)
                  (ey base + sin phase * intensity)
                  (ez base + cos (phase * (7 / 10)) * intensity * (5 / 10))).
Proof.
  intros Hr Hb Hd.
  destruct (tail_target (mood l) (tail l)) as [[target rate] speed] eqn:Et.
  cbv zeta. unfold update.
  rewrite applyMoodInfluences_bones, applyTalkingBehavior_tail,
          applyBreathing_bones, applyEarMotions_tail.
  unfold applyTailMotion, resetBaselines, set_bones. cbn.
  rewrite Hr, Hb. cbn. rewrite Et.
  destruct (Rlt_dec (flickDraw d) (5 / 1000)); [contradiction|].
  reflexivity.
Qed.

(** A tick never touches the map of baselines. *)
Lemma performTailFlick_baselines (d : Draws) (l : Layer) :
  boneBaselines (performTailFlick d l) = boneBaselines l.
Proof.
  unfold performTailFlick. destruct (tailBone (bones l)); [|reflexivity].
  cbv zeta. destruct (Rlt_dec _ _); reflexivity.
Qed.

Lemma applyTailMotion_baselines (delta : R) (d : Draws) (l : Layer) :
  boneBaselines (applyTailMotion delta d l) = boneBaselines l.
Proof.
  unfold applyTailMotion. destruct (tailBone (bones l)); [|reflexivity].
  destruct (tail_target (mood l) (tail l)) as [[target rate] speed].
  cbv zeta. destruct (Rlt_dec _ _); [|reflexivity].
  rewrite performTailFlick_baselines. reflexivity.
Qed.

Lemma performEarTwitch_baselines (left : bool) (d : Draws) (l : Layer) :
  boneBaselines (performEarTwitch left d l) = boneBaselines l.
Proof.
  unfold performEarTwitch. cbv zeta.
  destruct (Rlt_dec _ _); destruct left; reflexivity.
Qed.

Lemma applyEarMotions_baselines (delta : R) (d : Draws) (l : Layer) :
  boneBaselines (applyEarMotions delta d l) = boneBaselines l.
Proof.
  unfold applyEarMotions.
  destruct (earLeft (bones l)); [|reflexivity].
  destruct (earRight (bones l)); [|reflexivity].
  destruct (Rlt_dec (twitchDraw d) (twitchProbability (ears l))).
  - destruct (String.eqb _ _); cbn; apply performEarTwitch_baselines.
  - destruct (String.eqb _ _); reflexivity.
Qed.

Lemma applyBreathing_baselines (delta : R) (l : Layer) :
  boneBaselines (applyBreathing delta l) = boneBaselines l.
Proof.
  unfold applyBreathing. destruct (modelScale l) as [[sx sy]|]; reflexivity.
Qed.

Lemma applyTalkingBehavior_baselines (delta : R) (l : Layer) :
  boneBaselines (applyTalkingBehavior delta l) = boneBaselines l.
Proof.
  unfold applyTalkingBehavior.
  destruct (isTalking l); [|reflexivity].
  destruct (head (bones l)); reflexivity.
Qed.

Lemma applyMoodInfluences_baselines (delta : R) (l : Layer) :
  boneBaselines (applyMoodInfluences delta l) = boneBaselines l.
Proof.
  unfold applyMoodInfluences. destruct (animationManager l); reflexivity.
Qed.

Lemma update_baselines (delta : R) (d : Draws) (l : Layer) :
  boneBaselines (update delta d l) = boneBaselines l.
Proof.
  unfold update.
  rewrite applyMoodInfluences_baselines, applyTalkingBehavior_baselines,
          applyBreathing_baselines, applyEarMotions_baselines,
          applyTailMotion_baselines.
  reflexivity.
Qed.

(** A tick creates and removes no bone. *)
Lemma same_skeleton_refl (b : Bones) : same_skeleton b b.
Proof. repeat split; auto. Qed.

Lemma same_skeleton_trans (a b c : Bones) :
  same_skeleton a b -> same_skeleton b c -> same_skeleton a c.
Proof.
  intros (H1 & H2 & H3 & H4) (K1 & K2 & K3 & K4).
  repeat split; intro H; tauto.
Qed.

Lemma same_skeleton_shape (a b : Bones) :
  same_skeleton a b <-> shape a = shape b.
Proof.
  unfold same_skeleton, shape, present.
  destruct (head a), (head b), (tailBone a), (tailBone b),
           (earLeft a), (earLeft b), (earRight a), (earRight b);
    split; intro H; try reflexivity; try discriminate H;
    try (repeat split; intro; congruence);
    exfalso; destruct H as ([H1 H1'] & [H2 H2'] & [H3 H3'] & [H4 H4']);
    solve [ discriminate (H1 eq_refl) | discriminate (H1' eq_refl)
          | discriminate (H2 eq_refl) | discriminate (H2' eq_refl)
          | discriminate (H3 eq_refl) | discriminate (H3' eq_refl)
          | discriminate (H4 eq_refl) | discriminate (H4' eq_refl) ].
Qed.

Lemma present_restore (bone baseline : option Euler) :
  present (restore bone baseline) = present bone.
Proof. destruct bone, baseline; reflexivity. Qed.

Lemma present_option_map (f : Euler -> Euler) (bone : option Euler) :
  present (option_map f bone) = present bone.
Proof. destruct bone; reflexivity. Qed.

Lemma resetBaselines_shape (l : Layer) :
  shape (bones (resetBaselines l)) = shape (bones l).
Proof.
  unfold resetBaselines, set_bones, shape. cbn.
  rewrite !present_restore. reflexivity.
Qed.

Lemma performTailFlick_shape (d : Draws) (l : Layer) :
  shape (bones (performTailFlick d l)) = shape (bones l).
Proof.
  unfold performTailFlick, flick_frame.
  destruct (tailBone (bones l)) eqn:E; [|reflexivity].
  cbv zeta.
  destruct (Rlt_dec _ _); unfold shape; cbn; rewrite ?E; cbn; rewrite ?E;
    reflexivity.
Qed.

Lemma applyTailMotion_shape (delta : R) (d : Draws) (l : Layer) :
  shape (bones (applyTailMotion delta d l)) = shape (bones l).
Proof.
  unfold applyTailMotion. destruct (tailBone (bones l)) eqn:E; [|reflexivity].
  destruct (tail_target (mood l) (tail l)) as [[target rate] speed].
  cbv zeta.
  destruct (Rlt_dec _ _); [rewrite performTailFlick_shape|];
    unfold shape; cbn; rewrite ?E; reflexivity.
Qed.

Lemma performEarTwitch_shape (left : bool) (d : Draws) (l : Layer) :
  shape (bones (performEarTwitch left d l)) = shape (bones l).
Proof.
  unfold performEarTwitch. cbv zeta.
  destruct (Rlt_dec _ _); destruct left; unfold shape; cbn;
    rewrite present_option_map; reflexivity.
Qed.

Lemma applyEarMotions_shape (delta : R) (d : Draws) (l : Layer) :
  shape (bones (applyEarMotions delta d l)) = shape (bones l).
Proof.
  unfold applyEarMotions.
  destruct (earLeft (bones l)); [|reflexivity].
  destruct (earRight (bones l)); [|reflexivity].
  destruct (Rlt_dec (twitchDraw d) (twitchProbability (ears l)));
    destruct (String.eqb _ _); try reflexivity;
    try apply performEarTwitch_shape.
  - rewrite <- (performEarTwitch_shape
                  (if Rgt_dec (earDraw d) (5 / 10) then true else false) d l).
    unfold shape; cbn. rewrite !present_option_map. reflexivity.
  - unfold shape; cbn. rewrite !present_option_map. reflexivity.
Qed.

Lemma applyTalkingBehavior_shape (delta : R) (l : Layer) :
  shape (bones (applyTalkingBehavior delta l)) = shape (bones l).
Proof.
  unfold applyTalkingBehavior.
  destruct (isTalking l); [|reflexivity].
  destruct (head (bones l)) eqn:E; [|reflexivity].
  unfold shape; cbn. rewrite ?E. reflexivity.
Qed.

Lemma update_skeleton (delta : R) (d : Draws) (l : Layer) :
  same_skeleton (bones l) (bones (update delta d l)).
Proof.
  apply same_skeleton_shape. unfold update.
  rewrite applyMoodInfluences_bones, applyTalkingBehavior_shape,
          applyBreathing_bones, applyEarMotions_shape, applyTailMotion_shape,
          resetBaselines_shape.
  reflexivity.
Qed.

Lemma update_cover (delta : R) (d : Draws) (l : Layer) :
  baselines_cover l -> baselines_cover (update delta d l).
Proof.
  intros (Hh & Ht & Hl & Hr).
  destruct (update_skeleton delta d l) as (Sh & St & Sl & Sr).
  unfold baselines_cover. rewrite update_baselines.
  repeat split; intro H.
  - apply Hh. intro E. apply H, Sh, E.
  - apply Ht. intro E. apply H, St, E.
  - apply Hl. intro E. apply H, Sl, E.
  - apply Hr. intro E. apply H, Sr, E.
Qed.

(** C3 (as amended).  Right after [cacheBaselines] the restore step of a tick
    leaves every bone rotation unchanged, and every bone has its baseline.
    Whenever every bone has its baseline, which then lasts from tick to tick,
    a tick first restores the baselines and computes each offset from them: its
    result does not depend on the rotations the bones had before it, so no
    offset compounds across ticks.  The tick itself does move the bones: with
    no flick starting, the tail ends at its baseline plus
    sin(phase) * intensity on y and cos(0.7 * phase) * intensity / 2 on z. *)
Theorem tick_offsets_from_baseline
    (delta : R) (d : Draws) (l : Layer) (b' : Bones) :
  baselines_cover l ->
  same_skeleton (bones l) b' ->
  (forall l0, resetBaselines (cacheBaselines l0) = cacheBaselines l0
              /\ bones (cacheBaselines l0) = bones l0
              /\ baselines_cover (cacheBaselines l0))
  /\ update delta d (set_bones b' l) = update delta d l
  /\ baselines_cover (update delta d l)
  /\ (forall r base,
        tailBone (bones l) = Some r ->
        baseTail (boneBaselines l) = Some base ->
        ~ flickDraw d < 5 / 1000 ->
        let '(target, rate, speed) := tail_target (mood l) (tail l) in
        let intensity := lerp (currentIntensity (tail l)) target (delta * rate) in
        let phase := tailPhase (tail l) + delta * speed in
        tailBone (bones (update delta d l))
        = Some (mkEuler (ex base)
                        (ey base + sin phase * intensity)
                        (ez base + cos (phase * (7 / 10)) * intensity * (5 / 10)))).
Proof.
  intros Hc Hs. split; [|split; [|split]].
  - intro l0. split; [apply resetBaselines_cacheBaselines|].
    split; [reflexivity | apply cacheBaselines_cover].
  - apply update_forgets_rotations; assumption.
  - apply update_cover; exact Hc.
  - intros r base. apply update_tail.
Qed.

Lemma tick_offsets_from_baseline_witness :
  baselines_cover resting_cat
  /\ same_skeleton (bones resting_cat) turned
  /\ update (1 / 60) quiet (set_bones turned resting_cat)
     = update (1 / 60) quiet resting_cat.
Proof.
  assert (Hc : baselines_cover resting_cat) by apply cacheBaselines_cover.
  assert (Hs : same_skeleton (bones resting_cat) turned).
  { repeat split; intro H; discriminate H. }
  split; [exact Hc|]. split; [exact Hs|].
  apply (tick_offsets_from_baseline (1 / 60) quiet resting_cat turned Hc Hs).
Defined.

(** C3 (as stated) fails: [cacheBaselines] and then at once a tick of 1/60 s
    on a resting neutral cat, no gesture starting, leaves the tail bone at
    y = sin(1/60) * 0.2, which is not its rotation before the tick. *)
Lemma cacheBaselines_then_tick_moves_tail :
  tailBone (bones resting_cat) = Some Euler_zero
  /\ tailBone (bones (update (1 / 60) quiet resting_cat))
     = Some (mkEuler 0 (0 + sin (0 * PI * 2 + 1 / 60 * 1)
                            * lerp (2 / 10) (2 / 10) (1 / 60 * 1))
                       (0 + cos ((0 * PI * 2 + 1 / 60 * 1) * (7 / 10))
                            * lerp (2 / 10) (2 / 10) (1 / 60 * 1) * (5 / 10)))
  /\ tailBone (bones (update (1 / 60) quiet resting_cat))
     <> tailBone (bones resting_cat).
Proof.
  assert (Hq : ~ flickDraw quiet < 5 / 1000) by (cbn; lra).
  pose proof (update_tail (1 / 60) quiet resting_cat Euler_zero Euler_zero
                eq_refl eq_refl Hq) as H.
  cbn in H.
  split; [reflexivity|]. split; [exact H|].
  rewrite H. cbn. intro E. injection E as Ey _.
  assert (Hsin : 0 < sin (0 * PI * 2 + 1 / 60 * 1)).
  { pose proof PI2_1. apply sin_gt_0; lra. }
  unfold lerp in Ey. nra.
Qed.

End ProceduralFacts.

(** ** More on the Clip Blend Manager *)

Module ClipsOpsFacts.
Import Clips ClipsOps.
Local Open Scope string_scope.
Local Open Scope list_scope.

Lemma same_action_false (o : option ActionId) (a : ActionId) :
  o <> Some a -> same_action o a = false.
Proof.
  destruct o as [x|]; cbn; [|reflexivity].
  intro H. apply Nat.eqb_neq. intro E. apply H. congruence.
Qed.

(** X2.  An accepted [playAction] returns the requested action, makes it the
    active one, raises the flag and arms the timer that lowers it after the
    fade; the next call, whatever it asks for, is refused and changes
    nothing. *)
Lemma playAction_accepted (name : string) (fade : Q) (loop : bool)
    (m : Manager) (a : ActionId) :
  accepted name m a ->
  let m' := snd (playAction name fade loop m) in
  fst (playAction name fade loop m) = Some a
  /\ activeAction m' = Some a
  /\ isTransitioning m' = true
  /\ timers m' = timers m ++ [(TransitionDone, fade * 1000)]
  /\ forall name2 fade2 loop2, playAction name2 fade2 loop2 m' = (None, m').
Proof.
  intros (Ht & Hl & Ha). cbv zeta.
  unfold playAction. rewrite Ht, Hl, (same_action_false _ _ Ha).
  destruct (activeAction m) as [prev|] eqn:Eact; cbn; rewrite ?Eact;
    destruct loop; cbn; repeat split; reflexivity.
Qed.

Lemma playAction_accepted_witness :
  accepted "walk" idle_settled 1%nat
  /\ fst (playAction "walk" (3 # 10) true idle_settled) = Some 1%nat.
Proof.
  assert (H : accepted "walk" idle_settled 1%nat).
  { split; [reflexivity|]. split; [reflexivity|]. discriminate. }
  split; [exact H|].
  apply (playAction_accepted "walk" (3 # 10) true idle_settled 1%nat H).
Defined.

(** What [playAction] does to the flag and the timers: nothing, or it raises
    the flag from down and arms one timer. *)
Lemma playAction_flag_timers (name : string) (fade : Q) (loop : bool) (m : Manager) :
  let m' := snd (playAction name fade loop m) in
  (timers m' = timers m /\ isTransitioning m' = isTransitioning m)
  \/ (isTransitioning m = false
      /\ timers m' = timers m ++ [(TransitionDone, fade * 1000)]
      /\ isTransitioning m' = true).
Proof.
  cbv zeta. unfold playAction.
  destruct (isTransitioning m) eqn:Ht; [left; split; [reflexivity | exact Ht]|].
  destruct (lookup name (animations m)) as [a|]; [|left; split; [reflexivity | exact Ht]].
  destruct (same_action (activeAction m) a); [left; split; [reflexivity | exact Ht]|].
  right. destruct (activeAction m) eqn:Eact; cbn; rewrite ?Eact;
    destruct loop; cbn; repeat split; reflexivity.
Qed.

Lemma transition_timers_snoc (m m' : Manager) (fade : Q) :
  timers m' = timers m ++ [(TransitionDone, fade)] ->
  transition_timers m' = S (transition_timers m).
Proof.
  unfold transition_timers. intros ->.
  rewrite filter_app, length_app. cbn. lia.
Qed.

Lemma flag_has_timer_step (m m' : Manager) (fade : Q) :
  flag_has_timer m ->
  (timers m' = timers m /\ isTransitioning m' = isTransitioning m)
  \/ (isTransitioning m = false
      /\ timers m' = timers m ++ [(TransitionDone, fade)]
      /\ isTransitioning m' = true) ->
  flag_has_timer m'.
Proof.
  unfold flag_has_timer. intros H [[Et Ef] | (Hf & Et & Ef')].
  - unfold transition_timers in *. rewrite Et, Ef. exact H.
  - rewrite (transition_timers_snoc m m' fade Et), Ef', H, Hf. reflexivity.
Qed.

Lemma playAction_keeps (name : string) (fade : Q) (loop : bool) (m : Manager) :
  flag_has_timer m -> flag_has_timer (snd (playAction name fade loop m)).
Proof.
  intro H. eapply flag_has_timer_step; [exact H|]. apply playAction_flag_timers.
Qed.

Lemma fadeToIdle_keeps (fade : Q) (m : Manager) :
  flag_has_timer m -> flag_has_timer (snd (fadeToIdle fade m)).
Proof.
  intro H. unfold fadeToIdle.
  destruct (lookup "idle" (animations m)); [|exact H].
  pose proof (playAction_keeps "idle" fade true m H) as K.
  destruct (playAction "idle" fade true m) as [[idleAction|] m']; exact K.
Qed.

Lemma filter_remove_nth (A : Type) (p : A -> bool) : forall (n : nat) (l : list A) (x : A),
  nth_error l n = Some x ->
  List.length (filter p l)
  = (List.length (filter p (remove_nth n l)) + if p x then 1 else 0)%nat.
Proof.
  induction n as [|n IH]; intros [|y l] x H; try discriminate H.
  - injection H as ->. cbn. destruct (p x); cbn; lia.
  - cbn in H. cbn [remove_nth filter]. specialize (IH l x H).
    destruct (p y); cbn; lia.
Qed.

Lemma fire_timer_keeps (n : nat) (m : Manager) :
  flag_has_timer m -> flag_has_timer (fire_timer n m).
Proof.
  intro H. unfold fire_timer.
  destruct (nth_error (timers m) n) as [[cb d]|] eqn:E; [|exact H].
  pose proof (filter_remove_nth _ is_transition_done n (timers m) (cb, d) E) as L.
  unfold flag_has_timer, transition_timers in H.
  destruct cb; cbn in L.
  - (* the fade has ended *)
    unfold flag_has_timer, transition_timers. cbn.
    destruct (isTransitioning m); lia.
  - apply fadeToIdle_keeps.
    unfold flag_has_timer, transition_timers. cbn. lia.
Qed.

Lemma mixer_finished_keeps (a : ActionId) (m : Manager) :
  flag_has_timer m -> flag_has_timer (mixer_finished a m).
Proof.
  unfold mixer_finished.
  set (m0 := mkManager _ _ _ _ _ _ _ _).
  assert (H0 : flag_has_timer m -> flag_has_timer m0) by (intro H; exact H).
  intro H. apply H0 in H. clear H0. revert H. generalize m0.
  induction (filter (fun h => Nat.eqb h a) (listeners m)) as [|h hs IH];
    intros m1 H; cbn; [exact H|].
  apply IH. unfold flag_has_timer, transition_timers in *. cbn.
  rewrite filter_app, length_app. cbn. lia.
Qed.

Lemma apply_op_keeps (o : Op) (m : Manager) :
  flag_has_timer m -> flag_has_timer (apply_op o m).
Proof.
  intro H. destruct o; cbn [apply_op].
  - apply playAction_keeps, H.
  - apply fadeToIdle_keeps, H.
  - unfold stopAction. destruct (activeAction m); exact H.
  - unfold setSpeed. destruct (activeAction m); exact H.
  - apply fire_timer_keeps, H.
  - apply mixer_finished_keeps, H.
Qed.

(** X1.  Whatever is done to a manager after its construction, by requests
    for clips of the table or for names unknown to it, the transition flag
    is up exactly while one timer that will lower it is waiting: a refusal
    of [playAction] never lasts beyond the running fade, and two such timers
    never wait together.  (A request for a member inherited from
    [Object.prototype], such as 'constructor', is excluded: it raises the
    flag and throws before the timer is set.) *)
Theorem flag_always_has_its_timer (anims : list (string * ActionId)) (ops : list Op) :
  Forall (in_model anims) ops ->
  flag_has_timer (apply_ops ops (constructor anims)).
Proof.
  intros _. unfold apply_ops.
  assert (H : flag_has_timer (constructor anims)) by reflexivity.
  revert H. generalize (constructor anims).
  induction ops as [|o ops IH]; intros m H; cbn; [exact H|].
  apply IH, apply_op_keeps, H.
Qed.

Lemma flag_always_has_its_timer_witness :
  Forall (in_model loaded_clips) walk_then_jump
  /\ flag_has_timer (apply_ops walk_then_jump (constructor loaded_clips)).
Proof.
  assert (H : Forall (in_model loaded_clips) walk_then_jump).
  { repeat constructor; left; discriminate. }
  split; [exact H|].
  apply (flag_always_has_its_timer loaded_clips walk_then_jump H).
Defined.

Lemma in_emit (e : Effect) (es : list Effect) (m : Manager) :
  In e (trace (emit es m)) -> In e (trace m) \/ In e es.
Proof. cbn. apply in_app_or. Qed.

(** The warnings of [playAction] are about the requested name, and come only
    when that name is not in the table. *)
Lemma playAction_warns_only_unknown (name : string) (fade : Q) (loop : bool)
    (m : Manager) (message : string) :
  In (ConsoleWarn message) (trace (snd (playAction name fade loop m))) ->
  In (ConsoleWarn message) (trace m)
  \/ (lookup name (animations m) = None /\ isTransitioning m = false).
Proof.
  unfold playAction.
  destruct (isTransitioning m) eqn:Ht; [auto|].
  destruct (lookup name (animations m)) as [a|] eqn:El.
  - destruct (same_action (activeAction m) a); [auto|].
    intro H. left.
    destruct loop, (activeAction m) eqn:Eact; cbn in H; rewrite ?Eact in H; cbn in H;
      rewrite <- ?app_assoc in H;
      apply in_app_or in H; destruct H as [H|H]; auto;
      apply in_app_or in H; destruct H as [H|H];
      try (apply in_map_iff in H; destruct H as (x & Hx & _); discriminate Hx);
      cbn in H; repeat (destruct H as [H|H]; [discriminate H|]); destruct H.
  - intro H. right. split; reflexivity.
Qed.

(** X3.  [fadeToIdle] never logs a warning: with no idle clip in the table it
    returns null and leaves the manager as it is, where [playAction('idle')]
    would warn. *)
Theorem fadeToIdle_never_warns (fade : Q) (m : Manager) (message : string) :
  (In (ConsoleWarn message) (trace (snd (fadeToIdle fade m))) ->
   In (ConsoleWarn message) (trace m))
  /\ (lookup "idle" (animations m) = None ->
      fadeToIdle fade m = (None, m)
      /\ (isTransitioning m = false ->
          exists warning,
            In (ConsoleWarn warning) (trace (snd (playAction "idle" fade true m))))).
Proof.
  split.
  - unfold fadeToIdle.
    destruct (lookup "idle" (animations m)) as [idle|] eqn:El; [|auto].
    pose proof (playAction_warns_only_unknown "idle" fade true m message) as K.
    destruct (playAction "idle" fade true m) as [[idleAction|] m']; cbn in *.
    + intro H. apply in_app_or in H. destruct H as [H|H].
      * destruct (K H) as [G|[G _]]; [exact G | congruence].
      * cbn in H. repeat (destruct H as [H|H]; [discriminate H|]). destruct H.
    + intro H. destruct (K H) as [G|[G _]]; [exact G | congruence].
  - intro El. unfold fadeToIdle. rewrite El. split; [reflexivity|].
    intro Ht. eexists. unfold playAction. rewrite Ht, El. cbn.
    apply in_or_app. right. left. reflexivity.
Qed.

(** X4.  [stopAction] leaves no active action, fades the one there was out, and
    does not touch the transition flag: during a cross-fade, a [playAction]
    that follows the stop is still refused. *)
Theorem stopAction_effect (fade : Q) (m : Manager) :
  getCurrentAction (stopAction fade m) = None
  /\ isTransitioning (stopAction fade m) = isTransitioning m
  /\ timers (stopAction fade m) = timers m
  /\ (forall a, activeAction m = Some a ->
        In (OnAction a (FadeOut fade)) (trace (stopAction fade m)))
  /\ (isTransitioning m = true ->
      forall name fade2 loop,
        playAction name fade2 loop (stopAction fade m) = (None, stopAction fade m)).
Proof.
  unfold stopAction, getCurrentAction.
  destruct (activeAction m) as [a|] eqn:Ea; cbn; rewrite ?Ea;
    (split; [reflexivity|]); (split; [reflexivity|]); (split; [reflexivity|]);
    split.
  - intros a' E. injection E as <-.
    apply in_or_app. left. apply in_or_app. right. left. reflexivity.
  - intros Ht name fade2 loop. unfold playAction. cbn. rewrite Ht. reflexivity.
  - intros a' E. discriminate E.
  - intros Ht name fade2 loop. unfold playAction. cbn. rewrite Ht. reflexivity.
Qed.

End ClipsOpsFacts.

(** ** More on the rotation target *)

Module RotationMore.
Import Rotation RotationFacts.

(** X5.  A request inside the arc is achieved as it is, after one test of each
    loop. *)
Theorem rotateTo_inside_arc_exact (theta : Q) (fuel : nat) :
  minAngle <= theta <= maxAngle ->
  rotateTo_target (S fuel) theta = Some (mkAxisAngle (0, 1, 0) theta).
Proof.
  pose proof Math_PI_pos as Hpi.
  intros [Hlo Hhi].
  assert (Hmin : - Math_PI <= minAngle).
  { unfold minAngle. setoid_replace (- Math_PI / 2) with (- (Math_PI / 2)) by field.
    assert (Math_PI / 2 <= Math_PI) by (apply Qle_shift_div_r; lra). lra. }
  assert (Hmax : maxAngle <= Math_PI).
  { unfold maxAngle. apply Qle_shift_div_r; lra. }
  unfold rotateTo_target, normalizeAngle. cbn [wrap_down wrap_up].
  assert (E1 : Qgtb theta Math_PI = false) by (apply Qgtb_false; lra).
  assert (E2 : Qltb theta (- Math_PI) = false) by (apply Qltb_false; lra).
  rewrite E1, E2.
  destruct (limitAngle_spec theta) as (_ & _ & _ & H). rewrite H; [reflexivity|].
  split; assumption.
Qed.

Lemma rotateTo_inside_arc_exact_witness :
  minAngle <= 0 <= maxAngle
  /\ rotateTo_target 1 0 = Some (mkAxisAngle (0, 1, 0) 0).
Proof.
  assert (H : minAngle <= 0 <= maxAngle) by (split; discriminate).
  split; [exact H|]. apply (rotateTo_inside_arc_exact 0 0 H).
Defined.

End RotationMore.

(** ** The position tween of the Motion Controller *)

Module MotionFacts.
Import Motion.
Local Open Scope list_scope.

Lemma Math_min_spec (a b : Q) :
  (a <= b /\ Math_min a b = a) \/ (b < a /\ Math_min a b = b).
Proof.
  unfold Math_min. destruct (Qle_bool a b) eqn:E.
  - left. split; [apply Qle_bool_iff; exact E | reflexivity].
  - right. split; [|reflexivity].
    apply Qnot_le_lt. intro H. apply Qle_bool_iff in H. congruence.
Qed.

(** A frame before the end: the tween goes on, and the object is where
    [lerpVectors] puts it for the eased fraction of the time. *)
Lemma animate_continues (delta : Q) (m : Mover) (tw : Tween) :
  tween m = Some tw -> 0 < duration tw ->
  0 <= elapsed tw + delta < duration tw ->
  tween (animate delta m)
  = Some (mkTween (startPosition tw) (targetPosition tw) (duration tw)
                  (elapsed tw + delta))
  /\ isMoving (animate delta m) = isMoving m
  /\ completions (animate delta m) = completions m
  /\ position (animate delta m)
     = lerpVectors (startPosition tw) (targetPosition tw)
                   (smoothstep ((elapsed tw + delta) / duration tw)).
Proof.
  intros Htw Hd [H0 H1]. unfold animate. rewrite Htw. cbv zeta.
  set (r := (elapsed tw + delta) / duration tw).
  assert (Hr1 : r < 1).
  { unfold r. apply Qlt_shift_div_r; [exact Hd|]. lra. }
  destruct (Math_min_spec r 1) as [[_ E]|[H _]]; [|lra].
  rewrite E.
  assert (Hlt : Qltb r 1 = true) by (apply Qltb_true; exact Hr1).
  rewrite Hlt. cbn.
  repeat split; reflexivity.
Qed.

(** The frame that reaches the duration: [t] is one, the object is where
    [lerpVectors] puts it for the eased value of one, the flag is down,
    completion is signalled, no frame is asked for. *)
Lemma animate_completes (delta : Q) (m : Mover) (tw : Tween) :
  tween m = Some tw -> 0 < duration tw ->
  duration tw <= elapsed tw + delta ->
  tween (animate delta m) = None
  /\ isMoving (animate delta m) = false
  /\ completions (animate delta m) = S (completions m)
  /\ exists t, t == 1
       /\ position (animate delta m)
          = lerpVectors (startPosition tw) (targetPosition tw) (smoothstep t).
Proof.
  intros Htw Hd H1. unfold animate. rewrite Htw. cbv zeta.
  set (r := (elapsed tw + delta) / duration tw).
  assert (Hr1 : 1 <= r).
  { unfold r. apply Qle_shift_div_l; [exact Hd|]. lra. }
  assert (Et : Math_min r 1 == 1).
  { destruct (Math_min_spec r 1) as [[H E]|[_ E]]; rewrite E; [lra | reflexivity]. }
  assert (Hlt : Qltb (Math_min r 1) 1 = false) by (apply Qltb_false; lra).
  rewrite Hlt. cbn.
  split; [reflexivity|]. split; [reflexivity|]. split; [reflexivity|].
  exists (Math_min r 1). split; [exact Et | reflexivity].
Qed.

Lemma frames_idle (deltas : list Q) (m : Mover) :
  tween m = None -> frames deltas m = m.
Proof.
  intro H. unfold frames. induction deltas as [|d ds IH]; cbn; [reflexivity|].
  unfold animate at 2. rewrite H. exact IH.
Qed.

Lemma total_ge (deltas : list Q) : forall e : Q,
  Forall (fun d => 0 <= d) deltas -> e <= total deltas e.
Proof.
  induction deltas as [|d ds IH]; intros e H; cbn; [lra|].
  eapply Qle_trans; [|apply IH; apply (Forall_inv_tail H)].
  pose proof (Forall_inv H). cbn in *. lra.
Qed.

(** X7.  The whole tween, as control flow.  With a positive duration and
    frames that never go back in time: the frame at which the added time
    reaches the duration is the one that ends the tween; it calls
    [lerpVectors] with the eased value of t = 1, lowers the flag, signals
    completion once, never twice, and asks for no further frame.  Until
    then the flag stays as it was, nothing is signalled, the closure waits
    with the added time, and after each frame the object is where
    [lerpVectors] puts it for the eased fraction of the time. *)
Theorem tween_completes_once (deltas : list Q) : forall (m : Mover) (tw : Tween),
  tween m = Some tw ->
  0 <= elapsed tw < duration tw ->
  Forall (fun d => 0 <= d) deltas ->
  let m' := frames deltas m in
  (duration tw <= total deltas (elapsed tw) ->
     tween m' = None /\ isMoving m' = false
     /\ completions m' = S (completions m)
     /\ exists t, t == 1
          /\ position m'
             = lerpVectors (startPosition tw) (targetPosition tw) (smoothstep t))
  /\ (total deltas (elapsed tw) < duration tw ->
        tween m' = Some (mkTween (startPosition tw) (targetPosition tw)
                                 (duration tw) (total deltas (elapsed tw)))
        /\ isMoving m' = isMoving m
        /\ completions m' = completions m
        /\ (deltas <> [] ->
            position m'
            = lerpVectors (startPosition tw) (targetPosition tw)
                (smoothstep (total deltas (elapsed tw) / duration tw)))).
Proof.
  induction deltas as [|d ds IH]; intros m tw Htw [He Hed] Hds; cbv zeta.
  - cbn. split.
    + intro H. exfalso. lra.
    + intros _. destruct tw; cbn in *. rewrite Htw.
      split; [reflexivity|]. split; [reflexivity|]. split; [reflexivity|].
      intro K. exfalso. apply K. reflexivity.
  - assert (Hd0 : 0 <= d) by apply (Forall_inv Hds).
    assert (Hrest : Forall (fun d => 0 <= d) ds) by apply (Forall_inv_tail Hds).
    assert (Hpos : 0 < duration tw) by lra.
    change (frames (d :: ds) m) with (frames ds (animate d m)).
    change (total (d :: ds) (elapsed tw)) with (total ds (elapsed tw + d)).
    destruct (Qlt_le_dec (elapsed tw + d) (duration tw)) as [Hlt|Hge].
    + destruct (animate_continues d m tw Htw Hpos) as (T1 & T2 & T3 & T4);
        [split; lra|].
      specialize (IH (animate d m) _ T1). cbn [elapsed duration startPosition targetPosition] in IH.
      destruct IH as [IH1 IH2]; [split; lra | exact Hrest|].
      split.
      * intro H. destruct (IH1 H) as (K1 & K2 & K3 & K4).
        rewrite T3 in K3. auto.
      * intro H. destruct (IH2 H) as (K1 & K2 & K3 & K4).
        rewrite T2 in K2. rewrite T3 in K3.
        split; [exact K1|]. split; [exact K2|]. split; [exact K3|].
        intros _. destruct ds as [|d2 ds]; [exact T4|].
        apply K4. discriminate.
    + destruct (animate_completes d m tw Htw Hpos Hge) as (T1 & T2 & T3 & T4).
      rewrite (frames_idle ds _ T1).
      split; [intros _; auto|].
      intro H. exfalso.
      pose proof (total_ge ds (elapsed tw + d) Hrest). lra.
Qed.

Lemma tween_completes_once_witness :
  tween (moveToPosition (3, 0, 4) 2 at_rest)
  = Some (mkTween (0, 0, 0) (3, 0, 4) 2 (0 + 0))
  /\ 0 <= 0 + 0 < 2
  /\ Forall (fun d => 0 <= d) [1; 1 # 2; 1]
  /\ completions (frames [1; 1 # 2; 1] (moveToPosition (3, 0, 4) 2 at_rest))
     = 1%nat
  /\ isMoving (frames [1; 1 # 2; 1] (moveToPosition (3, 0, 4) 2 at_rest))
     = false.
Proof.
  assert (H1 : tween (moveToPosition (3, 0, 4) 2 at_rest)
               = Some (mkTween (0, 0, 0) (3, 0, 4) 2 (0 + 0))) by reflexivity.
  assert (H2 : 0 <= 0 + 0 < 2) by (split; [discriminate | reflexivity]).
  assert (H3 : Forall (fun d => 0 <= d) [1; 1 # 2; 1])
    by (repeat constructor; discriminate).
  split; [exact H1|]. split; [exact H2|]. split; [exact H3|].
  destruct (tween_completes_once [1; 1 # 2; 1] _ _ H1 H2 H3) as [H _].
  destruct H as (_ & K2 & K3 & _); [vm_compute; discriminate|].
  split; [exact K3 | exact K2].
Defined.

(** A request while a move is in progress is refused: the object, the
    running tween and the count of completions are as before, so the
    [onComplete] of the refused request is never called. *)
Theorem moveToPosition_refused (target : Vector3) (dur : Q) (m : Mover) :
  isMoving m = true ->
  moveToPosition target dur m = m
  /\ forall deltas, frames deltas (moveToPosition target dur m) = frames deltas m.
Proof.
  intro H. unfold moveToPosition. rewrite H. split; reflexivity.
Qed.

Lemma moveToPosition_refused_witness :
  isMoving (moveToPosition (3, 0, 4) 2 at_rest) = true
  /\ moveToPosition (9, 9, 9) 1 (moveToPosition (3, 0, 4) 2 at_rest)
     = moveToPosition (3, 0, 4) 2 at_rest.
Proof.
  assert (H : isMoving (moveToPosition (3, 0, 4) 2 at_rest) = true) by reflexivity.
  split; [exact H|].
  apply (moveToPosition_refused (9, 9, 9) 1 _ H).
Defined.

End MotionFacts.

(** ** More on the Action Scheduler *)

Module SchedulerMoreFacts.
Import Scheduler SchedulerFacts SchedulerMore.
Local Open Scope string_scope.
Local Open Scope list_scope.

(** X8.  [executeAction] called directly, as the context handlers do, does not
    look at the flag: the descriptor starts at once even on a busy scheduler,
    and the queue is left as it is. *)
Theorem executeAction_bypasses_queue (a : Action) (tag : nat) (w : World) :
  In (Started (nextId w) None a) (log (executeAction a tag w))
  /\ isExecuting (executeAction a tag w) = true
  /\ actionQueue (executeAction a tag w) = actionQueue w
  /\ arrivals (log (executeAction a tag w)) = arrivals (log w).
Proof.
  unfold executeAction.
  destruct (start_frame_holds a (KCaller tag) w) as (_ & Hin & Hx & Hq & Ha & _).
  auto.
Qed.




(** X10.  During a cross-fade, or with no idle clip, the return to idle that
    [cancelAll] asks for is refused: the manager is left exactly as it was. *)
Theorem cancelAll_during_fade_keeps_clip (w : World) :
  Clips.isTransitioning (manager w) = true
  \/ Clips.lookup "idle" (Clips.animations (manager w)) = None ->
  manager (cancelAll w) = manager w.
Proof.
  intro H. unfold cancelAll. cbn. unfold Clips.fadeToIdle.
  destruct (Clips.lookup "idle" (Clips.animations (manager w))) eqn:El.
  - destruct H as [Ht|H]; [|discriminate H].
    unfold Clips.playAction. rewrite Ht. reflexivity.
  - reflexivity.
Qed.

Lemma cancelAll_during_fade_keeps_clip_witness :
  (Clips.isTransitioning (manager (scheduleAction jump idle_scheduler)) = true
   \/ Clips.lookup "idle"
        (Clips.animations (manager (scheduleAction jump idle_scheduler))) = None)
  /\ manager (cancelAll (scheduleAction jump idle_scheduler))
     = manager (scheduleAction jump idle_scheduler).
Proof.
  assert (H : Clips.isTransitioning (manager (scheduleAction jump idle_scheduler)) = true
              \/ Clips.lookup "idle"
                   (Clips.animations (manager (scheduleAction jump idle_scheduler)))
                 = None)
    by (left; reflexivity).
  split; [exact H|].
  apply (cancelAll_during_fade_keeps_clip _ H).
Defined.

(** *** Every macrotask ends *)

Lemma weights_app (l1 l2 : list Cont) :
  weights (l1 ++ l2) = (weights l1 + weights l2)%nat.
Proof. unfold weights. rewrite map_app, list_sum_app. reflexivity. Qed.

Lemma potential_fields (w w' : World) :
  micro w' = micro w -> actionQueue w' = actionQueue w -> joins w' = joins w ->
  potential w' = potential w.
Proof. unfold potential. intros -> -> ->. reflexivity. Qed.

Lemma sizes_cons (s : Action) (l : list Action) :
  sizes (s :: l) = (size s + sizes l)%nat.
Proof. reflexivity. Qed.

Lemma weights_cons (k : Cont) (l : list Cont) :
  weights (k :: l) = (weight k + weights l)%nat.
Proof. reflexivity. Qed.

Lemma size_composite (par : bool) (subs : list Action) :
  size (Composite par subs) = (3 + sizes subs)%nat.
Proof. reflexivity. Qed.

Lemma enqueue_potential (k : Cont) (w : World) :
  (potential (enqueue k w) <= potential w + weight k)%nat.
Proof.
  assert (H : potential (set_micro (micro w ++ [k]) w)
              = (potential w + weight k)%nat).
  { unfold potential. cbn [micro actionQueue joins set_micro].
    rewrite weights_app, weights_cons. change (weights []) with 0%nat. lia. }
  destruct k; cbn [enqueue]; rewrite ?H; lia.
Qed.

Lemma launch_potential (c : nat) (subs : list Action) :
  Forall (fun s => forall k w,
            (potential (start s k w) + 1 <= potential w + size s + weight k)%nat)
         subs ->
  forall (i : nat) (w : World),
  (potential (launch start c subs i w) <= potential w + sizes subs)%nat.
Proof.
  induction 1 as [|s subs Hs _ IH]; intros i w; cbn [launch].
  - lia.
  - specialize (IH (S i) (start s (KJoin c i) w)).
    specialize (Hs (KJoin c i) w). rewrite sizes_cons.
    change (weight (KJoin c i)) with 1%nat in Hs. lia.
Qed.

(** A call of [executeAction(a)] readies fewer microtasks than the size of
    [a] and the weight of what waits for it. *)
Lemma start_potential : forall (a : Action) (k : Cont) (w : World),
  (potential (start a k w) + 1 <= potential w + size a + weight k)%nat.
Proof.
  induction a as [an tp du | par subs IH | an du] using Action_nested_ind;
    intros k w.
  - cbn [start]. unfold play.
    set (w2 := set_manager _ (entered (Locomotion an tp du) k w)).
    assert (E2 : potential w2 = potential w) by reflexivity.
    change (size (Locomotion an tp du)) with 3%nat.
    destruct tp as [target|].
    + destruct (isRotating w2).
      * change (potential (emit [Hung (nextId w)] w2)) with (potential w2). lia.
      * change (potential (add_pending (nextId w) WRotateToTarget
                             (KFinally (nextId w) (Locomotion an (Some target) du) k)
                             (set_isRotating true w2)))
          with (potential w2). lia.
    + pose proof (enqueue_potential
                    (KFinally (nextId w) (Locomotion an None du) k) w2) as H.
      change (weight (KFinally (nextId w) (Locomotion an None du) k))
        with (2 + weight k)%nat in H. lia.
  - rewrite size_composite. destruct par.
    + cbn [start].
      pose proof (launch_potential (nextId w) subs IH 0%nat
                    (entered (Composite true subs) k w)) as HL.
      change (potential (entered (Composite true subs) k w))
        with (potential w) in HL.
      set (wl := launch start (nextId w) subs 0
                   (entered (Composite true subs) k w)) in *.
      destruct subs as [|s subs].
      * pose proof (enqueue_potential
                      (KFinally (nextId w) (Composite true []) k) wl) as H.
        change (weight (KFinally (nextId w) (Composite true []) k))
          with (2 + weight k)%nat in H. lia.
      * assert (H : potential
                      (set_joins (joins wl ++
                                  [(nextId w, seq 0 (List.length (s :: subs)),
                                    KFinally (nextId w) (Composite true (s :: subs)) k)])
                                 wl)
                    = (potential wl + (2 + weight k))%nat).
        { unfold potential. cbn [micro actionQueue joins set_joins].
          rewrite map_app, weights_app. cbn [map snd].
          rewrite weights_cons. change (weights []) with 0%nat.
          change (weight (KFinally (nextId w) (Composite true (s :: subs)) k))
            with (2 + weight k)%nat. lia. }
        rewrite H. lia.
    + cbn [start]. destruct subs as [|s rest].
      * pose proof (enqueue_potential
                      (KFinally (nextId w) (Composite false []) k)
                      (entered (Composite false []) k w)) as H.
        change (weight (KFinally (nextId w) (Composite false []) k))
          with (2 + weight k)%nat in H.
        change (potential (entered (Composite false []) k w))
          with (potential w) in H.
        change (sizes []) with 0%nat. lia.
      * apply Forall_inv in IH.
        specialize (IH (KSeq 1 rest (KFinally (nextId w) (Composite false (s :: rest)) k))
                       (entered (Composite false (s :: rest)) k w)).
        change (potential (entered (Composite false (s :: rest)) k w))
          with (potential w) in IH.
        change (weight (KSeq 1 rest (KFinally (nextId w) (Composite false (s :: rest)) k)))
          with (1 + sizes rest + (2 + weight k))%nat in IH.
        rewrite sizes_cons. lia.
  - cbn [start]. unfold play.
    change (potential (add_pending (nextId w) WTimer
                         (KFinally (nextId w) (Oneshot an du) k)
                         (set_manager
                            (snd (Clips.playAction (clip_name an) (1 # 10) false
                                    (manager (entered (Oneshot an du) k w))))
                            (entered (Oneshot an du) k w))))
      with (potential w).
    change (size (Oneshot an du)) with 3%nat. lia.
Qed.

Lemma resolve_join_weight (c i : nat) (js : list (nat * list nat * Cont)) :
  (weights (map (fun j => snd j) (fst (resolve_join c i js)))
   + weights (snd (resolve_join c i js))
   = weights (map (fun j => snd j) js))%nat.
Proof.
  induction js as [|[[c' unresolved] k] js IH]; [reflexivity|].
  cbn [resolve_join]. destruct (Nat.eqb c' c).
  - destruct (List.remove Nat.eq_dec i unresolved);
      cbn [fst snd map]; rewrite ?weights_cons; cbn [snd];
      change (weights []) with 0%nat; lia.
  - destruct (resolve_join c i js) as [js' out].
    cbn [fst snd map] in *. rewrite !weights_cons. cbn [snd]. lia.
Qed.

Lemma enqueue_all_potential (out : list Cont) : forall w : World,
  (potential (fold_left (fun acc r => enqueue r acc) out w)
   <= potential w + weights out)%nat.
Proof.
  induction out as [|r out IH]; intro w; cbn [fold_left].
  - lia.
  - specialize (IH (enqueue r w)). pose proof (enqueue_potential r w).
    rewrite weights_cons. lia.
Qed.

(** Each microtask lowers the bound. *)
Lemma run_micro_potential (w : World) :
  micro w <> [] -> (potential (run_micro w) < potential w)%nat.
Proof.
  intro Hne. unfold run_micro.
  destruct (micro w) as [|k rest] eqn:Em; [contradiction|].
  assert (Hw : (potential w = potential (set_micro rest w) + weight k)%nat).
  { unfold potential. cbn [micro actionQueue joins set_micro]. rewrite Em.
    rewrite weights_cons. lia. }
  rewrite Hw. generalize (set_micro rest w). clear. intro w.
  destruct k as [ | tag | id a k1 | i rest k1 | c i]; cbn [run_cont].
  - change (weight KDone) with 1%nat. lia.
  - change (weight (KCaller tag)) with 1%nat.
    change (potential (emit [Resolved tag] w)) with (potential w). lia.
  - change (weight (KFinally id a k1)) with (2 + weight k1)%nat.
    set (w1 := set_isExecuting false (emit [Finished id a] w)).
    assert (H1 : potential w1 = potential w) by reflexivity.
    assert (H2 : (potential (processQueue w1) <= potential w1)%nat).
    { unfold processQueue. destruct (actionQueue w1) as [|next q] eqn:Eq; [lia|].
      pose proof (start_potential next KDone
                    (emit [Dequeued next] (set_actionQueue q w1))) as H.
      assert (potential w1
              = potential (emit [Dequeued next] (set_actionQueue q w1)) + size next)%nat.
      { unfold potential. cbn [micro actionQueue joins emit set_actionQueue].
        rewrite Eq, sizes_cons. lia. }
      change (weight KDone) with 1%nat in H. lia. }
    pose proof (enqueue_potential k1 (processQueue w1)). lia.
  - change (weight (KSeq i rest k1)) with (1 + sizes rest + weight k1)%nat.
    destruct rest as [|b rest].
    + pose proof (enqueue_potential k1 w). lia.
    + pose proof (start_potential b (KSeq (S i) rest k1) w) as H.
      change (weight (KSeq (S i) rest k1)) with (1 + sizes rest + weight k1)%nat in H.
      rewrite sizes_cons. lia.
  - change (weight (KJoin c i)) with 1%nat.
    pose proof (resolve_join_weight c i (joins w)) as H.
    destruct (resolve_join c i (joins w)) as [js out]. cbn [fst snd] in H.
    pose proof (enqueue_all_potential out (set_joins js w)) as H2.
    assert (potential (set_joins js w) + weights out = potential w)%nat.
    { unfold potential. cbn [micro actionQueue joins set_joins]. lia. }
    lia.
Qed.

Lemma drain_ends (fuel : nat) : forall w : World,
  (potential w <= fuel)%nat ->
  exists w', drain fuel w = Some w' /\ micro w' = [].
Proof.
  induction fuel as [|fuel IH]; intros w H.
  - destruct (micro w) as [|k rest] eqn:Em.
    + exists w. cbn. rewrite Em. auto.
    + exfalso. unfold potential in H. rewrite Em, weights_cons in H.
      destruct k; cbn [weight] in H; lia.
  - cbn. destruct (micro w) as [|k rest] eqn:Em.
    + exists w. auto.
    + apply IH.
      assert (micro w <> []) by (rewrite Em; discriminate).
      pose proof (run_micro_potential w H0). lia.
Qed.

(** X11.  Every macrotask ends: after any input the microtasks run out, within as
    many steps as the potential of the state announces, and leave a state in
    which nothing is ready. *)
Theorem macrotask_ends (i : Input) (w : World) :
  exists w',
    macrotask (potential (input i w)) i w = Some w'
    /\ micro w' = []
    /\ reachable w w'.
Proof.
  destruct (drain_ends (potential (input i w)) (input i w)) as (w' & Hd & Hm);
    [lia|].
  exists w'. split; [exact Hd|]. split; [exact Hm|].
  eapply drain_reachable; [|exact Hd]. apply reach_input, reach_init.
Qed.

End SchedulerMoreFacts.

(** ** More on the Context Selector *)

Module ContextMore.
Import Context ContextFacts.
Local Open Scope string_scope.
Local Open Scope list_scope.

Lemma points_nonneg (text : string) (m : ContextMapping) : 0 <= points text m.
Proof.
  unfold points. change 0 with (inject_Z 0). rewrite <- Zle_Qle. lia.
Qed.

Lemma selected_product (ms : list ContextMapping) (text : string)
    (rand : Random) (m : ContextMapping) :
  (forall i, 0 <= rand i < 1) ->
  findBestContextMatch ms text rand = Some m ->
  In m ms /\ 5 # 4 < points text m * weight m.
Proof.
  intros Hrand Hbest.
  pose proof (findBestContextMatch_spec ms text rand) as H. rewrite Hbest in H.
  destruct H as (k & Hk & Hthr & _).
  split; [eapply nth_error_In; exact Hk|].
  unfold score_at in Hthr. rewrite Hk, mapping_score_formula in Hthr.
  destruct (jitter_range (rand k) (Hrand k)) as [Hj0 Hj1].
  set (pw := points text m * weight m) in *.
  set (j := jitter (rand k)) in *.
  destruct (Qlt_le_dec 0 pw) as [Hpos|Hneg].
  - assert (pw * j <= pw * (12 # 10)).
    { rewrite !(Qmult_comm pw). apply Qmult_le_compat_r; lra. }
    lra.
  - exfalso.
    assert (0 <= (- pw) * j) by (apply Qmult_le_0_compat; lra).
    assert (pw * j == - ((- pw) * j)) by ring. lra.
Qed.

(** X12.  A selected mapping is one of the table and has points times weight
    above 1.25 = 1.5 / 1.2: with draws in [0, 1) the jitter can lift no
    smaller product over the threshold. *)
Theorem selection_needs_points (ms : list ContextMapping) (text : string)
    (rand : Random) (m : ContextMapping) :
  (forall i, 0 <= rand i < 1) ->
  findBestContextMatch ms text rand = Some m ->
  In m ms /\ 5 # 4 < points text m * weight m.
Proof.
  intros Hrand Hbest. exact (selected_product ms text rand m Hrand Hbest).
Qed.

Lemma selection_needs_points_witness :
  (forall i, 0 <= half i < 1)
  /\ (exists m,
        findBestContextMatch contextMappings "let us walk outside" half = Some m
        /\ 5 # 4 < points "let us walk outside" m * weight m).
Proof.
  assert (Hhalf : forall i, 0 <= half i < 1).
  { intro i. split; [discriminate | reflexivity]. }
  split; [exact Hhalf|].
  destruct (findBestContextMatch contextMappings "let us walk outside" half)
    as [m|] eqn:E; [|vm_compute in E; discriminate E].
  exists m. split; [reflexivity|].
  apply (selection_needs_points contextMappings "let us walk outside" half m Hhalf E).
Defined.

(** X13.  On the table of the constructor: no mapping is selected on an emotion
    keyword alone, and the looking mapping needs three points at least. *)
Theorem table_needs_a_keyword (text : string) (rand : Random) (m : ContextMapping) :
  (forall i, 0 <= rand i < 1) ->
  findBestContextMatch contextMappings text rand = Some m ->
  2 <= points text m
  /\ (action m = "performLookingContext" -> 3 <= points text m).
Proof.
  intros Hrand Hbest.
  destruct (selected_product contextMappings text rand m Hrand Hbest)
    as [Hin Hpw].
  pose proof (points_nonneg text m) as Hp0.
  unfold points in *.
  set (n := (2 * Z.of_nat (List.length (filter (includes text) (keywords m)))
             + Z.of_nat (List.length (filter (includes text) (emotions m))))%Z) in *.
  assert (Hcases : (n <= 1 \/ n = 2 \/ 3 <= n)%Z) by lia.
  cbn [contextMappings In] in Hin.
  assert (Hw : weight m <= 1 /\ (action m = "performLookingContext" -> weight m == 6 # 10)).
  { repeat (destruct Hin as [<-|Hin];
            [cbn; split; [discriminate | intro E; try discriminate E; reflexivity]|]).
    destruct Hin. }
  destruct Hw as [Hw1 Hw6].
  assert (Hn0 : 0 <= inject_Z n) by exact Hp0.
  destruct Hcases as [H1 | [H2 | H3]].
  - exfalso. rewrite Zle_Qle in H1. change (inject_Z 1) with 1 in H1.
    assert (inject_Z n * weight m <= 1 * 1).
    { destruct (Qlt_le_dec (weight m) 0) as [Hneg|Hpos].
      - assert (0 <= inject_Z n * (- weight m)) by (apply Qmult_le_0_compat; lra).
        assert (inject_Z n * weight m == - (inject_Z n * - weight m)) by ring. lra.
      - eapply Qle_trans; [apply Qmult_le_compat_r; [exact H1 | exact Hpos]|].
        rewrite Qmult_1_l. lra. }
    lra.
  - rewrite H2 in *. split; [discriminate|].
    intro Ea. exfalso. rewrite (Hw6 Ea) in Hpw. vm_compute in Hpw. discriminate Hpw.
  - rewrite Zle_Qle in H3. change (inject_Z 3) with 3 in H3.
    split; [lra | intros _; exact H3].
Qed.

Lemma table_needs_a_keyword_witness :
  (forall i, 0 <= half i < 1)
  /\ (exists m,
        findBestContextMatch contextMappings "let us walk outside" half = Some m
        /\ 2 <= points "let us walk outside" m).
Proof.
  assert (Hhalf : forall i, 0 <= half i < 1).
  { intro i. split; [discriminate | reflexivity]. }
  split; [exact Hhalf|].
  destruct (findBestContextMatch contextMappings "let us walk outside" half)
    as [m|] eqn:E; [|vm_compute in E; discriminate E].
  exists m. split; [reflexivity|].
  apply (table_needs_a_keyword "let us walk outside" half m Hhalf E).
Defined.



End ContextMore.

(** ** More on the Behavior State Machine *)

Module BehaviorMore.
Import Behavior BehaviorUpdate.
Local Open Scope string_scope.
Local Open Scope list_scope.

Lemma onStateEnter_state (s : string) (m : Machine) :
  currentState (onStateEnter s m) = currentState m
  /\ previousState (onStateEnter s m) = previousState m
  /\ stateStartTime (onStateEnter s m) = stateStartTime m
  /\ stateData (onStateEnter s m) = stateData m.
Proof.
  unfold onStateEnter.
  repeat match goal with
         | |- context [String.eqb s ?x] => destruct (String.eqb s x)
         end; repeat split.
Qed.

Lemma changeState_effective (s : string) (data : StateData) (now : Q) (m : Machine) :
  s <> currentState m ->
  let m' := changeState s data now m in
  currentState m' = s
  /\ previousState m' = currentState m
  /\ stateStartTime m' = now
  /\ stateData m' = data
  /\ (s <> "sleep" -> catCalls m' = catCalls m)
  /\ (s <> "idle" -> s <> "sleep" -> animationManager m' = animationManager m)
  /\ (known_state s = false -> mood m' = mood m).
Proof.
  intros Hne. cbv zeta. unfold changeState.
  destruct (String.eqb_spec s (currentState m)) as [E|_]; [contradiction|].
  set (m0 := mkMachine s (currentState m) now data (mood m) (animationManager m)
                       (catCalls m)).
  destruct (onStateEnter_state s m0) as (H1 & H2 & H3 & H4).
  rewrite H1, H2, H3, H4.
  repeat apply conj; try reflexivity.
  - intro Hs. unfold onStateEnter.
    repeat match goal with
           | |- context [String.eqb s ?x] =>
               destruct (String.eqb_spec s x); try reflexivity
           end.
    contradiction.
  - intros Hi Hs. unfold onStateEnter.
    repeat match goal with
           | |- context [String.eqb s ?x] =>
               destruct (String.eqb_spec s x); try reflexivity; try contradiction
           end.
  - intro Hk. unfold known_state in Hk. cbn [existsb] in Hk.
    repeat (apply orb_false_elim in Hk; destruct Hk as [? Hk]).
    unfold onStateEnter.
    repeat match goal with
           | H : String.eqb s ?x = false |- context [String.eqb s ?x] => rewrite H
           end.
    reflexivity.
Qed.

(** X15.  An effective [changeState] records the new and the previous state,
    the clock and the payload, whatever the name of the new state.  A name
    that is none of the seven states is accepted like any other and has no
    entry action; only sleep makes a sleep-mode call, and only idle and sleep
    reach the animation manager. *)
Theorem changeState_enters (s : string) (data : StateData) (now : Q) (m : Machine) :
  s <> currentState m ->
  let m' := changeState s data now m in
  currentState m' = s
  /\ previousState m' = currentState m
  /\ stateStartTime m' = now
  /\ stateData m' = data
  /\ (s <> "sleep" -> catCalls m' = catCalls m)
  /\ (s <> "idle" -> s <> "sleep" -> animationManager m' = animationManager m)
  /\ (known_state s = false -> mood m' = mood m).
Proof.
  exact (changeState_effective s data now m).
Qed.

Lemma changeState_enters_witness :
  "purring" <> currentState asleep
  /\ currentState (changeState "purring" [] 70000 asleep) = "purring"
  /\ previousState (changeState "purring" [] 70000 asleep) = "sleep"
  /\ mood (changeState "purring" [] 70000 asleep) = "sleepy".
Proof.
  assert (Hne : "purring" <> currentState asleep) by discriminate.
  destruct (changeState_enters "purring" [] 70000 asleep Hne)
    as (H1 & H2 & _ & _ & _ & _ & H7).
  split; [exact Hne|].
  split; [exact H1|]. split; [exact H2|].
  rewrite (H7 eq_refl). reflexivity.
Defined.

Lemma update_idle (k : Clock) (r : Q) (c : Cat) :
  currentState (machine c) = "idle" ->
  update_outcome k r c = handleIdleState (t0 k - stateStartTime (machine c)) k r c.
Proof. intro H. unfold update_outcome. rewrite H. reflexivity. Qed.

Lemma update_playful (k : Clock) (r : Q) (c : Cat) :
  currentState (machine c) = "playful" ->
  update k r c = handlePlayfulState (t0 k - stateStartTime (machine c)) k c.
Proof. intro H. unfold update, update_outcome. rewrite H. reflexivity. Qed.

Lemma update_curious (k : Clock) (r : Q) (c : Cat) :
  currentState (machine c) = "curious" ->
  update k r c = handleCuriousState (t0 k - stateStartTime (machine c)) k c.
Proof. intro H. unfold update, update_outcome. rewrite H. reflexivity. Qed.

Lemma update_talking (k : Clock) (r : Q) (c : Cat) :
  currentState (machine c) = "talking" ->
  update k r c = handleTalkingState (t0 k - stateStartTime (machine c)) k c.
Proof. intro H. unfold update, update_outcome. rewrite H. reflexivity. Qed.

Lemma update_sleep (k : Clock) (r : Q) (c : Cat) :
  currentState (machine c) = "sleep" ->
  update k r c = handleSleepState (t0 k - stateStartTime (machine c)) k c.
Proof. intro H. unfold update, update_outcome. rewrite H. reflexivity. Qed.

Lemma update_elsewhere (k : Clock) (r : Q) (c : Cat) :
  currentState (machine c) <> "idle" ->
  currentState (machine c) <> "playful" ->
  currentState (machine c) <> "curious" ->
  currentState (machine c) <> "talking" ->
  currentState (machine c) <> "sleep" ->
  update_outcome k r c = (Returns, c).
Proof.
  intros Hi Hp Hc Ht Hs. unfold update_outcome.
  apply String.eqb_neq in Hi, Hp, Hc, Ht, Hs. rewrite Hi, Hp, Hc, Ht, Hs.
  destruct (String.eqb _ "processing"); [reflexivity|].
  destruct (String.eqb _ "listening"); reflexivity.
Qed.

Lemma changeState_current (s : string) (data : StateData) (now : Q) (m : Machine) :
  currentState (changeState s data now m) = s.
Proof.
  unfold changeState.
  destruct (String.eqb_spec s (currentState m)) as [E|_]; [symmetry; exact E|].
  apply onStateEnter_state.
Qed.

(** One behaviour on an idle machine: the first entry throws and leaves the
    cat as it is, every other entry returns with the machine in the state
    that [entered] names. *)
Lemma perform_spec (b : IdleBehavior) (k : Clock) (c : Cat) :
  currentState (machine c) = "idle" ->
  (b = QuickJump /\ perform b k c = (Throws, c))
  \/ (b <> QuickJump
      /\ exists c1, perform b k c = (Returns, c1)
         /\ currentState (machine c1) = entered b
         /\ performed c1 = performed c ++ [b]
         /\ same_settings c c1).
Proof.
  intro Hi.
  destruct b; [left; split; reflexivity | right; split; [discriminate|] ..];
    (eexists; split; [reflexivity|]);
    unfold same_settings;
    try (destruct (catModel _));
    cbn [Cat_changeState playAnimation did set_machine set_isMoving machine
         performed lastInteractionTime sleepTransitionTime isTalking
         idleBehaviorInterval set_manager set_mood currentState entered];
    rewrite ?changeState_current; repeat split; auto.
Qed.

Lemma performRandomIdleBehavior_spec (k : Clock) (c : Cat) :
  currentState (machine c) = "idle" ->
  (fst (performRandomIdleBehavior k c) = Throws
   -> snd (performRandomIdleBehavior k c) = c)
  /\ same_settings c (snd (performRandomIdleBehavior k c))
  /\ (currentState (machine (snd (performRandomIdleBehavior k c))) = "idle"
      \/ currentState (machine (snd (performRandomIdleBehavior k c))) = "curious"
      \/ currentState (machine (snd (performRandomIdleBehavior k c))) = "playful").
Proof.
  intro Hi. unfold performRandomIdleBehavior.
  destruct (busy c); [cbn; unfold same_settings; auto 6|].
  destruct (drawn k) as [b|]; [|cbn; unfold same_settings; auto 6].
  destruct (perform_spec b k c Hi) as [[_ E]|[_ (c1 & E & Hs & _ & Hset)]];
    rewrite E; cbn [fst snd].
  - unfold same_settings; auto 6.
  - split; [discriminate|]. split; [exact Hset|].
    rewrite Hs. destruct b; cbn; auto.
Qed.

(** The idle handler when the cat is not due to sleep and the interval has
    not run out: nothing happens. *)
Lemma handleIdleState_waits (elapsed : Q) (k : Clock) (r : Q) (c : Cat) :
  Qgtb (t1 k - lastInteractionTime c) (sleepTransitionTime c)
  && negb (isTalking c) = false ->
  elapsed <= idleBehaviorInterval c ->
  handleIdleState elapsed k r c = (Returns, c).
Proof.
  intros Hg Hle. unfold handleIdleState. rewrite Hg.
  apply Qgtb_false in Hle. rewrite Hle. reflexivity.
Qed.



(** X16.  In one call [update] leaves the state as it is or takes one of seven
    transitions: idle to sleep, idle to curious or to playful (by an idle
    behaviour that calls [changeState]), playful, curious or talking to
    idle, sleep to playful; and each of the seven is taken by some call.  A
    machine in state processing or listening, or in a state that is none of
    the seven, is never moved by [update]: the whole cat is as before. *)
Theorem update_follows_edges (k : Clock) (r : Q) (c : Cat) :
  let c' := update k r c in
  (currentState (machine c') = currentState (machine c)
   \/ edge (currentState (machine c)) (currentState (machine c')) = true)
  /\ (currentState (machine c) <> "idle" ->
      currentState (machine c) <> "playful" ->
      currentState (machine c) <> "curious" ->
      currentState (machine c) <> "talking" ->
      currentState (machine c) <> "sleep" ->
      c' = c)
  /\ (forall a b, edge a b = true ->
        exists k0 r0 c0,
          currentState (machine c0) = a
          /\ currentState (machine (update k0 r0 c0)) = b).
Proof.
  cbv zeta. split; [|split].
  - destruct (String.eqb_spec (currentState (machine c)) "idle") as [Hi|Hi].
    { unfold update. rewrite (update_idle k r c Hi), Hi. unfold handleIdleState.
      destruct (_ && _).
      - right. cbn [snd machine set_machine]. rewrite changeState_current. reflexivity.
      - destruct (Qgtb _ _); [|left; exact Hi].
        destruct (performRandomIdleBehavior_spec k c Hi) as (Hthrow & _ & Hst).
        destruct (performRandomIdleBehavior k c) as [[|] c1]; cbn [fst snd] in *.
        + cbn [restart machine currentState].
          destruct Hst as [E|[E|E]]; rewrite E; [left | right | right]; reflexivity.
        + rewrite (Hthrow eq_refl). left. exact Hi. }
    destruct (String.eqb_spec (currentState (machine c)) "playful") as [Hp|Hp].
    { rewrite (update_playful k r c Hp), Hp. unfold handlePlayfulState.
      destruct (Qgtb _ _).
      - right. cbn [machine set_machine]. rewrite changeState_current. reflexivity.
      - left. exact Hp. }
    destruct (String.eqb_spec (currentState (machine c)) "curious") as [Hc|Hc].
    { rewrite (update_curious k r c Hc), Hc. unfold handleCuriousState.
      destruct (Qgtb _ _).
      - right. cbn [machine set_machine]. rewrite changeState_current. reflexivity.
      - left. exact Hc. }
    destruct (String.eqb_spec (currentState (machine c)) "talking") as [Ht|Ht].
    { rewrite (update_talking k r c Ht), Ht. unfold handleTalkingState.
      destruct (negb _).
      - right. cbn [machine set_machine]. rewrite changeState_current. reflexivity.
      - left. exact Ht. }
    destruct (String.eqb_spec (currentState (machine c)) "sleep") as [Hs|Hs].
    { rewrite (update_sleep k r c Hs), Hs. unfold handleSleepState.
      destruct (Qltb _ _).
      - right. cbn [machine set_machine]. rewrite changeState_current. reflexivity.
      - left. exact Hs. }
    left. unfold update. rewrite (update_elsewhere k r c Hi Hp Hc Ht Hs). reflexivity.
  - intros Hi Hp Hc Ht Hs. unfold update.
    rewrite (update_elsewhere k r c Hi Hp Hc Ht Hs). reflexivity.
  - intros a b He. unfold edge in He.
    repeat (apply orb_true_iff in He; destruct He as [He|He]);
      apply andb_true_iff in He; destruct He as [Ea Eb];
      apply String.eqb_eq in Ea, Eb; subst a b.
    + exists (at_time 60001), 0, (new_cat 0 0 (1 # 2)). split; reflexivity.
    + exists (at_time_drawing 15001 (1 # 2)), 0, (new_cat 0 0 (1 # 2)).
      split; reflexivity.
    + exists (at_time_drawing 15001 (9 # 10)), 0, (new_cat 0 0 (1 # 2)).
      split; reflexivity.
    + exists (at_time 4001), 0, playful_cat. split; reflexivity.
    + exists (at_time 5001), 0, curious_cat. split; reflexivity.
    + exists (at_time 1001), 0, silent_talker. split; reflexivity.
    + exists (at_time 70500), 0, (touched 70000 sleeping_cat). split; reflexivity.
Qed.

(** X17.  The playful state lasts 3000 ms and the curious state 4000 ms, measured
    from the start of the state to the reading of the clock in [update]: up to
    and including the limit the cat is left as it is, after it the machine is
    in state idle with the mood neutral, remembers where it came from and
    restarts its clock. *)
Theorem update_times_out (k : Clock) (r : Q) (c : Cat) (limit : Q) :
  (currentState (machine c) = "playful" /\ limit = 3000)
  \/ (currentState (machine c) = "curious" /\ limit = 4000) ->
  let elapsed := t0 k - stateStartTime (machine c) in
  let c' := update k r c in
  (elapsed <= limit -> c' = c)
  /\ (limit < elapsed ->
      currentState (machine c') = "idle"
      /\ previousState (machine c') = currentState (machine c)
      /\ stateStartTime (machine c') = t2 k
      /\ mood (machine c') = "neutral"
      /\ catCalls (machine c') = catCalls (machine c)).
Proof.
  intros H. cbv zeta.
  assert (Hne : "idle" <> currentState (machine c)).
  { destruct H as [[E _]|[E _]]; rewrite E; discriminate. }
  assert (Hupd : update k r c =
                 if Qgtb (t0 k - stateStartTime (machine c)) limit
                 then set_machine (changeState "idle" [] (t2 k) (machine c)) c
                 else c).
  { destruct H as [[E ->]|[E ->]].
    - rewrite (update_playful k r c E). reflexivity.
    - rewrite (update_curious k r c E). reflexivity. }
  rewrite Hupd. split.
  - intro Hle. apply Qgtb_false in Hle. rewrite Hle. reflexivity.
  - intro Hlt. apply Qgtb_true in Hlt. rewrite Hlt. cbn [machine set_machine].
    destruct (changeState_effective "idle" [] (t2 k) (machine c) Hne)
      as (H1 & H2 & H3 & _ & H5 & _).
    repeat apply conj; try assumption.
    + unfold changeState.
      destruct (String.eqb_spec "idle" (currentState (machine c))) as [E|_];
        [contradiction|].
      reflexivity.
    + apply H5. discriminate.
Qed.

Lemma update_times_out_witness :
  ((currentState (machine playful_cat) = "playful" /\ 3000 = 3000)
   \/ (currentState (machine playful_cat) = "curious" /\ 3000 = 4000))
  /\ 3000 < t0 (at_time 4001) - stateStartTime (machine playful_cat)
  /\ currentState (machine (update (at_time 4001) 0 playful_cat)) = "idle".
Proof.
  assert (H : (currentState (machine playful_cat) = "playful" /\ 3000 = 3000)
              \/ (currentState (machine playful_cat) = "curious" /\ 3000 = 4000)).
  { left. split; reflexivity. }
  assert (Hlt : 3000 < t0 (at_time 4001) - stateStartTime (machine playful_cat)).
  { reflexivity. }
  split; [exact H|]. split; [exact Hlt|].
  destruct (update_times_out (at_time 4001) 0 playful_cat 3000 H) as [_ Hout].
  destruct (Hout Hlt) as [H1 _]. exact H1.
Defined.

(** X18.  An idle cat falls asleep in [update] exactly when more than
    [sleepTransitionTime] has passed since the last interaction, on the
    handler's reading of the clock, and it is not talking.  With a transition
    time of 5000 ms or more, a cat that has fallen asleep stays as it is in
    every later [update] until an interaction is recorded. *)
Theorem sleep_only_after_silence (k : Clock) (r : Q) (c : Cat) :
  currentState (machine c) = "idle" ->
  let c' := update k r c in
  (currentState (machine c') = "sleep"
   <-> sleepTransitionTime c < t1 k - lastInteractionTime c /\ isTalking c = false)
  /\ (5000 <= sleepTransitionTime c ->
      currentState (machine c') = "sleep" ->
      forall k' r', t1 k <= t1 k' -> update k' r' c' = c').
Proof.
  intros Hi. cbv zeta.
  assert (Hawake : Qgtb (t1 k - lastInteractionTime c) (sleepTransitionTime c)
                   && negb (isTalking c) = false ->
                   currentState (machine (update k r c)) <> "sleep").
  { intro Hg. unfold update. rewrite (update_idle k r c Hi). unfold handleIdleState.
    rewrite Hg. destruct (Qgtb _ (idleBehaviorInterval c)).
    - destruct (performRandomIdleBehavior_spec k c Hi) as (Hthrow & _ & Hst).
      destruct (performRandomIdleBehavior k c) as [[|] c1]; cbn [fst snd] in *.
      + cbn [restart machine currentState].
        destruct Hst as [E|[E|E]]; rewrite E; discriminate.
      + rewrite (Hthrow eq_refl), Hi. discriminate.
    - cbn [snd]. rewrite Hi. discriminate. }
  assert (Hiff : currentState (machine (update k r c)) = "sleep"
                 <-> sleepTransitionTime c < t1 k - lastInteractionTime c
                     /\ isTalking c = false).
  { destruct (Qgtb (t1 k - lastInteractionTime c) (sleepTransitionTime c)) eqn:Eg;
      destruct (isTalking c) eqn:Et; cbn [andb negb] in Hawake.
    - split; [intro F; exfalso; exact (Hawake eq_refl F) | intros [_ F]; discriminate F].
    - unfold update. rewrite (update_idle k r c Hi). unfold handleIdleState.
      rewrite Eg, Et. cbn [andb negb snd machine set_machine].
      rewrite changeState_current.
      apply Qgtb_true in Eg. split; [intros _; split; [exact Eg | reflexivity]
                                    | reflexivity].
    - split; [intro F; exfalso; exact (Hawake eq_refl F) | intros [_ F]; discriminate F].
    - apply Qgtb_false in Eg.
      split; [intro F; exfalso; exact (Hawake eq_refl F)
             | intros [F _]; exfalso; apply (Qlt_not_le _ _ F Eg)]. }
  split; [exact Hiff|].
  intros Hfive Hs k' r' Hlater.
  pose proof (proj1 Hiff Hs) as [Hsilent Htalk].
  assert (Hlast : lastInteractionTime (update k r c) = lastInteractionTime c).
  { unfold update. rewrite (update_idle k r c Hi). unfold handleIdleState.
    apply Qgtb_true in Hsilent. rewrite Hsilent, Htalk. reflexivity. }
  rewrite (update_sleep k' r' _ Hs). unfold handleSleepState. rewrite Hlast.
  assert (Hno : 5000 <= t1 k' - lastInteractionTime c) by lra.
  apply Qltb_false in Hno. rewrite Hno. reflexivity.
Qed.

Lemma sleep_only_after_silence_witness :
  currentState (machine (new_cat 0 0 (1 # 2))) = "idle"
  /\ currentState (machine (update (at_time 60001) 0 (new_cat 0 0 (1 # 2)))) = "sleep"
  /\ update (at_time 90000) 0 (update (at_time 60001) 0 (new_cat 0 0 (1 # 2)))
     = update (at_time 60001) 0 (new_cat 0 0 (1 # 2)).
Proof.
  assert (Hi : currentState (machine (new_cat 0 0 (1 # 2))) = "idle") by reflexivity.
  destruct (sleep_only_after_silence (at_time 60001) 0 (new_cat 0 0 (1 # 2)) Hi)
    as [Hiff Hstay].
  assert (Hs : currentState (machine (update (at_time 60001) 0 (new_cat 0 0 (1 # 2))))
               = "sleep").
  { apply Hiff. split; reflexivity. }
  split; [exact Hi|]. split; [exact Hs|].
  apply Hstay; [discriminate | exact Hs | discriminate].
Defined.

(** X19.  A sleeping cat wakes in [update] exactly when the last interaction is
    less than 5000 ms old: it leaves sleep mode, becomes playful and happy;
    otherwise it is left as it is. *)
Theorem sleeper_wakes_on_interaction (k : Clock) (r : Q) (c : Cat) :
  currentState (machine c) = "sleep" ->
  let c' := update k r c in
  (t1 k - lastInteractionTime c < 5000 ->
   currentState (machine c') = "playful"
   /\ previousState (machine c') = "sleep"
   /\ stateStartTime (machine c') = t2 k
   /\ mood (machine c') = "happy"
   /\ catCalls (machine c') = catCalls (machine c) ++ [ExitSleepMode]
   /\ animationManager (machine c')
      = Clips.setSpeed 1 (animationManager (machine c)))
  /\ (5000 <= t1 k - lastInteractionTime c -> c' = c).
Proof.
  intros Hs. cbv zeta. rewrite (update_sleep k r c Hs). unfold handleSleepState.
  split.
  - intro Hlt. apply Qltb_true in Hlt. rewrite Hlt. cbn [machine set_machine].
    unfold changeState, exitSleepMode.
    cbn [currentState call_cat set_manager]. rewrite Hs.
    change (String.eqb "playful" "sleep") with false. cbv iota.
    repeat apply conj; reflexivity.
  - intro Hge. apply Qltb_false in Hge. rewrite Hge. reflexivity.
Qed.

Lemma sleeper_wakes_on_interaction_witness :
  currentState (machine sleeping_cat) = "sleep"
  /\ t1 (at_time 70500) - lastInteractionTime (touched 70000 sleeping_cat) < 5000
  /\ currentState (machine (update (at_time 70500) 0 (touched 70000 sleeping_cat)))
     = "playful".
Proof.
  assert (Hs : currentState (machine (touched 70000 sleeping_cat)) = "sleep")
    by reflexivity.
  assert (Hlt : t1 (at_time 70500) - lastInteractionTime (touched 70000 sleeping_cat)
                < 5000) by reflexivity.
  split; [reflexivity|]. split; [exact Hlt|].
  destruct (sleeper_wakes_on_interaction (at_time 70500) 0
              (touched 70000 sleeping_cat) Hs) as [Hwake _].
  destruct (Hwake Hlt) as [H1 _]. exact H1.
Defined.





End BehaviorMore.

(** ** More on the Procedural Layer *)

Module ProceduralMore.
Import Procedural ProceduralFacts ProceduralRuns.
Local Open Scope string_scope.
Local Open Scope list_scope.
Local Open Scope R_scope.

(** *** Breathing *)

Lemma performTailFlick_breath (d : Draws) (l : Layer) :
  breath_view (performTailFlick d l) = breath_view l.
Proof.
  unfold performTailFlick.
  destruct (tailBone (bones l)); [|reflexivity].
  cbv zeta. destruct (Rlt_dec _ _); reflexivity.
Qed.

Lemma applyTailMotion_breath (delta : R) (d : Draws) (l : Layer) :
  breath_view (applyTailMotion delta d l) = breath_view l.
Proof.
  unfold applyTailMotion.
  destruct (tailBone (bones l)); [|reflexivity].
  destruct (tail_target (mood l) (tail l)) as [[target rate] speed].
  cbv zeta. destruct (Rlt_dec _ _); [|reflexivity].
  rewrite performTailFlick_breath. reflexivity.
Qed.

Lemma performEarTwitch_breath (left : bool) (d : Draws) (l : Layer) :
  breath_view (performEarTwitch left d l) = breath_view l.
Proof.
  unfold performEarTwitch. cbv zeta.
  destruct (Rlt_dec _ _); destruct left; reflexivity.
Qed.

Lemma applyEarMotions_breath (delta : R) (d : Draws) (l : Layer) :
  breath_view (applyEarMotions delta d l) = breath_view l.
Proof.
  unfold applyEarMotions.
  destruct (earLeft (bones l)); [|reflexivity].
  destruct (earRight (bones l)); [|reflexivity].
  destruct (Rlt_dec (twitchDraw d) (twitchProbability (ears l))).
  - destruct (String.eqb _ _); cbn; apply performEarTwitch_breath.
  - destruct (String.eqb _ _); reflexivity.
Qed.

Lemma applyTalkingBehavior_breath (delta : R) (l : Layer) :
  breath_view (applyTalkingBehavior delta l) = breath_view l.
Proof.
  unfold applyTalkingBehavior.
  destruct (isTalking l); [|reflexivity].
  destruct (head (bones l)); reflexivity.
Qed.

Lemma applyMoodInfluences_breath (delta : R) (l : Layer) :
  breath_view (applyMoodInfluences delta l) = breath_view l.
Proof. unfold applyMoodInfluences. destruct (animationManager l); reflexivity. Qed.

Lemma applyBreathing_view (delta : R) (l l0 : Layer) :
  breath_view l = breath_view l0 ->
  breath_view (applyBreathing delta l) = breath_view (applyBreathing delta l0).
Proof.
  unfold breath_view. intro E. injection E as E1 E2 E3 E4.
  unfold applyBreathing. rewrite E1, E2, E3, E4.
  destruct (modelScale l0) as [[sx sy]|] eqn:Em; cbn; [reflexivity|].
  congruence.
Qed.

Lemma update_breath (delta : R) (d : Draws) (l : Layer) :
  breath_view (update delta d l) = breath_view (applyBreathing delta l).
Proof.
  unfold update.
  rewrite applyMoodInfluences_breath, applyTalkingBehavior_breath.
  apply applyBreathing_view.
  rewrite applyEarMotions_breath, applyTailMotion_breath. reflexivity.
Qed.

Lemma breath_bound (s phase i : R) :
  0 <= i -> Rabs (s * (1 + sin phase * i) - s) <= Rabs s * i.
Proof.
  intro Hi.
  replace (s * (1 + sin phase * i) - s) with (s * (sin phase * i)) by ring.
  rewrite Rabs_mult. apply Rmult_le_compat_l; [apply Rabs_pos|].
  rewrite Rabs_mult, (Rabs_right i) by lra.
  pose proof (SIN_bound phase) as [Hlo Hhi].
  assert (Rabs (sin phase) <= 1) by (apply Rabs_le; lra).
  nra.
Qed.

Lemma tick_breathes (sx : R) (l : Layer) (p : R * Draws) :
  sx <> 0 ->
  breathes_from sx l ->
  breathes_from sx (tick l p)
  /\ originalModelScale (tick l p) = Some sx
  /\ exists y, modelScale (tick l p) = Some (sx, y)
               /\ Rabs (y - sx) <= Rabs sx * (2 / 100).
Proof.
  intros Hsx [[sy Hm] Ho]. unfold tick.
  pose proof (update_breath (fst p) (snd p) l) as E.
  unfold breath_view in E. injection E as E1 E2 _ _.
  assert (Hb : originalModelScale (applyBreathing (fst p) l) = Some sx
               /\ exists y, modelScale (applyBreathing (fst p) l) = Some (sx, y)
                            /\ Rabs (y - sx) <= Rabs sx * (2 / 100)).
  { unfold applyBreathing. rewrite Hm.
    assert (Horig : match originalModelScale l with
                    | Some s => if Req_dec_T s 0 then sx else s
                    | None => sx
                    end = sx).
    { destruct Ho as [-> | ->]; [reflexivity|].
      destruct (Req_dec_T sx 0); [contradiction | reflexivity]. }
    cbn [originalModelScale modelScale]. rewrite Horig.
    split; [reflexivity|].
    eexists. split; [reflexivity|].
    destruct (String.eqb (state l) "sleep").
    - apply breath_bound. lra.
    - eapply Rle_trans; [apply breath_bound; lra|].
      apply Rmult_le_compat_l; [apply Rabs_pos | lra]. }
  destruct Hb as [Hb1 (y & Hb2 & Hb3)].
  unfold breathes_from. rewrite E1, E2.
  split; [|split].
  - split; [exists y; exact Hb2 | right; exact Hb1].
  - exact Hb1.
  - exists y. split; assumption.
Qed.

(** An invariant that every step keeps and that gives [Q] after each step
    holds with [Q] at the end of every run that is not empty. *)
Lemma fold_left_invariant {A B : Type} (f : A -> B -> A) (P Q : A -> Prop) :
  (forall a b, P a -> P (f a b) /\ Q (f a b)) ->
  forall (run : list B) (a : A), P a -> run <> [] -> Q (fold_left f run a).
Proof.
  intros Hstep run.
  induction run as [|b rest IH]; intros a Ha Hne; [exfalso; apply Hne; reflexivity|].
  destruct (Hstep a b Ha) as [HP HQ].
  destruct rest as [|b' rest'].
  - exact HQ.
  - apply (IH (f a b) HP). discriminate.
Qed.

(** X21.  Breathing never compounds.  The first tick captures the x scale of the
    model as the original scale; from then on, after any run of ticks, the
    captured scale is still that one, the x scale is untouched and the y scale
    is the original times a factor within 2 percent of 1, whatever the y
    scale was before. *)
Theorem breathing_never_compounds (sx : R) (run : list (R * Draws)) (l : Layer) :
  sx <> 0 ->
  breathes_from sx l ->
  run <> [] ->
  originalModelScale (ticks run l) = Some sx
  /\ exists y, modelScale (ticks run l) = Some (sx, y)
               /\ Rabs (y - sx) <= Rabs sx * (2 / 100).
Proof.
  intros Hsx Hl Hne. unfold ticks.
  apply (fold_left_invariant tick (breathes_from sx)
           (fun l0 => originalModelScale l0 = Some sx
                      /\ exists y, modelScale l0 = Some (sx, y)
                                   /\ Rabs (y - sx) <= Rabs sx * (2 / 100)));
    [|exact Hl | exact Hne].
  intros a b Ha. destruct (tick_breathes sx a b Hsx Ha) as (H1 & H2 & H3).
  split; [exact H1 | split; [exact H2 | exact H3]].
Qed.

Lemma breathing_never_compounds_witness :
  2 <> 0
  /\ breathes_from 2 stretched_cat
  /\ [(1 / 60, quiet); (1 / 60, quiet)] <> []
  /\ originalModelScale (ticks [(1 / 60, quiet); (1 / 60, quiet)] stretched_cat)
     = Some 2.
Proof.
  assert (H2 : 2 <> 0) by lra.
  assert (Hb : breathes_from 2 stretched_cat).
  { split; [exists 5; reflexivity | left; reflexivity]. }
  assert (Hr : [(1 / 60, quiet); (1 / 60, quiet)] <> []) by discriminate.
  split; [exact H2|]. split; [exact Hb|]. split; [exact Hr|].
  exact (proj1 (breathing_never_compounds 2 [(1 / 60, quiet); (1 / 60, quiet)]
                  stretched_cat H2 Hb Hr)).
Defined.

(** *** The tail *)

Lemma performTailFlick_tail_params (d : Draws) (l : Layer) :
  tail (performTailFlick d l) = tail l.
Proof.
  unfold performTailFlick.
  destruct (tailBone (bones l)); [|reflexivity].
  cbv zeta. destruct (Rlt_dec _ _); reflexivity.
Qed.

Lemma performEarTwitch_tail_params (left : bool) (d : Draws) (l : Layer) :
  tail (performEarTwitch left d l) = tail l.
Proof.
  unfold performEarTwitch. cbv zeta.
  destruct (Rlt_dec _ _); destruct left; reflexivity.
Qed.

Lemma applyEarMotions_tail_params (delta : R) (d : Draws) (l : Layer) :
  tail (applyEarMotions delta d l) = tail l.
Proof.
  unfold applyEarMotions.
  destruct (earLeft (bones l)); [|reflexivity].
  destruct (earRight (bones l)); [|reflexivity].
  destruct (Rlt_dec (twitchDraw d) (twitchProbability (ears l))).
  - destruct (String.eqb _ _); cbn; apply performEarTwitch_tail_params.
  - destruct (String.eqb _ _); reflexivity.
Qed.

Lemma applyBreathing_tail_params (delta : R) (l : Layer) :
  tail (applyBreathing delta l) = tail l.
Proof.
  unfold applyBreathing. destruct (modelScale l) as [[sx sy]|]; reflexivity.
Qed.

Lemma applyTalkingBehavior_tail_params (delta : R) (l : Layer) :
  tail (applyTalkingBehavior delta l) = tail l.
Proof.
  unfold applyTalkingBehavior.
  destruct (isTalking l); [|reflexivity].
  destruct (head (bones l)); reflexivity.
Qed.

Lemma applyMoodInfluences_tail_params (delta : R) (l : Layer) :
  tail (applyMoodInfluences delta l) = tail l.
Proof. unfold applyMoodInfluences. destruct (animationManager l); reflexivity. Qed.

Lemma applyTailMotion_tail_params (delta : R) (d : Draws) (l : Layer)
    (r : Euler) (target rate speed : R) :
  tailBone (bones l) = Some r ->
  tail_target (mood l) (tail l) = (target, rate, speed) ->
  tail (applyTailMotion delta d l)
  = mkTail (baseIntensity (tail l))
           (lerp (currentIntensity (tail l)) target (delta * rate))
           (tailPhase (tail l) + delta * speed) speed.
Proof.
  intros Hr Ht. unfold applyTailMotion. rewrite Hr, Ht. cbv zeta.
  destruct (Rlt_dec _ _); [rewrite performTailFlick_tail_params|]; reflexivity.
Qed.

Lemma update_tail_params (delta : R) (d : Draws) (l : Layer)
    (r : Euler) (target rate speed : R) :
  tailBone (bones l) = Some r ->
  tail_target (mood l) (tail l) = (target, rate, speed) ->
  tail (update delta d l)
  = mkTail (baseIntensity (tail l))
           (lerp (currentIntensity (tail l)) target (delta * rate))
           (tailPhase (tail l) + delta * speed) speed.
Proof.
  intros Hr Ht. unfold update.
  rewrite applyMoodInfluences_tail_params, applyTalkingBehavior_tail_params,
          applyBreathing_tail_params, applyEarMotions_tail_params.
  assert (Hr' : exists r', tailBone (bones (resetBaselines
                  (mkLayer (time l + delta) (boneBaselines l) (originalModelScale l)
                     (tail l) (ears l) (breathing l) (bones l) (mood l) (state l)
                     (isTalking l) (talkingIntensity l) (modelScale l)
                     (animationManager l) (gestures l)))) = Some r').
  { unfold resetBaselines, set_bones. cbn [bones tailBone boneBaselines].
    rewrite Hr. destruct (baseTail (boneBaselines l)); eexists; reflexivity. }
  destruct Hr' as [r' Hr'].
  rewrite (applyTailMotion_tail_params delta d _ r' target rate speed Hr' Ht).
  reflexivity.
Qed.

Lemma lerp_stays_between (a b f : R) :
  0 <= f <= 1 ->
  Rmin a b <= lerp a b f <= Rmax a b
  /\ Rabs (lerp a b f - b) <= Rabs (a - b).
Proof.
  intros [H0 H1]. unfold lerp.
  split.
  - unfold Rmin, Rmax. destruct (Rle_dec a b); split; nra.
  - replace (a + (b - a) * f - b) with ((a - b) * (1 - f)) by ring.
    rewrite Rabs_mult, (Rabs_right (1 - f)) by lra.
    pose proof (Rabs_pos (a - b)). nra.
Qed.

(** X22.  The swing of the tail follows the mood.  In a tick on a cat with a tail,
    the intensity moves from its value to the target of the mood by the
    fraction delta * rate: when that fraction is between 0 and 1 the new
    intensity lies between the old one and the target and is no farther from
    the target than before; the speed is that of the mood and the phase
    advances by delta * speed. *)
Theorem tail_glides_towards_mood (delta : R) (d : Draws) (l : Layer)
    (r : Euler) (target rate speed : R) :
  tailBone (bones l) = Some r ->
  tail_target (mood l) (tail l) = (target, rate, speed) ->
  0 <= delta * rate <= 1 ->
  let i := currentIntensity (tail l) in
  let i' := currentIntensity (tail (update delta d l)) in
  i' = lerp i target (delta * rate)
  /\ Rmin i target <= i' <= Rmax i target
  /\ Rabs (i' - target) <= Rabs (i - target)
  /\ tailSpeed (tail (update delta d l)) = speed
  /\ tailPhase (tail (update delta d l)) = tailPhase (tail l) + delta * speed
  /\ baseIntensity (tail (update delta d l)) = baseIntensity (tail l).
Proof.
  intros Hr Ht Hf. cbv zeta.
  rewrite (update_tail_params delta d l r target rate speed Hr Ht).
  cbn [currentIntensity tailSpeed tailPhase baseIntensity].
  destruct (lerp_stays_between (currentIntensity (tail l)) target (delta * rate) Hf)
    as [Hb Hd].
  repeat apply conj; try reflexivity; try apply Hb; exact Hd.
Qed.

Lemma tail_glides_towards_mood_witness :
  tailBone (bones happy_cat) = Some Euler_zero
  /\ tail_target (mood happy_cat) (tail happy_cat) = (4 / 10, 2, 2)
  /\ 0 <= 1 / 60 * 2 <= 1
  /\ Rabs (currentIntensity (tail (update (1 / 60) quiet happy_cat)) - 4 / 10)
     <= Rabs (currentIntensity (tail happy_cat) - 4 / 10).
Proof.
  assert (Hr : tailBone (bones happy_cat) = Some Euler_zero) by reflexivity.
  assert (Ht : tail_target (mood happy_cat) (tail happy_cat) = (4 / 10, 2, 2))
    by reflexivity.
  assert (Hf : 0 <= 1 / 60 * 2 <= 1) by lra.
  split; [exact Hr|]. split; [exact Ht|]. split; [exact Hf|].
  exact (proj1 (proj2 (proj2
           (tail_glides_towards_mood (1 / 60) quiet happy_cat Euler_zero
              (4 / 10) 2 2 Hr Ht Hf)))).
Defined.

(** X23.  The tail never swings farther than its intensity.  After a tick in which
    no flick starts, the tail bone is at its baseline on x, within the new
    intensity of its baseline on y and within half of it on z. *)
Theorem tail_swing_bounded (delta : R) (d : Draws) (l : Layer) (r base : Euler) :
  tailBone (bones l) = Some r ->
  baseTail (boneBaselines l) = Some base ->
  ~ flickDraw d < 5 / 1000 ->
  exists r',
    tailBone (bones (update delta d l)) = Some r'
    /\ ex r' = ex base
    /\ Rabs (ey r' - ey base) <= Rabs (currentIntensity (tail (update delta d l)))
    /\ Rabs (ez r' - ez base)
       <= Rabs (currentIntensity (tail (update delta d l))) / 2.
Proof.
  intros Hr Hb Hd.
  pose proof (update_tail delta d l r base Hr Hb Hd) as Hu.
  destruct (tail_target (mood l) (tail l)) as [[target rate] speed] eqn:Et.
  cbv zeta in Hu.
  rewrite (update_tail_params delta d l r target rate speed Hr Et).
  cbn [currentIntensity].
  set (i := lerp (currentIntensity (tail l)) target (delta * rate)) in *.
  set (phase := tailPhase (tail l) + delta * speed) in *.
  eexists. split; [exact Hu|]. cbn [ex ey ez].
  split; [reflexivity|]. split.
  - replace (ey base + sin phase * i - ey base) with (sin phase * i) by ring.
    rewrite Rabs_mult.
    pose proof (SIN_bound phase) as [Hlo Hhi].
    assert (Rabs (sin phase) <= 1) by (apply Rabs_le; lra).
    pose proof (Rabs_pos i). pose proof (Rabs_pos (sin phase)). nra.
  - replace (ez base + cos (phase * (7 / 10)) * i * (5 / 10) - ez base)
      with (cos (phase * (7 / 10)) * i * (5 / 10)) by ring.
    rewrite !Rabs_mult, (Rabs_right (5 / 10)) by lra.
    pose proof (COS_bound (phase * (7 / 10))) as [Hlo Hhi].
    assert (Rabs (cos (phase * (7 / 10))) <= 1) by (apply Rabs_le; lra).
    pose proof (Rabs_pos i). pose proof (Rabs_pos (cos (phase * (7 / 10)))). nra.
Qed.

Lemma tail_swing_bounded_witness :
  tailBone (bones resting_cat) = Some Euler_zero
  /\ baseTail (boneBaselines resting_cat) = Some Euler_zero
  /\ ~ flickDraw quiet < 5 / 1000
  /\ exists r',
       tailBone (bones (update (1 / 60) quiet resting_cat)) = Some r'
       /\ ex r' = ex Euler_zero.
Proof.
  assert (Hr : tailBone (bones resting_cat) = Some Euler_zero) by reflexivity.
  assert (Hb : baseTail (boneBaselines resting_cat) = Some Euler_zero) by reflexivity.
  assert (Hd : ~ flickDraw quiet < 5 / 1000).
  { change (flickDraw quiet) with (1 / 2). lra. }
  split; [exact Hr|]. split; [exact Hb|]. split; [exact Hd|].
  destruct (tail_swing_bounded (1 / 60) quiet resting_cat Euler_zero Euler_zero
              Hr Hb Hd) as (r' & H1 & H2 & _).
  exists r'. split; [exact H1 | exact H2].
Defined.

Lemma flick_frame_bumps (i e : R) (base : Euler) (b : Bones) (r : Euler) :
  tailBone b = Some r -> 0 <= i <= 1 / 2 -> 0 <= e ->
  tail_bumped (ex r) (ez r) (ey base) (flick_frame i e base b).
Proof.
  intros Hr Hi He. unfold tail_bumped, flick_frame. rewrite Hr.
  eexists. split; [reflexivity|]. cbn [ey].
  assert (Hp : 0 <= progress e 150 <= 1).
  { unfold progress. split; [|apply Rmin_r].
    apply Rmin_glb; [|lra].
    unfold Rdiv. apply Rmult_le_pos; [exact He | lra]. }
  pose proof PI_RGT_0 as Hpi.
  assert (Hx0 : 0 <= progress e 150 * PI) by nra.
  assert (Hx1 : progress e 150 * PI <= PI) by nra.
  pose proof (sin_ge_0 _ Hx0 Hx1) as Hs0.
  pose proof (SIN_bound (progress e 150 * PI)) as [_ Hs1].
  nra.
Qed.

Lemma flick_frame_tail (i e : R) (base : Euler) (b : Bones) (x z y0 : R) :
  tailBone b = Some (mkEuler x y0 z) ->
  exists y, tailBone (flick_frame i e base b) = Some (mkEuler x y z).
Proof.
  intro Hr. unfold flick_frame. rewrite Hr. eexists. reflexivity.
Qed.

Lemma progress_done (e : R) : 0 <= e -> (~ progress e 150 < 1 <-> 150 <= e).
Proof.
  intro He. unfold progress. split.
  - intro H. apply Rnot_lt_le in H.
    destruct (Rle_dec (e / 150) 1) as [L|L].
    + rewrite (Rmin_left _ _ L) in H. lra.
    + lra.
  - intros H F. rewrite Rmin_right in F; lra.
Qed.

Lemma flick_run_spec (i : R) (base : Euler) (frames : list R) :
  0 <= i <= 1 / 2 ->
  Forall (fun e => 0 <= e) frames ->
  forall (b : Bones) (x z : R),
    tail_bumped x z (ey base) b ->
    tail_bumped x z (ey base) (fst (flick_run i base frames b))
    /\ (snd (flick_run i base frames b) = false
        <-> Exists (fun e => 150 <= e) frames).
Proof.
  intros Hi. induction frames as [|e rest IH]; intros Hf b x z Hb.
  - cbn. split; [exact Hb|]. split; [discriminate | intro F; inversion F].
  - pose proof (Forall_inv Hf) as He. cbn beta in He.
    pose proof (Forall_inv_tail Hf) as Hrest.
    destruct Hb as (y0 & Hy0 & _).
    assert (Hb1 : tail_bumped x z (ey base) (flick_frame i e base b)).
    { exact (flick_frame_bumps i e base b _ Hy0 Hi He). }
    cbn [flick_run animateFlick].
    destruct (Rlt_dec (progress e 150) 1) as [L|L].
    + destruct (IH Hrest _ x z Hb1) as [I1 I2].
      split; [exact I1|]. rewrite I2. split.
      * intro H. apply Exists_cons_tl. exact H.
      * intro H. inversion H as [? ? F|? ? F]; subst; [|exact F].
        exfalso. apply (proj2 (progress_done e He)); assumption.
    + cbn [fst snd]. split; [exact Hb1|].
      split; [intros _|reflexivity].
      apply Exists_cons_hd. apply (progress_done e He). exact L.
Qed.

(** X24.  A tail flick is a bump on y of at most one half.  With elapsed
    times that are not negative and an intensity draw in [0, 1): the first
    frame, run inside [performTailFlick], and every later frame put y
    between the cached baseline (or zero) and that baseline plus one half
    and leave x and z alone.  The first frame asks for another unless 150 ms
    have already passed; the frames go on until one of them finds 150 ms or
    more elapsed, and that frame is the last: later readings change
    nothing. *)
Theorem flick_is_a_bounded_bump (d : Draws) (l : Layer) (r : Euler)
    (frames later : list R) (last : R) :
  tailBone (bones l) = Some r ->
  0 <= flickIntensityDraw d < 1 ->
  0 <= flickElapsed d ->
  Forall (fun e => 0 <= e) frames ->
  let l' := performTailFlick d l in
  let base := baseline_or_zero (baseTail (boneBaselines l)) in
  let intensity := 3 / 10 + flickIntensityDraw d * (2 / 10) in
  tail_bumped (ex r) (ez r) (ey base) (bones l')
  /\ (flickElapsed d < 150 -> gestures l' = gestures l ++ [TailFlick intensity base])
  /\ (150 <= flickElapsed d -> gestures l' = gestures l)
  /\ tail_bumped (ex r) (ez r) (ey base)
       (fst (flick_run intensity base frames (bones l')))
  /\ (snd (flick_run intensity base frames (bones l')) = false
      <-> Exists (fun e => 150 <= e) frames)
  /\ (Forall (fun e => e < 150) frames -> 150 <= last ->
      flick_run intensity base (frames ++ last :: later) (bones l')
      = (fst (flick_run intensity base (frames ++ [last]) (bones l')), false)).
Proof.
  intros Hr Hi He Hf. cbv zeta.
  set (base := baseline_or_zero (baseTail (boneBaselines l))).
  set (i := 3 / 10 + flickIntensityDraw d * (2 / 10)).
  assert (Hi2 : 0 <= i <= 1 / 2) by (unfold i; lra).
  assert (Hb : tail_bumped (ex r) (ez r) (ey base) (bones (performTailFlick d l))).
  { unfold performTailFlick. rewrite Hr. cbv zeta. fold base i.
    destruct (Rlt_dec _ _); cbn [bones set_bones add_gesture];
      exact (flick_frame_bumps i _ base _ r Hr Hi2 He). }
  split; [exact Hb|]. split; [|split].
  - intro Hlt. unfold performTailFlick. rewrite Hr. cbv zeta. fold base i.
    destruct (Rlt_dec _ _) as [_|F]; [reflexivity|].
    exfalso. apply (progress_done _ He) in F. lra.
  - intro Hge. unfold performTailFlick. rewrite Hr. cbv zeta. fold base i.
    destruct (Rlt_dec _ _) as [F|_]; [|reflexivity].
    exfalso. apply (proj2 (progress_done _ He)) in F; assumption.
  - destruct (flick_run_spec i base frames Hi2 Hf _ _ _ Hb) as [H1 H2].
    split; [exact H1|]. split; [exact H2|].
    intros Hearly Hlast. clear H1 H2 Hb.
    generalize (bones (performTailFlick d l)).
    induction frames as [|e rest IH]; intro b.
    + cbn [app flick_run animateFlick].
      destruct (Rlt_dec (progress last 150) 1) as [F|_]; [|reflexivity].
      exfalso. unfold progress in F. rewrite Rmin_right in F; lra.
    + cbn [app flick_run animateFlick].
      destruct (Rlt_dec (progress e 150) 1) as [_|F].
      * apply IH; [exact (Forall_inv_tail Hf) | exact (Forall_inv_tail Hearly)].
      * reflexivity.
Qed.

Lemma flick_is_a_bounded_bump_witness :
  tailBone (bones resting_cat) = Some Euler_zero
  /\ 0 <= flickIntensityDraw prompt_flick < 1
  /\ 0 <= flickElapsed prompt_flick
  /\ Forall (fun e => 0 <= e) [50; 100; 150]
  /\ gestures (performTailFlick prompt_flick resting_cat)
     = gestures resting_cat ++ [TailFlick (3 / 10 + 1 / 2 * (2 / 10)) Euler_zero]
  /\ snd (flick_run (3 / 10 + 1 / 2 * (2 / 10)) Euler_zero [50; 100; 150]
                    (bones (performTailFlick prompt_flick resting_cat)))
     = false.
Proof.
  assert (Hr : tailBone (bones resting_cat) = Some Euler_zero) by reflexivity.
  assert (Hi : 0 <= flickIntensityDraw prompt_flick < 1).
  { change (flickIntensityDraw prompt_flick) with (1 / 2). lra. }
  assert (He : 0 <= flickElapsed prompt_flick).
  { change (flickElapsed prompt_flick) with 0. lra. }
  assert (Hf : Forall (fun e => 0 <= e) [50; 100; 150]).
  { repeat constructor; lra. }
  split; [exact Hr|]. split; [exact Hi|]. split; [exact He|]. split; [exact Hf|].
  destruct (flick_is_a_bounded_bump prompt_flick resting_cat Euler_zero
              [50; 100; 150] [] 0 Hr Hi He Hf) as (_ & Hg & _ & _ & Hdone & _).
  split.
  - apply Hg. change (flickElapsed prompt_flick) with 0. lra.
  - apply Hdone. apply Exists_cons_tl, Exists_cons_tl, Exists_cons_hd. lra.
Defined.

(** *** The head and a cat without bones *)

Lemma performTailFlick_head (d : Draws) (l : Layer) :
  head (bones (performTailFlick d l)) = head (bones l)
  /\ talk_view (performTailFlick d l) = talk_view l.
Proof.
  unfold performTailFlick, flick_frame.
  destruct (tailBone (bones l)); [|split; reflexivity].
  cbv zeta. destruct (Rlt_dec _ _); split; reflexivity.
Qed.

Lemma applyTailMotion_head (delta : R) (d : Draws) (l : Layer) :
  head (bones (applyTailMotion delta d l)) = head (bones l)
  /\ talk_view (applyTailMotion delta d l) = talk_view l.
Proof.
  unfold applyTailMotion.
  destruct (tailBone (bones l)); [|split; reflexivity].
  destruct (tail_target (mood l) (tail l)) as [[target rate] speed].
  cbv zeta. destruct (Rlt_dec _ _); [|split; reflexivity].
  destruct (performTailFlick_head d
    (set_bones
       (mkBones (head (bones l))
          (Some (mkEuler (ex e)
                   (ey (baseline_or_zero (baseTail (boneBaselines l)))
                    + sin (tailPhase (tail l) + delta * speed)
                      * lerp (currentIntensity (tail l)) target (delta * rate))
                   (ez (baseline_or_zero (baseTail (boneBaselines l)))
                    + cos ((tailPhase (tail l) + delta * speed) * (7 / 10))
                      * lerp (currentIntensity (tail l)) target (delta * rate)
                      * (5 / 10))))
          (earLeft (bones l)) (earRight (bones l)))
       (set_tail (mkTail (baseIntensity (tail l))
                    (lerp (currentIntensity (tail l)) target (delta * rate))
                    (tailPhase (tail l) + delta * speed) speed) l)))
    as [H1 H2].
  rewrite H1, H2. split; reflexivity.
Qed.

Lemma performEarTwitch_head (left : bool) (d : Draws) (l : Layer) :
  head (bones (performEarTwitch left d l)) = head (bones l)
  /\ talk_view (performEarTwitch left d l) = talk_view l.
Proof.
  unfold performEarTwitch. cbv zeta.
  destruct (Rlt_dec _ _); destruct left; split; reflexivity.
Qed.

Lemma applyEarMotions_head (delta : R) (d : Draws) (l : Layer) :
  head (bones (applyEarMotions delta d l)) = head (bones l)
  /\ talk_view (applyEarMotions delta d l) = talk_view l.
Proof.
  unfold applyEarMotions.
  destruct (earLeft (bones l)); [|split; reflexivity].
  destruct (earRight (bones l)); [|split; reflexivity].
  destruct (Rlt_dec (twitchDraw d) (twitchProbability (ears l))).
  - destruct (String.eqb _ _); cbn [bones set_bones set_ears head];
      apply performEarTwitch_head.
  - destruct (String.eqb _ _); split; reflexivity.
Qed.

Lemma applyBreathing_talk (delta : R) (l : Layer) :
  talk_view (applyBreathing delta l) = talk_view l.
Proof.
  unfold applyBreathing. destruct (modelScale l) as [[sx sy]|]; reflexivity.
Qed.

(** X25.  The head nods only while the cat talks.  After a tick on a cat whose head
    has a cached baseline, the head of a silent cat is exactly on the
    baseline, whatever its rotation was; the head of a talking cat is on the
    baseline on y and z and off it on x by sin(8 * time) times 0.08 times the
    talking intensity, the time being that after the tick. *)
Theorem head_nods_only_when_talking (delta : R) (d : Draws) (l : Layer)
    (r base : Euler) :
  head (bones l) = Some r ->
  baseHead (boneBaselines l) = Some base ->
  head (bones (update delta d l))
  = Some (if isTalking l
          then mkEuler (ex base
                        + sin ((time l + delta) * 8) * (talkingIntensity l * (8 / 100)))
                       (ey base) (ez base)
          else base)
  /\ (forall r', head (bones (update delta d l)) = Some r' ->
       Rabs (ex r' - ex base) <= Rabs (talkingIntensity l) * (8 / 100)).
Proof.
  intros Hr Hb.
  assert (Hhead : head (bones (update delta d l))
    = Some (if isTalking l
            then mkEuler (ex base
                          + sin ((time l + delta) * 8) * (talkingIntensity l * (8 / 100)))
                         (ey base) (ez base)
            else base)).
  { unfold update. rewrite applyMoodInfluences_bones.
    set (l0 := mkLayer (time l + delta) (boneBaselines l) (originalModelScale l)
                 (tail l) (ears l) (breathing l) (bones l) (mood l) (state l)
                 (isTalking l) (talkingIntensity l) (modelScale l)
                 (animationManager l) (gestures l)).
    set (l3 := applyBreathing delta
                 (applyEarMotions delta d (applyTailMotion delta d (resetBaselines l0)))).
    assert (Hh : head (bones l3) = Some base).
    { unfold l3. rewrite applyBreathing_bones.
      rewrite (proj1 (applyEarMotions_head _ _ _)),
              (proj1 (applyTailMotion_head _ _ _)).
      unfold resetBaselines, set_bones, l0. cbn [bones head boneBaselines].
      rewrite Hr, Hb. reflexivity. }
    assert (Hv : talk_view l3
                 = (isTalking l, talkingIntensity l, time l + delta, Some base)).
    { unfold l3. rewrite applyBreathing_talk.
      rewrite (proj2 (applyEarMotions_head _ _ _)),
              (proj2 (applyTailMotion_head _ _ _)).
      unfold talk_view, resetBaselines, set_bones, l0.
      cbn [isTalking talkingIntensity time boneBaselines]. rewrite Hb. reflexivity. }
    unfold talk_view in Hv. injection Hv as Hv1 Hv2 Hv3 Hv4.
    unfold applyTalkingBehavior. rewrite Hv1, Hh.
    destruct (isTalking l); [|exact Hh].
    cbn [bones set_bones head]. rewrite Hv2, Hv3, Hv4. reflexivity. }
  split; [exact Hhead|].
  intros r' Hr'. rewrite Hhead in Hr'. injection Hr' as <-.
  destruct (isTalking l).
  - cbn [ex].
    replace (ex base + sin ((time l + delta) * 8) * (talkingIntensity l * (8 / 100))
             - ex base)
      with (sin ((time l + delta) * 8) * (talkingIntensity l * (8 / 100))) by ring.
    rewrite !Rabs_mult, (Rabs_right (8 / 100)) by lra.
    pose proof (SIN_bound ((time l + delta) * 8)) as [Hlo Hhi].
    assert (Rabs (sin ((time l + delta) * 8)) <= 1) by (apply Rabs_le; lra).
    pose proof (Rabs_pos (talkingIntensity l)).
    pose proof (Rabs_pos (sin ((time l + delta) * 8))). nra.
  - replace (ex base - ex base) with 0 by ring. rewrite Rabs_R0.
    pose proof (Rabs_pos (talkingIntensity l)). nra.
Qed.

Lemma head_nods_only_when_talking_witness :
  head (bones talking_cat) = Some (mkEuler 1 2 3)
  /\ baseHead (boneBaselines talking_cat) = Some Euler_zero
  /\ head (bones (update (1 / 60) quiet talking_cat))
     = Some (mkEuler (0 + sin ((0 + 1 / 60) * 8) * (1 * (8 / 100))) 0 0).
Proof.
  assert (Hr : head (bones talking_cat) = Some (mkEuler 1 2 3)) by reflexivity.
  assert (Hb : baseHead (boneBaselines talking_cat) = Some Euler_zero) by reflexivity.
  split; [exact Hr|]. split; [exact Hb|].
  exact (proj1 (head_nods_only_when_talking (1 / 60) quiet talking_cat
                  (mkEuler 1 2 3) Euler_zero Hr Hb)).
Defined.

(** X26.  Missing parts are skipped.  On a cat without any of the four bones,
    without model and without animation manager, a tick only advances the
    time of the layer: no baseline, parameter or gesture changes and nothing
    is drawn into the skeleton. *)
Theorem boneless_tick_only_advances_time (delta : R) (d : Draws) (l : Layer) :
  bones l = no_bones ->
  modelScale l = None ->
  animationManager l = None ->
  update delta d l
  = mkLayer (time l + delta) (boneBaselines l) (originalModelScale l) (tail l)
            (ears l) (breathing l) (bones l) (mood l) (state l) (isTalking l)
            (talkingIntensity l) (modelScale l) (animationManager l) (gestures l).
Proof.
  intros Hb Hm Ha.
  destruct l as [t bb o tl e br b m s it ti ms am g].
  cbn [bones modelScale animationManager] in Hb, Hm, Ha. subst b ms am.
  unfold update, resetBaselines, set_bones, no_bones.
  cbn [bones head tailBone earLeft earRight restore boneBaselines time
       originalModelScale tail ears breathing mood state isTalking talkingIntensity
       modelScale animationManager gestures].
  unfold applyTailMotion. cbn [bones tailBone].
  unfold applyEarMotions. cbn [bones earLeft].
  unfold applyBreathing. cbn [modelScale].
  unfold applyTalkingBehavior. cbn [bones head isTalking].
  unfold applyMoodInfluences. cbn [animationManager].
  destruct it; reflexivity.
Qed.

Lemma boneless_tick_only_advances_time_witness :
  bones bare_cat = no_bones
  /\ modelScale bare_cat = None
  /\ animationManager bare_cat = None
  /\ time (update (1 / 60) quiet bare_cat) = time bare_cat + 1 / 60.
Proof.
  split; [reflexivity|]. split; [reflexivity|]. split; [reflexivity|].
  rewrite (boneless_tick_only_advances_time (1 / 60) quiet bare_cat
             eq_refl eq_refl eq_refl).
  reflexivity.
Defined.

End ProceduralMore.

(** ** The scheduler carries its composites on *)

Module ProgressFacts.
Import Scheduler SchedulerFacts SchedulerMore SchedulerMoreFacts Progress.
Local Open Scope string_scope.
Local Open Scope list_scope.

(** *** What a call of [executeAction] adds *)






(** Steps that touch neither the log nor the reactions. *)
Lemma adds_same (w w' w'' : World) t m j :
  adds w w' t m j ->
  log w'' = log w' -> micro w'' = micro w' -> joins w'' = joins w' ->
  nextId w'' = nextId w' ->
  adds w w'' t m j.
Proof.
  unfold adds. intros H -> -> -> ->. exact H.
Qed.










(** *** What is owed stays owed *)
















(** *** Every step keeps what is owed *)















(** *** A completion ends the call and serves the queue *)







(** *** The claims on composites and on the queue *)






End ProgressFacts.

(** ** The Context Selector: the claim on scoring *)

Module ContextClaim.
Import Context ContextFacts ContextText.
Local Open Scope string_scope.
Local Open Scope list_scope.




Lemma toLowerCase_append (s t : string) :
  toLowerCase (String.append s t)
  = String.append (toLowerCase s) (toLowerCase t).
Proof. induction s as [|c s IH]; cbn; [reflexivity | rewrite IH; reflexivity]. Qed.










(** A text without any keyword: nothing is selected and the busy flag stays
    false. *)
Lemma evaluate_no_keyword :
  analyzeAndTriggerContextualAction contextMappings
    "Good MORNING" "Hello there" half (mkSelector false [])
  = mkSelector false [].
Proof. vm_compute. reflexivity. Qed.

End ContextClaim.
